(** * Verification of the portfolio scripts of NirantK/invest

    A shallow embedding of the arithmetic core of the analysis scripts:
    - [us/scripts/us_portfolio_allocation.py]: total-return index, momentum,
      downside volatility, drawdown metrics, Sortino weights, the iterative
      [apply_constraints] loop, the rounded amounts of [calculate_shares],
      [calculate_portfolio_metrics] and the weekly amounts of [main];
    - [us/scripts/allocate.py]: the vectorised total-return index, the
      momentum allocation, [cat_of] and the weekly amounts of [main];
    - [us/scripts/canadian_nyse_only.py]: the fetch routine with its
      exception handler, momentum, downside volatility, maximum drawdown
      and drawdown duration;
    - [nbs/oil_gas_comprehensive.py]: [get_segment] (its metrics are those
      of canadian_nyse_only.py);
    - [india/scripts/fetch_mf_nav.py]: [get_mf_history], [get_latest_nav].

    Numbers.  The scripts compute on IEEE doubles.  The embedding uses the
    canonical rationals [Qc]: exact arithmetic, no rounding.  The values that
    are not numbers (NaN, the infinities that a division by zero produces)
    and the Python exceptions are modelled in one of two ways.  The
    functions that go on computing with such values and return them,
    [calculate_sortino_weights] and [apply_constraints], work on [xnum], a
    rational, an infinity or NaN, with the IEEE rules for them.  Every other
    function returns an [option] or an [outcome], and the doc comment of the
    function says which source behaviour a failure stands for.

    Rounding.  The theorems are proved of the exact arithmetic.  They are
    stated so as to carry over to doubles: an equation between computed
    values says that both sides are made by the same operations; what only
    exact arithmetic makes an identity (a total that is the capital,
    weights that sum to 1) is stated with a tolerance far above the
    rounding of doubles; the rest are inequalities, signs and facts about
    labels.

    Globals.  [main] of us_portfolio_allocation.py rebinds the module
    global TOTAL_CAPITAL to its option [--capital]; the functions that read
    the global take its value as their argument [total_capital].

    Labels of a Series or of the columns of a frame are taken to be
    distinct, as the tickers of the scripts are. *)

From Stdlib Require Import List String Bool ZArith Lia Arith Sorted Permutation.
From Stdlib Require Import QArith Qcanon Qround Lqa.
Import ListNotations.

Open Scope string_scope.
Open Scope Qc_scope.

(** ** Rational helpers *)

Definition Qc_ltb (x y : Qc) : bool :=
  if Qclt_le_dec x y then true else false.

Definition Qc_eqb (x y : Qc) : bool :=
  if Qc_eq_dec x y then true else false.

Definition qz (z : Z) : Qc := Q2Qc (inject_Z z).

(** Python's [abs] on a number. *)
Definition qabs (x : Qc) : Qc := if Qc_ltb x 0 then - x else x.

Definition qmin (x y : Qc) : Qc := if Qc_ltb y x then y else x.
Definition qmax (x y : Qc) : Qc := if Qc_ltb x y then y else x.

(** [sum] of a pandas Series or of a Python generator of numbers. *)
Definition qsum (l : list Qc) : Qc := fold_right Qcplus 0 l.

(** Python's [x / y] on floats when NumPy is in charge of it: the quotient is
    a number only for [y <> 0]; [None] stands for the inf or NaN that the
    source gets otherwise. *)
Definition fdiv (x y : Qc) : option Qc :=
  if Qc_eqb y 0 then None else Some (x / y).

(** ** Computations that may fail *)

Definition obind {A B : Type} (x : option A) (k : A -> option B) : option B :=
  match x with
  | Some a => k a
  | None => None
  end.

Notation "x <- e ;; k" := (obind e (fun x => k))
  (at level 61, e at next level, right associativity).

(** All the entries of a list of possibly failing computations, or [None]. *)
Fixpoint sequence {A : Type} (l : list (option A)) : option (list A) :=
  match l with
  | [] => Some []
  | None :: _ => None
  | Some x :: l' => option_map (cons x) (sequence l')
  end.

(** What a routine that talks to a data provider does: it returns, it lets
    an exception escape, or it returns a value that holds an infinity or a
    NaN. *)
Inductive outcome (A : Type) :=
| Returned (a : A)
| Raised (e : string)
| NonFinite.

Arguments Returned {A} a.
Arguments Raised {A} e.
Arguments NonFinite {A}.

(** ** pandas Series: an ordered list of labelled values *)

Definition Series := list (string * Qc).

Definition index (s : Series) : list string := map fst s.
Definition values (s : Series) : list Qc := map snd s.

Definition in_index (t : string) (s : Series) : bool :=
  existsb (String.eqb t) (index s).

(** The first entry with a given label. *)
Fixpoint assoc {A : Type} (t : string) (l : list (string * A)) : option A :=
  match l with
  | [] => None
  | (k, v) :: l' => if String.eqb t k then Some v else assoc t l'
  end.

(** [s[t]] for a label the caller has checked to be in the index. *)
Fixpoint loc (t : string) (s : Series) : Qc :=
  match s with
  | [] => 0
  | (k, v) :: s' => if String.eqb t k then v else loc t s'
  end.

(** [s[t] = f(s[t])], an assignment in place at one label. *)
Fixpoint set_loc (t : string) (f : Qc -> Qc) (s : Series) : Series :=
  match s with
  | [] => []
  | (k, v) :: s' =>
      if String.eqb t k then (k, f v) :: s' else (k, v) :: set_loc t f s'
  end.

(** [s * c], the Series scaled by a scalar. *)
Definition scale (c : Qc) (s : Series) : Series :=
  map (fun kv => (fst kv, snd kv * c)) s.

(** [s * (num / den)] with a NumPy quotient.  For [den = 0] the quotient is
    an infinity: the product of an empty Series is the empty Series, every
    entry of another Series becomes NaN or an infinity ([None]). *)
Definition scale_by_quotient (num den : Qc) (s : Series) : option Series :=
  match s with
  | [] => Some []
  | _ :: _ => option_map (fun f => scale f s) (fdiv num den)
  end.

(** [s / d] for a scalar [d]; [None] when the entries become NaN or
    infinities. *)
Definition series_div (s : Series) (d : Qc) : option Series :=
  match s with
  | [] => Some []
  | _ :: _ =>
      if Qc_eqb d 0 then None
      else Some (map (fun kv => (fst kv, snd kv / d)) s)
  end.

(** A Series whose entries may be NaN or an infinity ([None]). *)
Definition NSeries := list (string * option Qc).

Fixpoint nloc (t : string) (s : NSeries) : option Qc :=
  match s with
  | [] => None
  | (k, v) :: s' => if String.eqb t k then v else nloc t s'
  end.

(** Arithmetic on entries that may be non-finite.  A division by zero gives
    an infinity or NaN, that is [None]. *)
Definition nlift2 (f : Qc -> Qc -> Qc) (x y : option Qc) : option Qc :=
  match x, y with
  | Some a, Some b => Some (f a b)
  | _, _ => None
  end.

Definition ndiv (x y : option Qc) : option Qc :=
  match x, y with
  | Some a, Some b => fdiv a b
  | _, _ => None
  end.

(** ** Values that may be an infinity or NaN *)

(** A double as [apply_constraints] and [calculate_sortino_weights] can meet
    it: a number, an infinity or NaN.  The operations are those of IEEE 754
    without the rounding.  There is one zero, taken as positive where a
    quotient by it needs a sign: every zero divisor of these two functions
    is a sum ([0 + x], or [x + (-x)]), and such a sum is the negative zero
    only when each of its terms is, in which case each product with the
    quotient is NaN whatever its sign. *)
Inductive xnum :=
| Num (q : Qc)
| PosInf
| NegInf
| NaN.

Definition is_nan (x : xnum) : bool :=
  match x with
  | NaN => true
  | _ => false
  end.

(** [x < y]: false as soon as one side is NaN. *)
Definition xlt (x y : xnum) : bool :=
  match x, y with
  | Num a, Num b => Qc_ltb a b
  | Num _, PosInf => true
  | NegInf, Num _ => true
  | NegInf, PosInf => true
  | _, _ => false
  end.

Definition xopp (x : xnum) : xnum :=
  match x with
  | Num a => Num (- a)
  | PosInf => NegInf
  | NegInf => PosInf
  | NaN => NaN
  end.

Definition xadd (x y : xnum) : xnum :=
  match x, y with
  | Num a, Num b => Num (a + b)
  | NaN, _ => NaN
  | _, NaN => NaN
  | PosInf, NegInf => NaN
  | NegInf, PosInf => NaN
  | PosInf, _ => PosInf
  | _, PosInf => PosInf
  | NegInf, _ => NegInf
  | _, NegInf => NegInf
  end.

Definition xsub (x y : xnum) : xnum := xadd x (xopp y).

Definition xabs (x : xnum) : xnum :=
  match x with
  | Num a => Num (qabs a)
  | PosInf => PosInf
  | NegInf => PosInf
  | NaN => NaN
  end.

(** The infinity that has the sign of [a]; NaN for [a = 0]: what [a * inf]
    and [a / 0] are. *)
Definition inf_of_sign (a : Qc) : xnum :=
  if Qc_ltb 0 a then PosInf else if Qc_ltb a 0 then NegInf else NaN.

Definition xmul (x y : xnum) : xnum :=
  match x, y with
  | Num a, Num b => Num (a * b)
  | NaN, _ => NaN
  | _, NaN => NaN
  | Num a, PosInf => inf_of_sign a
  | PosInf, Num a => inf_of_sign a
  | Num a, NegInf => inf_of_sign (- a)
  | NegInf, Num a => inf_of_sign (- a)
  | PosInf, PosInf => PosInf
  | NegInf, NegInf => PosInf
  | PosInf, NegInf => NegInf
  | NegInf, PosInf => NegInf
  end.

(** NumPy's quotient: a division by zero gives an infinity or NaN (and a
    warning), not an exception. *)
Definition xdiv (x y : xnum) : xnum :=
  match x, y with
  | Num a, Num b => if Qc_eqb b 0 then inf_of_sign a else Num (a / b)
  | NaN, _ => NaN
  | _, NaN => NaN
  | Num _, _ => Num 0
  | PosInf, Num b => if Qc_ltb b 0 then NegInf else PosInf
  | NegInf, Num b => if Qc_ltb b 0 then PosInf else NegInf
  | _, _ => NaN
  end.

(** A Series of such values. *)
Definition XSeries := list (string * xnum).

Definition xindex (s : XSeries) : list string := map fst s.
Definition xvalues (s : XSeries) : list xnum := map snd s.

Definition xin_index (t : string) (s : XSeries) : bool :=
  existsb (String.eqb t) (xindex s).

(** [s[t]] for a label the caller has checked to be in the index. *)
Fixpoint xloc (t : string) (s : XSeries) : xnum :=
  match s with
  | [] => Num 0
  | (k, v) :: s' => if String.eqb t k then v else xloc t s'
  end.

(** [s[t] = f(s[t])], an assignment in place at one label. *)
Fixpoint xset_loc (t : string) (f : xnum -> xnum) (s : XSeries) : XSeries :=
  match s with
  | [] => []
  | (k, v) :: s' =>
      if String.eqb t k then (k, f v) :: s' else (k, v) :: xset_loc t f s'
  end.

(** Python's built-in [sum]: from the int 0, term by term. *)
Definition py_sum (l : list xnum) : xnum := fold_left xadd l (Num 0).

(** [Series.sum()]: pandas leaves the NaN entries out; 0 when nothing is
    left. *)
Definition pd_sum (l : list xnum) : xnum :=
  py_sum (filter (fun v => negb (is_nan v)) l).

(** A Series of numbers, as a Series of such values. *)
Definition numbers (s : Series) : XSeries :=
  map (fun kv => (fst kv, Num (snd kv))) s.

(** [min] of a non-empty sequence, given as head and tail. *)
Definition qmin_list (x : Qc) (l : list Qc) : Qc := fold_left qmin l x.

(** [Series.min()]; NaN ([None]) on an empty Series. *)
Definition series_min (l : list Qc) : option Qc :=
  match l with
  | [] => None
  | x :: l' => Some (qmin_list x l')
  end.

(** [Series.cummax()]. *)
Fixpoint cummax_from (m : Qc) (l : list Qc) : list Qc :=
  match l with
  | [] => []
  | x :: l' => qmax m x :: cummax_from (qmax m x) l'
  end.

Definition cummax (l : list Qc) : list Qc :=
  match l with
  | [] => []
  | x :: l' => x :: cummax_from x l'
  end.

(** Python's [seq.iloc[i]] for any integer [i]: a negative position counts
    from the end; [None] is the IndexError of a position out of bounds. *)
Definition iloc_int (i : Z) (col : list Qc) : option Qc :=
  if (0 <=? i)%Z then nth_error col (Z.to_nat i)
  else if (0 <=? Z.of_nat (List.length col) + i)%Z
       then nth_error col (Z.to_nat (Z.of_nat (List.length col) + i))
       else None.

(** ** pandas DataFrame: named columns of equal length, rows by position *)

Definition Frame := list (string * list Qc).

(** [len(df)], the number of rows. *)
Definition nrows (df : Frame) : nat :=
  match df with
  | [] => O
  | (_, c) :: _ => List.length c
  end.

(** A computation applied to every column of a frame, keeping the labels;
    it fails as soon as one column fails. *)
Definition per_column {A : Type} (f : list Qc -> option A) (df : Frame)
  : option (list (string * A)) :=
  sequence (map (fun kc => option_map (pair (fst kc)) (f (snd kc))) df).

(** [col.pct_change().dropna()] on one column: the first row has no
    predecessor and is dropped.  [None] when a predecessor is zero: the
    quotient is then an infinity, or a NaN whose row [dropna] removes, and
    the embedding follows neither. *)
Fixpoint pct_change_from (prev : Qc) (l : list Qc) : list (option Qc) :=
  match l with
  | [] => []
  | x :: l' =>
      option_map (fun q => q - 1) (fdiv x prev) :: pct_change_from x l'
  end.

Definition pct_change (col : list Qc) : option (list Qc) :=
  match col with
  | [] => Some []
  | x :: l => sequence (pct_change_from x l)
  end.

Definition pct_change_dropna (prices : Frame) : option Frame :=
  per_column pct_change prices.

(** ** Sample statistics *)

Definition mean (l : list Qc) : Qc := qsum l / qz (Z.of_nat (List.length l)).

(** The sample variance that [Series.std()] takes the root of (ddof = 1). *)
Definition sample_var (l : list Qc) : Qc :=
  qsum (map (fun x => (x - mean l) * (x - mean l)) l)
  / qz (Z.of_nat (List.length l - 1)).

(** [x[x < 0]], the strictly negative entries. *)
Definition negative_returns (col : list Qc) : list Qc :=
  filter (fun r => Qc_ltb r 0) col.

Section Sqrt.

(** The square root of the floating-point library ([np.sqrt], and the root
    inside [Series.std()]).  It has no exact rational counterpart and is a
    parameter of the embedding. *)
Variable sqrt : Qc -> Qc.

(** [Series.std()]: NaN for fewer than two entries. *)
Definition std (l : list Qc) : option Qc :=
  if (List.length l <? 2)%nat then None else Some (sqrt (sample_var l)).

(** [x[x < 0].std() * np.sqrt(252)], the expression that
    us_portfolio_allocation.py and allocate.py share. *)
Definition annualized_negative_std (col : list Qc) : option Qc :=
  option_map (fun s => s * sqrt (qz 252)) (std (negative_returns col)).

End Sqrt.

(** ** [Series.nlargest] and rounding *)

(** A stable sort by decreasing value: [x] goes behind the entries that are
    not smaller. *)
Fixpoint insert_desc (x : string * Qc) (l : Series) : Series :=
  match l with
  | [] => [x]
  | y :: l' =>
      if Qc_ltb (snd y) (snd x) then x :: y :: l' else y :: insert_desc x l'
  end.

Definition sort_desc (s : Series) : Series :=
  fold_left (fun acc x => insert_desc x acc) s [].

(** [s.nlargest(n)]: the [n] largest entries, largest first, the earlier
    entry first among equal values; empty for [n <= 0]. *)
Definition nlargest (n : Z) (s : Series) : Series :=
  firstn (Z.to_nat n) (sort_desc s).

(** NumPy's [round]: to the nearest integer, a tie to the even one. *)
Definition round_half_even (x : Qc) : Z :=
  let f := Qfloor x in
  let r := x - qz f in
  if Qc_ltb r (Q2Qc (1 # 2)) then f
  else if Qc_ltb (Q2Qc (1 # 2)) r then (f + 1)%Z
  else if Z.even f then f else (f + 1)%Z.

(** ** yfinance histories and the loop that fetches them *)

(** One row of [yf.Ticker(t).history(period=...)]: the date of the index and
    the columns the scripts read. *)
Record hist_row := {
  Date : Z;
  Close : Qc;
  Dividends : Qc
}.

Definition History := list hist_row.

(** What one call of [yf.Ticker(t).history(...)] does: it raises (an HTTP
    error, a timeout, ...) or returns a history, possibly empty. *)
Inductive history_outcome :=
| HistoryRaises (e : string)
| HistoryIs (hist : History).

(** A Series indexed by date. *)
Definition DatedSeries := list (Z * Qc).

Definition has_date (d : Z) (s : DatedSeries) : bool :=
  existsb (fun dv => Z.eqb d (fst dv)) s.

Definition dated (hist : History) (v : list Qc) : DatedSeries :=
  combine (map Date hist) v.

(** [pd.concat(dfs, axis=1).dropna()] for a non-empty [dfs]: the columns
    side by side on the union of their dates, then without the rows that
    miss a value, which leaves the dates that every column has.  Columns
    are kept by position afterwards. *)
Definition concat_dropna (dfs : list (string * DatedSeries)) : Frame :=
  map (fun ks =>
         (fst ks,
          map snd
              (filter (fun dv => forallb (fun ks' => has_date (fst dv) (snd ks')) dfs)
                      (snd ks))))
      dfs.

(** The total-return index with reinvested dividends, as built by the loop
    [for i in range(len(close))] that fetch_total_return_index has in
    us_portfolio_allocation.py, canadian_nyse_only.py,
    oil_gas_comprehensive.py and their siblings.  [prev] is [close.iloc[i-1]]. *)
Fixpoint total_return_from (prev cumulative_dividends : Qc) (rows : History)
  : list Qc :=
  match rows with
  | [] => []
  | r :: rows' =>
      let div_yield :=
        if negb (Qc_eqb prev 0) then Dividends r / prev else 0 in
      let cumulative_dividends :=
        (1 + cumulative_dividends) * (1 + div_yield) - 1 in
      Close r * (1 + cumulative_dividends)
        :: total_return_from (Close r) cumulative_dividends rows'
  end.

Definition total_return_index (hist : History) : list Qc :=
  match hist with
  | [] => []
  | r :: rows => Close r :: total_return_from (Close r) 0 rows
  end.

Section Fetch.

(** The data provider, as it answers at the time of the run: ticker and
    period to what [history] does. *)
Variable history : string -> string -> history_outcome.

(** The loop of fetch_total_return_index in us_portfolio_allocation.py
    (lines 100-121): no exception handler. *)
Fixpoint fetch_columns (period : string) (tickers : list string)
  (dfs : list (string * DatedSeries)) : outcome (list (string * DatedSeries)) :=
  match tickers with
  | [] => Returned dfs
  | ticker :: rest =>
      match history ticker period with
      | HistoryRaises e => Raised e
      | HistoryIs [] => fetch_columns period rest dfs
      | HistoryIs hist =>
          fetch_columns period rest
            (dfs ++ [(ticker, dated hist (total_return_index hist))])%list
      end
  end.

(** The loop of fetch_total_return_index in canadian_nyse_only.py (lines
    49-74): its body is inside [try: ... except Exception: ... continue]. *)
Fixpoint fetch_columns_try (period : string) (tickers : list string)
  (dfs : list (string * DatedSeries)) : list (string * DatedSeries) :=
  match tickers with
  | [] => dfs
  | ticker :: rest =>
      match history ticker period with
      | HistoryRaises e => fetch_columns_try period rest dfs
      | HistoryIs [] => fetch_columns_try period rest dfs
      | HistoryIs hist =>
          fetch_columns_try period rest
            (dfs ++ [(ticker, dated hist (total_return_index hist))])%list
      end
  end.

End Fetch.

Module UsPortfolioAllocation.

(** *** Module constants (us_portfolio_allocation.py, lines 64-83) *)

(** The value at import.  [main] rebinds the global to its option
    [--capital] before it calls anything that reads it; the functions below
    that read the global take its value at the time of the call as their
    argument [total_capital]. *)
Definition TOTAL_CAPITAL : Qc := qz 60000.
Definition MIN_ALLOCATION_PCT : Qc := Q2Qc (5 # 100).
Definition SECTOR_CAP_PCT : Qc := Q2Qc (33 # 100).
Definition LOOKBACK_3M : nat := 63.
Definition LOOKBACK_6M : nat := 126.

Definition SECTOR_GOLD : list string := ["FNV"; "AEM"].
Definition SECTOR_SILVER : list string := ["PAAS"; "HL"].
Definition SECTOR_PRECIOUS_MIXED : list string := ["WPM"].
Definition SECTOR_OIL_GAS : list string :=
  ["XOM"; "CVX"; "CNQ"; "SU"; "CVE"; "XLE"; "ENB"; "TRP"; "KMI"; "WMB";
   "OKE"; "VLO"; "PSX"; "MPC"; "DINO"; "COP"; "DVN"; "OXY"].
Definition SECTOR_EX_US_VALUE : list string := ["AVDV"; "DFIV"; "IVAL"].

(** The five sectors that [apply_constraints] caps, in the order of the
    source. *)
Definition capped_sectors : list (list string) :=
  [SECTOR_GOLD; SECTOR_SILVER; SECTOR_PRECIOUS_MIXED; SECTOR_OIL_GAS;
   SECTOR_EX_US_VALUE].

(** *** fetch_total_return_index (lines 92-122) *)

(** [pd.concat] raises a ValueError on an empty list. *)
Definition fetch_total_return_index
  (history : string -> string -> history_outcome)
  (tickers : list string) (period : string) : outcome Frame :=
  match fetch_columns history period tickers [] with
  | Returned [] => Raised "No objects to concatenate"
  | Returned dfs => Returned (concat_dropna dfs)
  | Raised e => Raised e
  | NonFinite => NonFinite
  end.

(** *** calculate_returns, calculate_momentum (lines 125-134) *)

Definition calculate_returns (prices : Frame) : option Frame :=
  pct_change_dropna prices.

(** [col.iloc[-1] / col.iloc[-lookback] - 1] on one column.  The outer
    [None] is the IndexError of [iloc]; the inner one a quotient that is not
    a number. *)
Definition momentum_of (lookback : nat) (col : list Qc) : option (option Qc) :=
  match iloc_int (-1) col, iloc_int (- Z.of_nat lookback) col with
  | Some last, Some first => Some (option_map (fun q => q - 1) (fdiv last first))
  | _, _ => None
  end.

(** [None] is the IndexError of [prices.iloc[-1]] on a frame without rows. *)
Definition calculate_momentum (prices : Frame) (lookback : nat)
  : option NSeries :=
  let lookback :=
    if (nrows prices <? lookback)%nat then nrows prices else lookback in
  if (nrows prices =? 0)%nat then None
  else per_column (momentum_of lookback) prices.

(** *** calculate_downside_volatility (lines 137-147) *)

Section DownsideVolatility.

Variable sqrt : Qc -> Qc.

Definition downside_volatility_of (col : list Qc) : option Qc :=
  match negative_returns col with
  | _ :: _ => annualized_negative_std sqrt col
  | [] => Some (Q2Qc (1 # 10000))        (* Avoid division by zero *)
  end.

Definition calculate_downside_volatility (returns : Frame) : NSeries :=
  map (fun kc => (fst kc, downside_volatility_of (snd kc))) returns.

End DownsideVolatility.

(** *** calculate_drawdown_metrics (lines 150-219) *)

Record drawdown_metrics := {
  max_drawdown : Qc;
  max_dd_duration_days : nat;
  avg_dd_duration_days : Qc;
  current_drawdown : Qc;
  worst_rolling_3m_dd : Qc
}.

(** [(price - running_max) / running_max]; [None] when a running maximum is
    zero and an entry is NaN or an infinity. *)
Definition drawdown_series (price : list Qc) : option (list Qc) :=
  sequence (map (fun pm => fdiv (fst pm - snd pm) (snd pm))
                (combine price (cummax price))).

(** The body of [for i, (date, is_dd) in enumerate(in_drawdown.items())],
    on the state [(current_period_start, drawdown_periods)]. *)
Definition period_step (st : option nat * list nat) (x : nat * bool)
  : option nat * list nat :=
  let '(current_period_start, drawdown_periods) := st in
  let '(i, is_dd) := x in
  match is_dd, current_period_start with
  | true, None => (Some i, drawdown_periods)
  | false, Some s => (None, (drawdown_periods ++ [(i - s)%nat])%list)
  | _, _ => st
  end.

Definition drawdown_periods (in_drawdown : list bool) : list nat :=
  let '(current_period_start, periods) :=
    fold_left period_step
      (combine (seq 0 (List.length in_drawdown)) in_drawdown) (None, []) in
  match current_period_start with
  | Some s => (periods ++ [(List.length in_drawdown - s)%nat])%list
  | None => periods
  end.

(** [price.iloc[i-window:i]]. *)
Definition window_prices (window i : nat) (price : list Qc) : list Qc :=
  firstn window (skipn (i - window)%nat price).

(** The metrics of one ticker.  [None]: the price series is empty
    ([drawdown.iloc[-1]] raises), or some drawdown is not a number. *)
Definition drawdown_metrics_of (price : list Qc) : option drawdown_metrics :=
  drawdown <- drawdown_series price ;;
  max_dd <- series_min drawdown ;;
  current_dd <- iloc_int (-1) drawdown ;;
  let in_drawdown := map (fun d => Qc_ltb d 0) drawdown in
  let periods := drawdown_periods in_drawdown in
  let max_dd_duration :=
    match periods with [] => O | _ :: _ => list_max periods end in
  let avg_dd_duration :=
    match periods with
    | [] => 0
    | _ :: _ => mean (map (fun d => qz (Z.of_nat d)) periods)
    end in
  let window := 63%nat in
  rolling_3m_dd <-
    sequence
      (map (fun i =>
              window_dd <- drawdown_series (window_prices window i price) ;;
              series_min window_dd)
           (seq window (List.length price - window)%nat)) ;;
  let worst_rolling_3m_dd :=
    match rolling_3m_dd with
    | [] => max_dd
    | x :: l => qmin_list x l
    end in
  Some {| max_drawdown := max_dd;
          max_dd_duration_days := max_dd_duration;
          avg_dd_duration_days := avg_dd_duration;
          current_drawdown := current_dd;
          worst_rolling_3m_dd := worst_rolling_3m_dd |}.

Definition calculate_drawdown_metrics (prices : Frame)
  : option (list (string * drawdown_metrics)) :=
  per_column drawdown_metrics_of prices.

Section CombinedScore.

Variable sqrt : Qc -> Qc.

(** *** calculate_combined_score (lines 222-237) *)

(** [a / b] on two Series: pandas aligns the operands on their labels; a
    label missing on one side gives NaN. *)
Definition align_div (a b : NSeries) : NSeries :=
  (map (fun kv => (fst kv, ndiv (snd kv) (nloc (fst kv) b))) a
   ++ map (fun kv => (fst kv, None))
        (filter (fun kv => negb (existsb (String.eqb (fst kv)) (map fst a))) b))%list.

(** [0.5 * mom_3m + 0.5 * mom_6m]; both Series have the columns of [prices]
    as index. *)
Definition combine_momentum (mom_3m mom_6m : NSeries) : NSeries :=
  map (fun kv =>
         (fst kv,
          nlift2 Qcplus
            (option_map (Qcmult (Q2Qc (1 # 2))) (snd kv))
            (option_map (Qcmult (Q2Qc (1 # 2))) (nloc (fst kv) mom_6m))))
      mom_3m.

Record combined_score := {
  score : NSeries;
  mom_3m : NSeries;
  mom_6m : NSeries;
  downside_vol : NSeries
}.

Definition calculate_combined_score (prices returns : Frame)
  : option combined_score :=
  match calculate_momentum prices LOOKBACK_3M,
        calculate_momentum prices LOOKBACK_6M with
  | Some m3, Some m6 =>
      let dv := calculate_downside_volatility sqrt returns in
      let combined_momentum := combine_momentum m3 m6 in
      Some {| score := align_div combined_momentum dv;
              mom_3m := m3; mom_6m := m6; downside_vol := dv |}
  | _, _ => None
  end.

End CombinedScore.

(** *** apply_momentum_filter, calculate_sortino_weights (lines 240-252) *)

Definition apply_momentum_filter (momentum : Series) : Series :=
  filter (fun kv => Qc_ltb 0 (snd kv)) momentum.

(** The scores come from [calculate_combined_score]; a score is an infinity
    when the downside volatility is 0 and NaN when it is NaN.  [sortino > 0]
    is false on NaN; the sum of the positive scores is an infinity when one
    of them is, and then a finite score gets the weight 0 and the infinite
    one NaN. *)
Definition calculate_sortino_weights (sortino : XSeries) : XSeries :=
  let positive_sortino := filter (fun kv => xlt (Num 0) (snd kv)) sortino in
  match positive_sortino with
  | [] => []
  | _ :: _ =>
      let total := pd_sum (xvalues positive_sortino) in
      map (fun kv => (fst kv, xdiv (snd kv) total)) positive_sortino
  end.

(** *** apply_constraints (lines 255-342) *)

Section ApplyConstraints.

Variable total_capital : Qc.
Variables min_amount max_amount sector_cap_amount : Qc.

(** Step 1, one label: [if 0 < allocation[t] < min_amount: allocation[t] = 0]. *)
Definition below_min (v : xnum) : bool :=
  xlt (Num 0) v && xlt v (Num min_amount).

Definition zero_below_min (a : XSeries) : XSeries * bool :=
  (map (fun kv => if below_min (snd kv) then (fst kv, Num 0) else kv) a,
   existsb (fun kv => below_min (snd kv)) a).

(** Step 2, one label: [if allocation[t] > max_amount: allocation[t] = max_amount]. *)
Definition above_max (v : xnum) : bool := xlt (Num max_amount) v.

Definition cap_above_max (a : XSeries) : XSeries * bool :=
  (map (fun kv => if above_max (snd kv) then (fst kv, Num max_amount) else kv) a,
   existsb (fun kv => above_max (snd kv)) a).

(** The tickers of a sector that the allocation has, and
    [sum(allocation[t] for t in SECTOR if t in allocation.index)]. *)
Definition sector_present (sector : list string) (a : XSeries) : list string :=
  filter (fun t => xin_index t a) sector.

Definition sector_total (sector : list string) (a : XSeries) : xnum :=
  py_sum (map (fun t => xloc t a) (sector_present sector a)).

(** [for t in SECTOR: if t in allocation.index: allocation[t] *= scale_factor]. *)
Definition scale_sector (sector : list string) (f : xnum) (a : XSeries)
  : XSeries :=
  fold_left
    (fun acc t =>
       if xin_index t acc then xset_loc t (fun v => xmul v f) acc else acc)
    sector a.

(** Step 3, one sector.  The quotient is taken only when the total exceeds
    the cap amount.  The total of a sector without a ticker in the index is
    the int 0 that [sum] starts from; it exceeds a negative cap amount, and
    the quotient of the float [sector_cap_amount] by the int 0 raises
    ZeroDivisionError.  Any other total is a NumPy double. *)
Definition cap_sector (sector : list string) (a : XSeries)
  : outcome (XSeries * bool) :=
  let total := sector_total sector a in
  if xlt (Num sector_cap_amount) total
  then match sector_present sector a with
       | [] => Raised "ZeroDivisionError"
       | _ :: _ =>
           Returned (scale_sector sector (xdiv (Num sector_cap_amount) total) a,
                     true)
       end
  else Returned (a, false).

Fixpoint cap_sectors (sectors : list (list string)) (a : XSeries)
  (changed : bool) : outcome (XSeries * bool) :=
  match sectors with
  | [] => Returned (a, changed)
  | sector :: sectors' =>
      match cap_sector sector a with
      | Returned (a', ch) => cap_sectors sectors' a' (changed || ch)
      | Raised e => Raised e
      | NonFinite => NonFinite
      end
  end.

(** Step 4.  A total of zero makes the quotient an infinity, and the product
    turns a position of 0 into NaN. *)
Definition renormalize (a : XSeries) : XSeries * bool :=
  let current_total := pd_sum (xvalues a) in
  if xlt (Num 1) (xabs (xsub current_total (Num total_capital)))
  then (map (fun kv =>
               (fst kv, xmul (snd kv) (xdiv (Num total_capital) current_total)))
            a,
        true)
  else (a, false).

(** One pass of the [for iteration in range(100)] body: the allocation after
    the pass and the flag [changed]. *)
Definition constraint_pass (a : XSeries) : outcome (XSeries * bool) :=
  let '(a1, c1) := zero_below_min a in
  let '(a2, c2) := cap_above_max a1 in
  match cap_sectors capped_sectors a2 false with
  | Returned (a3, c3) =>
      let '(a4, c4) := renormalize a3 in
      Returned (a4, c1 || c2 || c3 || c4)
  | Raised e => Raised e
  | NonFinite => NonFinite
  end.

(** The result of the loop together with what the loop did. *)
Record loop_exit := {
  exit_allocation : XSeries;
  passes_run : nat;          (* number of passes executed *)
  converged : bool           (* left through [break], not through the bound *)
}.

(** [for iteration in range(n): ...; if not changed: break], having already
    run [done] passes. *)
Fixpoint constraint_loop (n done : nat) (a : XSeries) : outcome loop_exit :=
  match n with
  | O => Returned {| exit_allocation := a; passes_run := done;
                     converged := false |}
  | S n' =>
      match constraint_pass a with
      | Returned (a', true) => constraint_loop n' (S done) a'
      | Returned (a', false) =>
          Returned {| exit_allocation := a'; passes_run := S done;
                      converged := true |}
      | Raised e => Raised e
      | NonFinite => NonFinite
      end
  end.

End ApplyConstraints.

(** [weights * TOTAL_CAPITAL] and the three amounts, then the loop. *)
Definition apply_constraints_loop (total_capital : Qc)
  (weights : XSeries) (min_allocation_pct max_allocation_pct : Qc)
  : outcome loop_exit :=
  let allocation :=
    map (fun kv => (fst kv, xmul (snd kv) (Num total_capital))) weights in
  let min_amount := total_capital * min_allocation_pct in
  let max_amount := total_capital * max_allocation_pct in
  let sector_cap_amount := total_capital * SECTOR_CAP_PCT in
  constraint_loop total_capital min_amount max_amount sector_cap_amount
    100 0 allocation.

(** [apply_constraints(weights, prices, min_allocation_pct, max_allocation_pct)]
    with the global TOTAL_CAPITAL at [total_capital]; the argument [prices]
    is not used by the source.  The Series that is returned may hold NaN or
    infinities; the one exception that can escape is the ZeroDivisionError
    of [cap_sector]. *)
Definition apply_constraints (total_capital : Qc)
  (weights : XSeries) (min_allocation_pct max_allocation_pct : Qc)
  : outcome XSeries :=
  match apply_constraints_loop total_capital weights
          min_allocation_pct max_allocation_pct with
  | Returned e => Returned (exit_allocation e)
  | Raised e => Raised e
  | NonFinite => NonFinite
  end.

End UsPortfolioAllocation.

(** ** The pass of apply_constraints on a Series of numbers

    The four steps once more, on a Series of rationals: the form in which
    the theorems follow the runs of [apply_constraints] that stay within the
    numbers.  With a sector cap amount that is not negative a pass on
    numbers has one way out of the numbers, the renormalisation that divides
    by a zero total; [None] stands for it.  The lemmas
    [constraint_pass_numbers] and [constraint_loop_numbers] relate these
    definitions to the ones of the embedding above. *)

Module OnNumbers.

Section Pass.

Variable total_capital : Qc.
Variables min_amount max_amount sector_cap_amount : Qc.

Definition below_min (v : Qc) : bool := Qc_ltb 0 v && Qc_ltb v min_amount.

Definition zero_below_min (a : Series) : Series * bool :=
  (map (fun kv => if below_min (snd kv) then (fst kv, 0) else kv) a,
   existsb (fun kv => below_min (snd kv)) a).

Definition above_max (v : Qc) : bool := Qc_ltb max_amount v.

Definition cap_above_max (a : Series) : Series * bool :=
  (map (fun kv => if above_max (snd kv) then (fst kv, max_amount) else kv) a,
   existsb (fun kv => above_max (snd kv)) a).

(** The dollars that an allocation has in the tickers of a sector. *)
Definition sector_total (sector : list string) (a : Series) : Qc :=
  qsum (map (fun t => loc t a) (filter (fun t => in_index t a) sector)).

Definition scale_sector (sector : list string) (f : Qc) (a : Series) : Series :=
  fold_left
    (fun acc t => if in_index t acc then set_loc t (fun v => v * f) acc else acc)
    sector a.

Definition cap_sector (sector : list string) (a : Series) : Series * bool :=
  let total := sector_total sector a in
  if Qc_ltb sector_cap_amount total
  then (scale_sector sector (sector_cap_amount / total) a, true)
  else (a, false).

Definition cap_sectors (sectors : list (list string)) (a : Series)
  : Series * bool :=
  fold_left
    (fun st sector =>
       let '(a', ch) := cap_sector sector (fst st) in (a', snd st || ch))
    sectors (a, false).

(** [None]: the total is zero and the Series is not empty. *)
Definition renormalize (a : Series) : option (Series * bool) :=
  let current_total := qsum (values a) in
  if Qc_ltb 1 (qabs (current_total - total_capital))
  then match scale_by_quotient total_capital current_total a with
       | Some a' => Some (a', true)
       | None => None
       end
  else Some (a, false).

Definition constraint_pass (a : Series) : option (Series * bool) :=
  let '(a1, c1) := zero_below_min a in
  let '(a2, c2) := cap_above_max a1 in
  let '(a3, c3) := cap_sectors UsPortfolioAllocation.capped_sectors a2 in
  match renormalize a3 with
  | Some (a4, c4) => Some (a4, c1 || c2 || c3 || c4)
  | None => None
  end.

Record loop_exit := {
  exit_allocation : Series;
  passes_run : nat;
  converged : bool
}.

Fixpoint constraint_loop (n done : nat) (a : Series) : option loop_exit :=
  match n with
  | O => Some {| exit_allocation := a; passes_run := done; converged := false |}
  | S n' =>
      match constraint_pass a with
      | None => None
      | Some (a', true) => constraint_loop n' (S done) a'
      | Some (a', false) =>
          Some {| exit_allocation := a'; passes_run := S done;
                  converged := true |}
      end
  end.

End Pass.

End OnNumbers.


Module CanadianNyseOnly.

(** fetch_total_return_index (canadian_nyse_only.py, lines 42-78). *)
Definition fetch_total_return_index
  (history : string -> string -> history_outcome)
  (tickers : list string) (period : string) : outcome Frame :=
  match fetch_columns_try history period tickers [] with
  | [] => Returned []                         (* pd.DataFrame() *)
  | dfs => Returned (concat_dropna dfs)
  end.

End CanadianNyseOnly.

Module Allocate.

(** *** fetch (allocate.py, lines 23-33) *)

(** One entry of [(d / c.shift(1)).fillna(0)]: the first row has no
    predecessor, its quotient is NaN and [fillna] makes it 0; so does 0/0;
    a non-zero dividend over a zero close is an infinity ([None]), which
    [fillna] leaves. *)
Definition shifted_yield (prev : option Qc) (d : Qc) : option Qc :=
  match prev with
  | None => Some 0
  | Some c =>
      if Qc_eqb c 0 then (if Qc_eqb d 0 then Some 0 else None)
      else Some (d / c)
  end.

(** [c * (1 + yields.cumsum())], row by row; [running] is the cumulative
    sum so far. *)
Fixpoint total_return_sum_from (prev : option Qc) (running : Qc)
  (rows : History) : option (list Qc) :=
  match rows with
  | [] => Some []
  | r :: rows' =>
      y <- shifted_yield prev (Dividends r) ;;
      rest <- total_return_sum_from (Some (Close r)) (running + y) rows' ;;
      Some (Close r * (1 + (running + y)) :: rest)
  end.

Definition total_return_sum (hist : History) : option (list Qc) :=
  total_return_sum_from None 0 hist.

Fixpoint fetch_columns (history : string -> string -> history_outcome)
  (period : string) (tickers : list string)
  (dfs : list (string * DatedSeries)) : outcome (list (string * DatedSeries)) :=
  match tickers with
  | [] => Returned dfs
  | t :: rest =>
      match history t period with
      | HistoryRaises e => Raised e
      | HistoryIs [] => fetch_columns history period rest dfs
      | HistoryIs h =>
          match total_return_sum h with
          | Some tr =>
              fetch_columns history period rest (dfs ++ [(t, dated h tr)])%list
          | None =>
              (* the column holds an infinity; the loop goes on *)
              match fetch_columns history period rest dfs with
              | Raised e => Raised e
              | _ => NonFinite
              end
          end
      end
  end.

Definition fetch (history : string -> string -> history_outcome)
  (tickers : list string) (period : string) : outcome Frame :=
  match fetch_columns history period tickers [] with
  | Returned [] => Raised "No objects to concatenate"
  | Returned dfs => Returned (concat_dropna dfs)
  | Raised e => Raised e
  | NonFinite => NonFinite
  end.

(** *** allocate (allocate.py, lines 36-72) *)

(** [prices.iloc[-a] / prices.iloc[-b] - 1] on one column. *)
Definition window_return (a b : Z) (col : list Qc) : option (option Qc) :=
  match iloc_int (- a) col, iloc_int (- b) col with
  | Some x, Some y => Some (option_map (fun q => q - 1) (fdiv x y))
  | _, _ => None
  end.

(** One row of the [scores] frame. *)
Record score_row := {
  s_12_1 : Qc;
  s_6_1 : Qc;
  s_12w_2w : Qc;
  s_avg : Qc;
  s_score : Qc
}.

(** The statistics of one ticker: momenta, their average, the downside
    volatility and the score.  [None]: one of them is not a number. *)
Record ticker_stats := {
  mom_12_1 : Qc;
  mom_6_1 : Qc;
  mom_12w_2w : Qc;
  mom_avg : Qc;
  dvol : Qc;
  score : Qc
}.

Section WithSqrt.

Variable sqrt : Qc -> Qc.

Definition stats_of (price ret : list Qc) : option (option ticker_stats) :=
  match window_return 21 252 price, window_return 21 126 price,
        window_return 10 60 price with
  | Some m12, Some m6, Some m12w =>
      Some (m12 <- m12 ;;
            m6 <- m6 ;;
            m12w <- m12w ;;
            let avg := (m12 + m6 + m12w) / qz 3 in
            dv <- annualized_negative_std sqrt ret ;;
            sc <- fdiv avg dv ;;
            Some {| mom_12_1 := m12; mom_6_1 := m6; mom_12w_2w := m12w;
                    mom_avg := avg; dvol := dv; score := sc |})
  | _, _, _ => None
  end.

(** The statistics of every column; the frame of returns has the columns
    of the frame of prices. *)
Fixpoint stats_of_frame (prices ret : Frame)
  : option (option (list (string * ticker_stats))) :=
  match prices, ret with
  | (t, price) :: prices', (_, r) :: ret' =>
      match stats_of price r, stats_of_frame prices' ret' with
      | Some st, Some rest =>
          Some (st <- st ;; rest <- rest ;; Some ((t, st) :: rest))
      | _, _ => None
      end
  | _, _ => Some (Some [])
  end.

End WithSqrt.

(** One pass of [for _ in range(10)]: floor, cap, renormalise. *)
Definition allocation_pass (capital min_w max_w : Qc) (alloc : Series)
  : option Series :=
  let floored :=
    map (fun kv => if Qc_ltb (snd kv) (capital * min_w)
                   then (fst kv, capital * min_w) else kv) alloc in
  let capped :=
    map (fun kv => if Qc_ltb (capital * max_w) (snd kv)
                   then (fst kv, capital * max_w) else kv) floored in
  scale_by_quotient capital (qsum (values capped)) capped.

Fixpoint allocation_loop (n : nat) (capital min_w max_w : Qc) (alloc : Series)
  : option Series :=
  match n with
  | O => Some alloc
  | S n' =>
      alloc' <- allocation_pass capital min_w max_w alloc ;;
      allocation_loop n' capital min_w max_w alloc'
  end.

(** [mom_12w_2w[top_tickers].clip(lower=0)]. *)
Definition clipped_momentum (stats : list (string * ticker_stats))
  (top_tickers : list string) : Series :=
  map (fun t =>
         (t, match assoc t stats with
             | Some st => qmax 0 (mom_12w_2w st)
             | None => 0
             end))
      top_tickers.

(** The allocation before the final rounding.  [Raised]: the frame has
    fewer than 252 rows and [prices.iloc[-252]] does not exist.
    [NonFinite]: a statistic or a position is not a number. *)
Definition allocate_unrounded (sqrt : Qc -> Qc) (prices : Frame)
  (capital top_n : Z) (min_w max_w : Qc)
  : outcome (Series * list (string * ticker_stats)) :=
  if (nrows prices <? 252)%nat then Raised "IndexError"
  else
    match pct_change_dropna prices with
    | None => NonFinite
    | Some ret =>
        match stats_of_frame sqrt prices ret with
        | None => Raised "IndexError"
        | Some None => NonFinite
        | Some (Some stats) =>
            let score := map (fun kv => (fst kv, score (snd kv))) stats in
            let top_tickers := index (nlargest top_n score) in
            let alloc_mom := clipped_momentum stats top_tickers in
            match
              shares <- series_div alloc_mom (qsum (values alloc_mom)) ;;
              allocation_loop 10 (qz capital) min_w max_w
                (scale (qz capital) shares)
            with
            | Some alloc => Returned (alloc, stats)
            | None => NonFinite
            end
        end
    end.

(** [(alloc / 1000).round() * 1000]. *)
Definition round_to_thousand (alloc : Series) : Series :=
  map (fun kv => (fst kv, qz (round_half_even (snd kv / qz 1000)) * qz 1000))
      alloc.

Definition scores_frame (stats : list (string * ticker_stats))
  : list (string * score_row) :=
  map (fun kv =>
         let st := snd kv in
         (fst kv,
          {| s_12_1 := mom_12_1 st * qz 100;
             s_6_1 := mom_6_1 st * qz 100;
             s_12w_2w := mom_12w_2w st * qz 100;
             s_avg := mom_avg st * qz 100;
             s_score := score st |}))
      stats.

(** [allocate], from the frame that [fetch(TICKERS)] returned. *)
Definition allocate_from (sqrt : Qc -> Qc) (prices : Frame)
  (capital top_n : Z) (min_w max_w : Qc)
  : outcome (Series * list (string * score_row)) :=
  match allocate_unrounded sqrt prices capital top_n min_w max_w with
  | Returned (alloc, stats) =>
      Returned (round_to_thousand alloc, scores_frame stats)
  | Raised e => Raised e
  | NonFinite => NonFinite
  end.

Definition TICKERS : list string :=
  ["PPLT"; "WPM"; "FNV"; "COPX"; "VALE";
   "XOM"; "CVX"; "SU"; "CNQ"; "VLO"; "MPC"; "PSX"; "OIH"; "XLE"; "XOP";
   "FCG"; "LNG"; "AR"; "EQT"; "URNM"; "URA"; "NLR"; "AVDV"; "ILF"; "IMTM"].

Definition allocate (history : string -> string -> history_outcome)
  (sqrt : Qc -> Qc) (capital top_n : Z) (min_w max_w : Qc)
  : outcome (Series * list (string * score_row)) :=
  match fetch history TICKERS "3y" with
  | Returned prices => allocate_from sqrt prices capital top_n min_w max_w
  | Raised e => Raised e
  | NonFinite => NonFinite
  end.

End Allocate.

Module FetchMfNav.

(** *** fetch_mf_nav.py *)

(** A decoded JSON value, which is also what the Python code handles:
    [JNull] is [None]. *)
#[local] Unset Elimination Schemes.

Inductive json :=
| JNull
| JBool (b : bool)
| JNum (q : Qc)
| JStr (s : string)
| JList (l : list json)
| JObj (fields : list (string * json)).

#[local] Set Elimination Schemes.

(** [d.get(key, default)] on a dict. *)
Definition dict_get (key : string) (default : json) (d : list (string * json))
  : json :=
  match assoc key d with
  | Some v => v
  | None => default
  end.

(** The body that mfapi.in answers with: an object whose ["meta"], when
    present, is an object and whose ["data"], when present, is a list of
    objects ([{"date": ..., "nav": ...}], latest first). *)
Record mf_body := {
  meta : option (list (string * json));
  data : option (list (list (string * json)))
}.

(** What [httpx.get(...)], [raise_for_status()] and [resp.json()] do
    together: an exception (transport error, HTTP status error, invalid
    JSON) or the decoded body. *)
Inductive response :=
| ResponseRaises (e : string)
| ResponseJson (body : mf_body).

Record latest_nav := {
  scheme_code : Z;
  scheme_name : json;
  fund_house : json;
  nav : option Qc;           (* [None] is Python's None *)
  date : json
}.

Section WithService.

(** The service, as it answers at the time of the call. *)
Variable http_get : Z -> response.

(** Python's [float(s)] on a string: [None] is the ValueError. *)
Variable float_of_string : string -> option Qc.

(** [get_mf_nav] (lines 16-20). *)
Definition get_mf_nav (scheme_code : Z) : outcome mf_body :=
  match http_get scheme_code with
  | ResponseRaises e => Raised e
  | ResponseJson body => Returned body
  end.

(** [get_mf_history] (lines 23-26). *)
Definition get_mf_history (scheme_code : Z)
  : outcome (list (list (string * json))) :=
  match get_mf_nav scheme_code with
  | Returned body =>
      Returned (match data body with Some l => l | None => [] end)
  | Raised e => Raised e
  | NonFinite => NonFinite
  end.

(** Python's [float(x)]. *)
Definition float (x : json) : outcome Qc :=
  match x with
  | JNum q => Returned q
  | JBool b => Returned (if b then 1 else 0)
  | JStr s =>
      match float_of_string s with
      | Some q => Returned q
      | None => Raised "ValueError"
      end
  | JNull | JList _ | JObj _ => Raised "TypeError"
  end.

(** [get_latest_nav] (lines 29-41). *)
Definition get_latest_nav (scheme_code : Z) : outcome latest_nav :=
  match get_mf_nav scheme_code with
  | Raised e => Raised e
  | NonFinite => NonFinite
  | Returned body =>
      let meta := match meta body with Some m => m | None => [] end in
      let nav_data := match data body with Some l => l | None => [] end in
      let latest := match nav_data with x :: _ => x | [] => [] end in
      let result (nav : option Qc) :=
        Returned {| scheme_code := scheme_code;
                    scheme_name := dict_get "scheme_name" JNull meta;
                    fund_house := dict_get "fund_house" JNull meta;
                    nav := nav;
                    date := dict_get "date" JNull latest |} in
      match latest with
      | [] => result None
      | _ :: _ =>
          match float (dict_get "nav" (JNum 0) latest) with
          | Returned q => result (Some q)
          | Raised e => Raised e
          | NonFinite => NonFinite
          end
      end
  end.

End WithService.

End FetchMfNav.

(** ** The Sortino-like score as the specification words it

    Written from the sentence of the specification, for comparison with
    [calculate_combined_score]: momentum is
    [prices.iloc[-1] / prices.iloc[-lookback] - 1] for the lookbacks 63 and
    126, downside volatility is the standard deviation of the strictly
    negative daily returns times [sqrt(252)], and the score is
    [(0.5 * mom_3m + 0.5 * mom_6m) / downside_vol].  The outer [None] is the
    IndexError of [iloc], an inner [None] a value that is not a number. *)

Module ClaimedScore.

Definition claimed_momentum (lookback : nat) (prices : list Qc)
  : option (option Qc) :=
  match iloc_int (-1) prices, iloc_int (- Z.of_nat lookback) prices with
  | Some last, Some first => Some (option_map (fun q => q - 1) (fdiv last first))
  | _, _ => None
  end.

Definition claimed_downside_volatility (sqrt : Qc -> Qc) (returns : list Qc)
  : option Qc :=
  option_map (fun s => s * sqrt (qz 252))
             (std sqrt (filter (fun r => Qc_ltb r 0) returns)).

Definition claimed_score (sqrt : Qc -> Qc) (prices returns : list Qc)
  : option (option Qc) :=
  match claimed_momentum 63 prices, claimed_momentum 126 prices with
  | Some m3, Some m6 =>
      Some (ndiv (nlift2 Qcplus
                    (option_map (Qcmult (Q2Qc (1 # 2))) m3)
                    (option_map (Qcmult (Q2Qc (1 # 2))) m6))
                 (claimed_downside_volatility sqrt returns))
  | _, _ => None
  end.

End ClaimedScore.

(** ** The allocation of allocate.py as the specification words it

    Written from the sentence of the specification, for comparison with
    [allocate]: a momentum is the price some rows before the last over the
    price more rows before the last, minus 1 (rows 21 and 252 for 12-1,
    21 and 126 for 6-1, 10 and 60 for 12w-2w, the last row counting as 1);
    the score is the average of the three over the annualised downside
    volatility; the selected tickers get the capital in proportion to their
    12w-2w momentum clipped at 0; a pass of the min/max loop brings every
    position into the bounds and rescales all of them to the capital.  The
    outer [None] is the IndexError of a frame with too few rows, an inner
    [None] a value that is not a number. *)

Module ClaimedAllocation.

Definition claimed_momentum (recent far : nat) (prices : list Qc)
  : option (option Qc) :=
  match nth_error (rev prices) (recent - 1),
        nth_error (rev prices) (far - 1) with
  | Some x, Some y => Some (option_map (fun q => q - 1) (fdiv x y))
  | _, _ => None
  end.

Definition claimed_score (sqrt : Qc -> Qc) (prices returns : list Qc)
  : option (option Qc) :=
  match claimed_momentum 21 252 prices, claimed_momentum 21 126 prices,
        claimed_momentum 10 60 prices with
  | Some m_12_1, Some m_6_1, Some m_12w_2w =>
      Some (ndiv (option_map (fun s => s / qz 3)
                    (nlift2 Qcplus (nlift2 Qcplus m_12_1 m_6_1) m_12w_2w))
                 (ClaimedScore.claimed_downside_volatility sqrt returns))
  | _, _, _ => None
  end.

(** Per ticker, the score and the 12w-2w momentum; the frame of returns has
    the columns of the frame of prices. *)
Definition claimed_row (sqrt : Qc -> Qc) (prices returns : list Qc)
  : option (option (Qc * Qc)) :=
  match claimed_score sqrt prices returns, claimed_momentum 10 60 prices with
  | Some s, Some m => Some (s' <- s ;; m' <- m ;; Some (s', m'))
  | _, _ => None
  end.

Fixpoint claimed_table (sqrt : Qc -> Qc) (prices returns : Frame)
  : option (option (list (string * (Qc * Qc)))) :=
  match prices, returns with
  | (t, price) :: prices', (_, r) :: returns' =>
      match claimed_row sqrt price r, claimed_table sqrt prices' returns' with
      | Some row, Some rest =>
          Some (row <- row ;; rest <- rest ;; Some ((t, row) :: rest))
      | _, _ => None
      end
  | _, _ => Some (Some [])
  end.

(** The capital in proportion to the momenta clipped at 0.  [None]: the
    clipped momenta sum to 0. *)
Definition claimed_weights (capital : Qc) (momentum : Series)
  : option Series :=
  let clipped := map (fun kv => (fst kv, qmax 0 (snd kv))) momentum in
  let total := qsum (values clipped) in
  match clipped with
  | [] => Some []
  | _ :: _ =>
      if Qc_eqb total 0 then None
      else Some (map (fun kv => (fst kv, snd kv / total * capital)) clipped)
  end.

(** A position brought into the bounds: up to the minimum, then down to the
    maximum. *)
Definition clamp (lo hi v : Qc) : Qc := qmin hi (qmax lo v).

Definition claimed_pass (capital lo hi : Qc) (alloc : Series)
  : option Series :=
  let clamped := map (fun kv => (fst kv, clamp lo hi (snd kv))) alloc in
  scale_by_quotient capital (qsum (values clamped)) clamped.

Fixpoint claimed_passes (n : nat) (capital lo hi : Qc) (alloc : Series)
  : option Series :=
  match n with
  | O => Some alloc
  | S n' =>
      alloc' <- claimed_pass capital lo hi alloc ;;
      claimed_passes n' capital lo hi alloc'
  end.

End ClaimedAllocation.

(** ** Sample inputs used by the examples below *)

Module Samples.

(** The whole weight on one ticker of the mixed precious-metals sector. *)
Definition w_single_sector : Series := [("WPM", 1)].

(** Every ticker of the five capped sectors, with the same weight 1/26. *)
Definition w_spread_thin : Series :=
  map (fun t => (t, Q2Qc (1 # 26)))
      (List.concat UsPortfolioAllocation.capped_sectors).

(** Scores of mixed sign. *)
Definition scores_mixed : Series :=
  [("XOM", qz 3); ("MSTR", - qz 1); ("GLD", qz 1); ("CVX", 0)].

(** A price that halves twice, and its two daily returns of -50%. *)
Definition prices_halving : Frame := [("XOM", [qz 4; qz 2; qz 1])].
Definition returns_halving : Frame :=
  [("XOM", [- Q2Qc (1 # 2); - Q2Qc (1 # 2)])].

(** Two rows of a rising price, and its single daily return. *)
Definition prices_rising : Frame := [("XOM", [qz 100; qz 110])].
Definition returns_rising : Frame := [("XOM", [Q2Qc (1 # 10)])].

(** Half a year of prices (126 rows): two losses, a recovery, a flat
    stretch and a last-day gain; and the daily returns of that column. *)
Definition prices_half_year : Frame :=
  [("XOM", [qz 100; qz 99; qz 97] ++ repeat (qz 100) 122 ++ [qz 110])%list].

Definition returns_half_year : Frame :=
  match UsPortfolioAllocation.calculate_returns prices_half_year with
  | Some r => r
  | None => []
  end.

(** A week of positive prices with two dips. *)
Definition prices_week : Frame :=
  [("XOM", [qz 100; qz 90; qz 95; qz 100; qz 80; qz 120; qz 110])].

(** Three days at a close of 100 with a dividend of 1 on the second and on
    the third day; the same with the second dividend only; and without
    dividends. *)
Definition hist_two_dividends : History :=
  [ {| Date := 1; Close := qz 100; Dividends := 0 |};
    {| Date := 2; Close := qz 100; Dividends := 1 |};
    {| Date := 3; Close := qz 100; Dividends := 1 |} ].

Definition hist_one_dividend : History :=
  [ {| Date := 1; Close := qz 100; Dividends := 0 |};
    {| Date := 2; Close := qz 100; Dividends := 1 |};
    {| Date := 3; Close := qz 100; Dividends := 0 |} ].

Definition hist_no_dividend : History :=
  [ {| Date := 1; Close := qz 100; Dividends := 0 |};
    {| Date := 2; Close := qz 101; Dividends := 0 |};
    {| Date := 3; Close := qz 99; Dividends := 0 |} ].

(** A provider that fails for ENB, has three days of CNQ and nothing for
    any other ticker. *)
Definition history_enb_down (ticker period : string) : history_outcome :=
  if String.eqb ticker "ENB" then HistoryRaises "HTTPError 404"
  else if String.eqb ticker "CNQ" then HistoryIs hist_no_dividend
  else HistoryIs [].

(** mfapi.in answering for an unknown scheme: empty meta, empty data. *)
Definition mfapi_unknown_scheme (scheme_code : Z) : FetchMfNav.response :=
  FetchMfNav.ResponseJson
    {| FetchMfNav.meta := Some []; FetchMfNav.data := Some [] |}.

(** A year of prices (252 rows) for two tickers: two losses, a recovery, a
    flat stretch, and a rise of 10% ten days before the end. *)
Definition year_column (unit : Qc) : list Qc :=
  ([qz 100 * unit; qz 99 * unit; qz 97 * unit]
   ++ repeat (qz 100 * unit) 239 ++ repeat (qz 110 * unit) 10)%list.

Definition prices_year : Frame :=
  [("XOM", year_column 1); ("CVX", year_column (qz 2))].

(** A provider with that year of XOM and CVX, without dividends, and
    nothing for any other ticker. *)
Definition year_history (unit : Qc) : History :=
  map (fun dc => {| Date := Z.of_nat (fst dc); Close := snd dc; Dividends := 0 |})
      (combine (seq 1 252) (year_column unit)).

Definition history_year (ticker period : string) : history_outcome :=
  if String.eqb ticker "XOM" then HistoryIs (year_history 1)
  else if String.eqb ticker "CVX" then HistoryIs (year_history (qz 2))
  else HistoryIs [].

(** The same year for three tickers, with the last ten rows at 110, at 101
    and at 95: a 12w-2w momentum of 10%, of 1% and of -5%. *)
Definition year_column_ending (last : Qc) : list Qc :=
  ([qz 100; qz 99; qz 97] ++ repeat (qz 100) 239 ++ repeat last 10)%list.

Definition year_history_ending (last : Qc) : History :=
  map (fun dc => {| Date := Z.of_nat (fst dc); Close := snd dc; Dividends := 0 |})
      (combine (seq 1 252) (year_column_ending last)).

Definition history_three (ticker period : string) : history_outcome :=
  if String.eqb ticker "XOM" then HistoryIs (year_history_ending (qz 110))
  else if String.eqb ticker "CVX" then HistoryIs (year_history_ending (qz 101))
  else if String.eqb ticker "VLO" then HistoryIs (year_history_ending (qz 95))
  else HistoryIs [].

End Samples.

(** A rational stand-in for the floating-point square root: the root
    rounded down to a fraction, exact on 0 and on the squares of integers.
    It serves to run the functions that take the root as a parameter. *)
Definition sqrt_approx (x : Qc) : Qc :=
  Q2Qc (Z.sqrt (Qnum (this x) * Z.pos (Qden (this x)) * 1000000)
        # (Qden (this x) * 1000)).

(** ** us_portfolio_allocation.py: rounded allocations and the weekly plan *)

Module UsPortfolioReport.

(** *** Module constants (us_portfolio_allocation.py, lines 67-70) *)

Definition BITCOIN_MONTHLY_DCA_PCT : Qc := Q2Qc (1 # 1000).
Definition DCA_WEEKS : Z := 12.
Definition ROUND_TO : Z := 100.

(** *** round_to_nearest (lines 390-394) *)

(** Python's [round] goes to the nearest integer, a tie to the even one.
    [None]: [multiple] is 0, the quotient is no number and [round] raises. *)
Definition round_to_nearest (value : Qc) (multiple : Z) : option Z :=
  if Qc_ltb value (qz 500)
  then Some (round_half_even (value / qz 100) * 100)%Z
  else if (multiple =? 0)%Z then None
       else Some (round_half_even (value / qz multiple) * multiple)%Z.

(** *** calculate_shares (lines 397-411) *)

(** One row of the frame [shares], which is indexed by ticker. *)
Record share_row := {
  Allocation_USD : Z;
  Price : Qc;
  Shares : Qc;
  Weight_Pct : Qc
}.

(** [Series.round(2)]: to the nearest hundredth, a tie to the even one. *)
Definition round2 (x : Qc) : Qc := qz (round_half_even (x * qz 100)) / qz 100.

(** [latest_prices[t]] for [latest_prices = prices.iloc[-1]]; [None] is the
    KeyError of a ticker that is no column of [prices]. *)
Definition latest_price (prices : Frame) (t : string) : option Qc :=
  col <- assoc t prices ;; iloc_int (-1) col.

(** [Raised]: [prices] has no row ([prices.iloc[-1]]), or a ticker of
    [allocation] is no column of [prices].  [NonFinite]: a price is zero or
    the rounded amounts total zero, and a quotient is NaN or an infinity. *)
Definition calculate_shares (allocation : Series) (prices : Frame)
  : outcome (list (string * share_row)) :=
  if (nrows prices =? 0)%nat then Raised "IndexError"
  else
    match sequence (map (fun kv => round_to_nearest (snd kv) 1000) allocation) with
    | None => Raised "OverflowError"
    | Some rounded_allocations =>
        match sequence (map (latest_price prices) (index allocation)) with
        | None => Raised "KeyError"
        | Some latest =>
            let total := fold_right Z.add 0%Z rounded_allocations in
            match
              sequence
                (map (fun tap =>
                        let '(t, a, p) := tap in
                        sh <- fdiv (qz a) p ;;
                        w <- fdiv (qz a) (qz total) ;;
                        Some (t, {| Allocation_USD := a; Price := p;
                                    Shares := sh;
                                    Weight_Pct := round2 (w * qz 100) |}))
                     (combine (combine (index allocation) rounded_allocations)
                              latest))
            with
            | Some rows => Returned rows
            | None => NonFinite
            end
        end
    end.

(** *** The weekly plan of [main] (lines 580-596) *)

(** [weekly = round_to_nearest(target / DCA_WEEKS, ROUND_TO)], the amount
    per week of a ticker whose target is positive. *)
Definition weekly (target : Z) : option Z :=
  round_to_nearest (qz target / qz DCA_WEEKS) ROUND_TO.

(** [mstr_weekly], the amount that MSTR gets per week when its combined
    momentum is not positive: a quarter of the monthly amount, rounded, and
    at least [ROUND_TO].  [total_capital] is the global that [main] rebinds
    to its option [--capital]. *)
Definition mstr_weekly (total_capital : Qc) : option Z :=
  let monthly_dca_amount := total_capital * BITCOIN_MONTHLY_DCA_PCT in
  w <- round_to_nearest (monthly_dca_amount / qz 4) ROUND_TO ;;
  Some (if (w <? ROUND_TO)%Z then ROUND_TO else w).

End UsPortfolioReport.

(** ** us_portfolio_allocation.py: the metrics of the portfolio *)

Module UsPortfolioMetrics.

Import UsPortfolioReport.

(** *** calculate_portfolio_metrics (us_portfolio_allocation.py, lines 345-387) *)

(** The entries of the dict that is returned when there is a position. *)
Record portfolio_metrics := {
  num_positions : nat;
  weighted_mom_3m : option Qc;
  weighted_mom_6m : option Qc;
  weighted_downside_vol : option Qc;
  weighted_score : option Qc;
  max_position_weight : Qc;
  top_3_concentration : Qc;
  portfolio_vol : option Qc;
  portfolio_downside_vol : option Qc
}.

(** The dict: [{"num_positions": 0}] alone, or every entry. *)
Inductive metrics_dict :=
| NumPositionsOnly
| AllMetrics (m : portfolio_metrics).

(** [t for t in shares.index if shares.loc[t, "Allocation_USD"] > 0], with
    the rows. *)
Definition active_rows (shares : list (string * share_row))
  : list (string * share_row) :=
  filter (fun ks => (0 <? Allocation_USD (snd ks))%Z) shares.

(** [shares.loc[active_tickers, "Weight_Pct"] / 100]. *)
Definition active_weights (shares : list (string * share_row)) : Series :=
  map (fun ks => (fst ks, Weight_Pct (snd ks) / qz 100)) (active_rows shares).

(** [sum(weights[t] * s[t] for t in active_tickers)].  The outer [None] is
    the KeyError of a ticker that [s] does not have, the inner one a sum
    that is NaN because an entry of [s] is. *)
Definition weighted_sum (weights : Series) (s : NSeries)
  : option (option Qc) :=
  terms <- sequence
             (map (fun tw =>
                     option_map (option_map (Qcmult (snd tw)))
                                (assoc (fst tw) s))
                  weights) ;;
  Some (option_map qsum (sequence terms)).

(** The sum of two Series over the same dates. *)
Definition series_add (a b : list Qc) : list Qc :=
  map (fun xy => fst xy + snd xy) (combine a b).

(** [sum(weights[t] * returns[t] for t in active_tickers)] for at least one
    ticker; [None] is the KeyError of a ticker that is no column. *)
Definition weighted_returns (weights : Series) (returns : Frame)
  : option (list Qc) :=
  cols <- sequence
            (map (fun tw =>
                    option_map (map (Qcmult (snd tw))) (assoc (fst tw) returns))
                 weights) ;;
  match cols with
  | [] => Some []
  | c :: cols' => Some (fold_left series_add cols' c)
  end.

(** [Series.max()] of a non-empty Series, given as head and tail. *)
Definition qmax_list (x : Qc) (l : list Qc) : Qc := fold_left qmax l x.

Definition calculate_portfolio_metrics (sqrt : Qc -> Qc)
  (shares : list (string * share_row)) (returns : Frame)
  (score mom_3m mom_6m downside_vol : NSeries) : outcome metrics_dict :=
  let weights := active_weights shares in
  match values weights with
  | [] => Returned NumPositionsOnly
  | w :: ws =>
      match weighted_sum weights mom_3m, weighted_sum weights mom_6m,
            weighted_sum weights downside_vol, weighted_sum weights score,
            weighted_returns weights returns with
      | Some m3, Some m6, Some dv, Some sc, Some portfolio_returns =>
          let num_positions := List.length weights in
          Returned
            (AllMetrics
               {| num_positions := num_positions;
                  weighted_mom_3m := m3;
                  weighted_mom_6m := m6;
                  weighted_downside_vol := dv;
                  weighted_score := sc;
                  max_position_weight := qmax_list w ws;
                  top_3_concentration :=
                    qsum (values
                            (nlargest (Z.min 3 (Z.of_nat num_positions)) weights));
                  portfolio_vol :=
                    option_map (fun s => s * sqrt (qz 252))
                               (std sqrt portfolio_returns);
                  portfolio_downside_vol :=
                    annualized_negative_std sqrt portfolio_returns |})
      | _, _, _, _, _ => Raised "KeyError"
      end
  end.

End UsPortfolioMetrics.

(** ** canadian_nyse_only.py and oil_gas_comprehensive.py: the metrics *)

Module CanadianNyseOnlyMetrics.

(** *** calculate_momentum (canadian_nyse_only.py, lines 86-90;
    oil_gas_comprehensive.py, lines 165-169) *)

(** [(col.iloc[-1] / col.iloc[-lookback] - 1) * 100] on one column. *)
Definition momentum_pct_of (lookback : nat) (col : list Qc)
  : option (option Qc) :=
  match iloc_int (-1) col, iloc_int (- Z.of_nat lookback) col with
  | Some last, Some first =>
      Some (option_map (fun q => (q - 1) * qz 100) (fdiv last first))
  | _, _ => None
  end.

(** A frame shorter than the lookback gives the Series of NaN.  [None] is
    the IndexError of [prices.iloc[-1]] on a frame without rows, which the
    first test lets through for [lookback = 0] only. *)
Definition calculate_momentum (prices : Frame) (lookback : nat)
  : option NSeries :=
  if (nrows prices <? lookback)%nat
  then Some (map (fun kc => (fst kc, None)) prices)
  else if (nrows prices =? 0)%nat then None
       else per_column (momentum_pct_of lookback) prices.

(** *** calculate_downside_volatility (canadian_nyse_only.py, lines 93-97;
    oil_gas_comprehensive.py, lines 172-176) *)

Definition calculate_downside_volatility (sqrt : Qc -> Qc) (returns : Frame)
  (threshold : Qc) : NSeries :=
  map (fun kc =>
         (fst kc,
          option_map (fun s => s * sqrt (qz 252))
            (std sqrt (filter (fun r => Qc_ltb r threshold) (snd kc)))))
      returns.

(** *** calculate_max_drawdown (canadian_nyse_only.py, lines 100-104;
    oil_gas_comprehensive.py, lines 179-183) *)

(** [None]: the column is empty and its minimum is NaN; or a running
    maximum is zero and a drawdown is no number, a case that the embedding
    does not follow further. *)
Definition calculate_max_drawdown (prices : Frame) : NSeries :=
  map (fun kc =>
         (fst kc,
          drawdown <- UsPortfolioAllocation.drawdown_series (snd kc) ;;
          series_min drawdown))
      prices.

(** *** calculate_drawdown_duration (canadian_nyse_only.py, lines 107-128) *)

(** The body of [for is_underwater in underwater], on the state
    [(max_duration, current_duration)]. *)
Definition underwater_step (st : nat * nat) (is_underwater : bool)
  : nat * nat :=
  let '(max_duration, current_duration) := st in
  if is_underwater
  then (Nat.max max_duration (S current_duration), S current_duration)
  else (max_duration, O).

Definition longest_underwater (underwater : list bool) : nat :=
  fst (fold_left underwater_step underwater (O, O)).

(** [price_series < running_max], row by row. *)
Definition underwater (price_series : list Qc) : list bool :=
  map (fun pm => Qc_ltb (fst pm) (snd pm))
      (combine price_series (cummax price_series)).

Definition calculate_drawdown_duration (prices : Frame)
  : list (string * nat) :=
  map (fun kc => (fst kc, longest_underwater (underwater (snd kc)))) prices.

End CanadianNyseOnlyMetrics.

(** ** oil_gas_comprehensive.py: the segments *)

Module OilGasComprehensive.

(** The keys of the five tables (lines 41-85), in the order of the source. *)
Definition ROYALTY : list string := ["DMLP"; "KRP"; "BSM"; "STR"; "VNOM"].
Definition MIDSTREAM : list string :=
  ["ET"; "MPLX"; "EPD"; "ENB"; "TRP"; "KMI"; "WMB"; "OKE"].
Definition MAJORS : list string := ["CNQ"; "CVX"; "SU"; "XOM"; "CVE"].
Definition REFINERIES : list string := ["PSX"; "DINO"; "VLO"; "MPC"].
Definition EP_COMPANIES : list string := ["COP"; "DVN"; "MRO"; "OXY"].

(** The keys of [ALL_STOCKS = {**ROYALTY, **MIDSTREAM, ...}] (lines 87-93). *)
Definition ALL_STOCKS : list string :=
  (ROYALTY ++ MIDSTREAM ++ MAJORS ++ REFINERIES ++ EP_COMPANIES)%list.

(** [ticker in TABLE]. *)
Definition mem (ticker : string) (table : list string) : bool :=
  existsb (String.eqb ticker) table.

(** get_segment (lines 99-111). *)
Definition get_segment (ticker : string) : string :=
  if mem ticker ROYALTY then "Royalty"
  else if mem ticker MIDSTREAM then "Midstream"
  else if mem ticker MAJORS then "Major"
  else if mem ticker REFINERIES then "Refinery"
  else if mem ticker EP_COMPANIES then "E&P"
  else "Unknown".

End OilGasComprehensive.

(** ** allocate.py: the categories and the weekly amounts of the report *)

Module AllocateReport.

(** [CATS] (allocate.py, lines 7-19), in the order of the source. *)
Definition CATS : list (string * list string) :=
  [("Platinum", ["PPLT"]); ("Silver", ["WPM"]); ("Gold", ["FNV"]);
   ("Copper", ["COPX"]); ("BaseMtl", ["VALE"]);
   ("Oil_Gas", ["XOM"; "CVX"; "SU"; "CNQ"; "VLO"; "MPC"; "PSX"; "OIH"; "XLE";
                "XOP"]);
   ("NatGas", ["FCG"; "LNG"; "AR"; "EQT"]);
   ("Uranium", ["URNM"; "URA"; "NLR"]);
   ("ExUS", ["AVDV"]); ("LATAM", ["ILF"]); ("IntlMom", ["IMTM"])].

(** cat_of (lines 75-76): the first category that lists the ticker. *)
Definition cat_of (t : string) : string :=
  match find (fun cts => existsb (String.eqb t) (snd cts)) CATS with
  | Some (c, _) => c
  | None => "?"
  end.

(** Python's [int(x)] on a float: the fraction is cut off, towards zero. *)
Definition int_of_float (x : Qc) : Z :=
  if Qc_ltb x 0 then (- Qfloor (- x))%Z else Qfloor x.

(** [weekly = max(100, int(alloc[t] / 12 / 100) * 100)], which [main]
    (lines 127-129) prints for every ticker with [alloc[t] > 0]. *)
Definition weekly (amount : Qc) : Z :=
  Z.max 100 (int_of_float (amount / qz 12 / qz 100) * 100).

End AllocateReport.

(** ** More sample inputs *)

Module MoreSamples.

(** Two positions on the tickers of [Samples.prices_year]. *)
Definition alloc_two : Series := [("XOM", qz 39600); ("CVX", qz 20400)].

(** An allocation of the default capital that meets the constraints: four
    sectors with a quarter each and one position at zero; and two days of
    prices for its tickers. *)
Definition alloc_four : Series :=
  [("WPM", qz 15000); ("XOM", qz 15000); ("CVX", 0); ("AVDV", qz 15000);
   ("FNV", qz 15000)].

Definition prices_four : Frame :=
  map (fun t => (t, [qz 100; qz 110])) ["WPM"; "XOM"; "CVX"; "AVDV"; "FNV"].

(** Four sectors with a quarter each, and a ticker without weight. *)
Definition w_with_zero : Series :=
  [("WPM", Q2Qc (1 # 4)); ("XOM", Q2Qc (1 # 4)); ("CVX", 0);
   ("AVDV", Q2Qc (1 # 4)); ("FNV", Q2Qc (1 # 4))].

(** Half of the default capital on the two gold tickers. *)
Definition alloc_gold : Series :=
  [("FNV", qz 15000); ("AEM", qz 15000); ("XOM", qz 30000)].

(** mfapi.in answering with one entry that has a date and no nav. *)
Definition mfapi_entry_without_nav (scheme_code : Z) : FetchMfNav.response :=
  FetchMfNav.ResponseJson
    {| FetchMfNav.meta := Some [];
       FetchMfNav.data :=
         Some [[("date", FetchMfNav.JStr "03-11-2026")]] |}.

(** Daily returns with a single losing day. *)
Definition returns_one_loss : Frame :=
  [("XOM", [Q2Qc (1 # 10); - Q2Qc (1 # 20); Q2Qc (1 # 50)])].

(** Four positions of a quarter of 60000 each. *)
Definition alloc_four_equal : Series :=
  [("XOM", qz 15000); ("CVX", qz 15000); ("URA", qz 15000); ("FNV", qz 15000)].

(** A week of prices that never fall. *)
Definition prices_climbing : Frame :=
  [("XOM", [qz 100; qz 100; qz 103; qz 110; qz 110; qz 120; qz 125])].

(** Two positions as [calculate_shares] lays them out, three days of
    returns of their tickers, and a metric for each. *)
Definition shares_two : list (string * UsPortfolioReport.share_row) :=
  [("XOM", {| UsPortfolioReport.Allocation_USD := 40000;
              UsPortfolioReport.Price := qz 110;
              UsPortfolioReport.Shares := qz 40000 / qz 110;
              UsPortfolioReport.Weight_Pct := Q2Qc (6667 # 100) |});
   ("CVX", {| UsPortfolioReport.Allocation_USD := 20000;
              UsPortfolioReport.Price := qz 220;
              UsPortfolioReport.Shares := qz 20000 / qz 220;
              UsPortfolioReport.Weight_Pct := Q2Qc (3333 # 100) |})].

Definition returns_two : Frame :=
  [("XOM", [Q2Qc (1 # 100); - Q2Qc (1 # 50); Q2Qc (3 # 100)]);
   ("CVX", [Q2Qc (1 # 50); Q2Qc (1 # 100); - Q2Qc (1 # 100)])].

Definition metric_two : NSeries := [("XOM", Some 1); ("CVX", Some (qz 2))].

(** Scores of the tickers of [prices_four]: four positive and equal, one
    negative. *)
Definition scores_four : Series :=
  [("WPM", qz 2); ("XOM", qz 2); ("CVX", - qz 1); ("AVDV", qz 2);
   ("FNV", qz 2)].

(** Four sectors with about a quarter each, and a tail of 2% that is
    under the floor of 5%. *)
Definition w_small_tail : Series :=
  [("WPM", Q2Qc (24 # 100)); ("XOM", Q2Qc (25 # 100));
   ("AVDV", Q2Qc (25 # 100)); ("FNV", Q2Qc (24 # 100));
   ("MSTR", Q2Qc (2 # 100))].

(** A score of 3 and a score that is an infinity, as a downside volatility
    of 0 makes it. *)
Definition scores_with_infinity : XSeries :=
  [("XOM", Num (qz 3)); ("CVX", PosInf)].

End MoreSamples.

(** ** Properties that the theorems state *)

(** No position is negative. *)
Definition nonneg (a : Series) : Prop := Forall (fun v => 0 <= v) (values a).

(** What holds of an allocation of numbers that no step of a pass of
    [apply_constraints] changes, in terms of the dollar thresholds: no
    position strictly between 0 and the minimum, none above the maximum, no
    sector above the cap amount, the total within a dollar of the capital. *)
Definition settled (total_capital min_amount max_amount sector_cap_amount : Qc)
  (a : Series) : Prop :=
  Forall (fun v => ~ (0 < v /\ v < min_amount)) (values a) /\
  Forall (fun v => v <= max_amount) (values a) /\
  Forall (fun s => OnNumbers.sector_total s a <= sector_cap_amount)
         UsPortfolioAllocation.capped_sectors /\
  qabs (qsum (values a) - total_capital) <= 1.

(** The property that claim C1 asks of the returned allocation, for the
    capital [total_capital]. *)
Definition meets_constraints
  (total_capital min_allocation_pct max_allocation_pct : Qc)
  (a : Series) : Prop :=
  Forall (fun v =>
            v = 0 \/
            (total_capital * min_allocation_pct <= v /\
             v <= total_capital * max_allocation_pct))
         (values a) /\
  Forall (fun s =>
            OnNumbers.sector_total s a
            <= total_capital * UsPortfolioAllocation.SECTOR_CAP_PCT)
         UsPortfolioAllocation.capped_sectors /\
  qabs (qsum (values a) - total_capital) <= 1.

(** The strictly positive entries of a Series of scores; an infinite score
    is one of them, NaN is not. *)
Definition positive_scores (sortino : XSeries) : XSeries :=
  filter (fun kv => xlt (Num 0) (snd kv)) sortino.

(** The Series that has NaN at every one of the labels. *)
Definition nan_series (labels : list string) : XSeries :=
  map (fun t => (t, NaN)) labels.

(** The exit of the loop on numbers, as an exit of the loop of the
    embedding. *)
Definition exit_of_numbers (e : OnNumbers.loop_exit)
  : UsPortfolioAllocation.loop_exit :=
  {| UsPortfolioAllocation.exit_allocation :=
       numbers (OnNumbers.exit_allocation e);
     UsPortfolioAllocation.passes_run := OnNumbers.passes_run e;
     UsPortfolioAllocation.converged := OnNumbers.converged e |}.

(** A weight that the floor of [apply_constraints] takes out: strictly
    between 0 and [min_allocation_pct]; and the weights without those. *)
Definition under_floor (min_allocation_pct w : Qc) : bool :=
  Qc_ltb 0 w && Qc_ltb w min_allocation_pct.

Definition kept_weights (min_allocation_pct : Qc) (weights : Series)
  : Series :=
  map (fun kv =>
         if under_floor min_allocation_pct (snd kv) then (fst kv, 0) else kv)
      weights.

(** Weights that need neither cap once the floor has been applied: of what
    the floor leaves, no weight is more than [max_allocation_pct] of the
    total and no sector more than SECTOR_CAP_PCT of the total. *)
Definition within_caps (min_allocation_pct max_allocation_pct : Qc)
  (weights : Series) : Prop :=
  let kept := kept_weights min_allocation_pct weights in
  let remaining := qsum (values kept) in
  0 < remaining /\
  Forall (fun v => v <= max_allocation_pct * remaining) (values kept) /\
  Forall (fun s =>
            OnNumbers.sector_total s kept
            <= UsPortfolioAllocation.SECTOR_CAP_PCT * remaining)
         UsPortfolioAllocation.capped_sectors.

(** A frame whose columns all have [nrows] entries. *)
Definition well_formed (df : Frame) : Prop :=
  Forall (fun kc => List.length (snd kc) = nrows df) df.

(** The inequalities that claim C9 asks of the metrics of one ticker. *)
Definition drawdown_bounds (m : UsPortfolioAllocation.drawdown_metrics)
  : Prop :=
  UsPortfolioAllocation.max_drawdown m
    <= UsPortfolioAllocation.current_drawdown m /\
  UsPortfolioAllocation.current_drawdown m <= 0 /\
  UsPortfolioAllocation.worst_rolling_3m_dd m <= 0 /\
  UsPortfolioAllocation.avg_dd_duration_days m
    <= qz (Z.of_nat (UsPortfolioAllocation.max_dd_duration_days m)) /\
  0 <= UsPortfolioAllocation.avg_dd_duration_days m.

(** A row that pays no dividend, and the number of rows that pay one. *)
Definition no_dividend (r : hist_row) : Prop := Dividends r = 0.

Definition paying_rows (rows : History) : nat :=
  List.length (filter (fun r => negb (Qc_eqb (Dividends r) 0)) rows).

(** The provider raises for this ticker. *)
Definition raises (history : string -> string -> history_outcome)
  (period t : string) : bool :=
  match history t period with
  | HistoryRaises _ => true
  | HistoryIs _ => false
  end.

(** The provider answers with an empty history for this ticker. *)
Definition answers_empty (history : string -> string -> history_outcome)
  (period t : string) : bool :=
  match history t period with
  | HistoryIs [] => true
  | _ => false
  end.

(** The order of [sort_desc]. *)
Definition not_below (a b : string * Qc) : Prop := snd b <= snd a.

(** What the amounts returned by [allocate] owe to the amounts before
    rounding. *)
Definition rounded_from (alloc raw : Series) : Prop :=
  Forall2 (fun a r =>
             fst a = fst r /\
             (exists k : Z, snd a = qz (1000 * k)) /\
             snd r - qz 500 <= snd a /\ snd a <= snd r + qz 500)
          alloc raw.

(** Every position lies within the bounds. *)
Definition within_bounds (lo hi : Qc) (alloc : Series) : Prop :=
  Forall (fun v => lo <= v /\ v <= hi) (values alloc).

(** [selected] are [n] entries of [scores] (all of them when there are
    fewer), and no other entry has a larger value. *)
Definition top_by_value (n : Z) (scores selected : Series) : Prop :=
  exists rest,
    Permutation (selected ++ rest) scores /\
    List.length selected = Nat.min (Z.to_nat n) (List.length scores) /\
    forall x y, In x selected -> In y rest -> snd y <= snd x.

(** What a row of the frame [shares] owes to the position it was made from:
    the same ticker, a whole number of hundreds within 500 of the position,
    the last price of the ticker, which is not zero, and the amount over
    that price as the number of shares. *)
Definition share_of (prices : Frame) (kv : string * Qc)
  (ks : string * UsPortfolioReport.share_row) : Prop :=
  fst ks = fst kv /\
  (100 | UsPortfolioReport.Allocation_USD (snd ks))%Z /\
  snd kv - qz 500 <= qz (UsPortfolioReport.Allocation_USD (snd ks)) /\
  qz (UsPortfolioReport.Allocation_USD (snd ks)) <= snd kv + qz 500 /\
  UsPortfolioReport.latest_price prices (fst kv)
    = Some (UsPortfolioReport.Price (snd ks)) /\
  UsPortfolioReport.Price (snd ks) <> 0 /\
  UsPortfolioReport.Shares (snd ks)
    = qz (UsPortfolioReport.Allocation_USD (snd ks))
      / UsPortfolioReport.Price (snd ks).

(** Every price of the frame is strictly positive. *)
Definition positive_prices (prices : Frame) : Prop :=
  Forall (fun kc => Forall (fun p => 0 < p) (snd kc)) prices.

(** A return [r] that has the sign of the move from the price [prev] to the
    price [cur], and that loses at most everything. *)
Definition moves_with (prev cur r : Qc) : Prop :=
  (r < 0 <-> cur < prev) /\ (0 < r <-> prev < cur) /\ - (1) <= r.

(** [a'] has the tickers of [a], in the same order, and nothing where [a]
    has nothing. *)
Definition keeps_tickers (a a' : Series) : Prop :=
  Forall2 (fun x y => fst y = fst x /\ (snd x = 0 -> snd y = 0)) a a'.

(** Metrics without any drawdown. *)
Definition no_drawdown (m : UsPortfolioAllocation.drawdown_metrics) : Prop :=
  UsPortfolioAllocation.max_drawdown m = 0 /\
  UsPortfolioAllocation.max_dd_duration_days m = O /\
  UsPortfolioAllocation.avg_dd_duration_days m = 0 /\
  UsPortfolioAllocation.current_drawdown m = 0 /\
  UsPortfolioAllocation.worst_rolling_3m_dd m = 0.

(** * Theorems *)

(** ** Rational arithmetic *)

Lemma Qc_ltb_true (x y : Qc) : Qc_ltb x y = true <-> x < y.
Proof.
  unfold Qc_ltb. destruct (Qclt_le_dec x y) as [H | H]; split; auto.
  - discriminate.
  - intro H'. exfalso. exact (Qcle_not_lt _ _ H H').
Qed.

Lemma Qc_ltb_false (x y : Qc) : Qc_ltb x y = false <-> y <= x.
Proof.
  unfold Qc_ltb. destruct (Qclt_le_dec x y) as [H | H]; split; auto.
  - discriminate.
  - intro H'. exfalso. exact (Qcle_not_lt _ _ H' H).
Qed.

Lemma Qc_eqb_true (x y : Qc) : Qc_eqb x y = true <-> x = y.
Proof.
  unfold Qc_eqb. destruct (Qc_eq_dec x y); split; auto; discriminate.
Qed.

Lemma Qc_eqb_false (x y : Qc) : Qc_eqb x y = false <-> x <> y.
Proof.
  unfold Qc_eqb. destruct (Qc_eq_dec x y); split; auto; try discriminate.
  intro H; contradiction.
Qed.

(** Order goals on [Qc] are goals on [Q] once the canonical forms are
    unfolded; [lra] decides the linear ones. *)
Ltac qc_unfold :=
  unfold Qcle, Qclt, Qcminus, Qcplus, Qcopp, Qcmult, Qcdiv, Qcinv, qz, Q2Qc in *;
  cbn [this] in *;
  repeat rewrite Qred_correct in *.

Ltac qc_lra := qc_unfold; lra.

(** Closed equations between rationals, possibly under [Some]: two canonical
    rationals are equal as soon as their fractions are. *)
Ltac qc_compute :=
  vm_compute;
  first [ reflexivity
        | apply Qc_is_canon; vm_compute; reflexivity
        | f_equal; apply Qc_is_canon; vm_compute; reflexivity ].

Lemma Qcmult_nonneg (x y : Qc) : 0 <= x -> 0 <= y -> 0 <= x * y.
Proof.
  intros Hx Hy. qc_unfold. apply Qmult_le_0_compat; assumption.
Qed.

Lemma Qcplus_nonneg (x y : Qc) : 0 <= x -> 0 <= y -> 0 <= x + y.
Proof. intros Hx Hy. qc_lra. Qed.

Lemma Qcinv_pos (x : Qc) : 0 < x -> 0 < / x.
Proof.
  intros Hx. qc_unfold. apply Qinv_lt_0_compat. assumption.
Qed.

Lemma Qcdiv_nonneg (x y : Qc) : 0 <= x -> 0 < y -> 0 <= x / y.
Proof.
  intros Hx Hy. unfold Qcdiv. apply Qcmult_nonneg; [assumption|].
  apply Qclt_le_weak, Qcinv_pos, Hy.
Qed.

Lemma fdiv_some (x y q : Qc) : fdiv x y = Some q -> y <> 0 /\ q = x / y.
Proof.
  unfold fdiv. destruct (Qc_eqb y 0) eqn:E; [discriminate|].
  intros [= <-]. split; [apply Qc_eqb_false, E | reflexivity].
Qed.

Lemma qsum_nonneg (l : list Qc) : Forall (fun v => 0 <= v) l -> 0 <= qsum l.
Proof.
  induction 1 as [| v l Hv _ IH]; simpl.
  - apply Qcle_refl.
  - apply Qcplus_nonneg; assumption.
Qed.

(** ** apply_constraints: what one pass and the loop guarantee *)

Lemma existsb_mapped {A B : Type} (f : A -> B) (p : B -> bool) (l : list A) :
  existsb p (map f l) = existsb (fun x => p (f x)) l.
Proof.
  induction l as [| x l IH]; simpl; [reflexivity |]. rewrite IH. reflexivity.
Qed.

Lemma existsb_pointwise {A : Type} (p q : A -> bool) (l : list A) :
  (forall x, p x = q x) -> existsb p l = existsb q l.
Proof.
  intros H. induction l as [| x l IH]; simpl; [reflexivity |].
  rewrite H, IH. reflexivity.
Qed.

Lemma qsum_scaled (c : Qc) (l : list Qc) :
  qsum (map (fun v => v * c) l) = qsum l * c.
Proof.
  induction l as [| v l IH]; simpl.
  - ring.
  - rewrite IH. ring.
Qed.

Lemma index_scale (f : Qc) (s : Series) : index (scale f s) = index s.
Proof. unfold index, scale. rewrite map_map. reflexivity. Qed.

Lemma qsum_scale (f : Qc) (s : Series) :
  qsum (values (scale f s)) = qsum (values s) * f.
Proof.
  unfold values, scale. rewrite map_map. simpl.
  rewrite <- (qsum_scaled f (map snd s)), map_map. reflexivity.
Qed.

Lemma scale_by_quotient_spec (num den : Qc) (s s' : Series) :
  scale_by_quotient num den s = Some s' ->
  index s' = index s /\ (s' <> [] -> den <> 0 /\ s' = scale (num / den) s).
Proof.
  unfold scale_by_quotient. destruct s as [| kv rest] eqn:Es.
  - intros [= <-]. split; [reflexivity | intros H; contradiction].
  - rewrite <- Es. destruct (fdiv num den) as [f |] eqn:F; [| discriminate].
    simpl. intros [= <-]. apply fdiv_some in F as [Hnz ->].
    split; [apply index_scale | auto].
Qed.

Lemma qabs_zero : qabs 0 <= 1.
Proof. vm_compute. discriminate. Qed.

Lemma qabs_le (x y : Qc) : qabs x <= y -> - y <= x /\ x <= y.
Proof.
  unfold qabs. destruct (Qc_ltb x 0) eqn:E.
  - apply Qc_ltb_true in E. intros H. split; qc_lra.
  - apply Qc_ltb_false in E. intros H. split; qc_lra.
Qed.

Module ApplyConstraintsFacts.
Import OnNumbers.

Lemma below_min_false (min_amount v : Qc) :
  below_min min_amount v = false <-> ~ (0 < v /\ v < min_amount).
Proof.
  unfold below_min. split.
  - intros H [H1 H2]. apply Qc_ltb_true in H1, H2. rewrite H1, H2 in H.
    discriminate H.
  - intros H. destruct (Qc_ltb 0 v) eqn:E1; [| reflexivity].
    destruct (Qc_ltb v min_amount) eqn:E2; [| reflexivity].
    exfalso. apply H. split; apply Qc_ltb_true; assumption.
Qed.

Section PassFacts.

Variables total_capital min_amount max_amount sector_cap_amount : Qc.

(** *** A step that reports no change has changed nothing, and conversely *)

Lemma zero_below_min_quiet (a : Series) :
  snd (zero_below_min min_amount a) = false <->
  Forall (fun v => below_min min_amount v = false) (values a).
Proof.
  unfold zero_below_min, values; simpl. rewrite Forall_map.
  induction a as [| [k v] a IH]; simpl.
  - split; [constructor | reflexivity].
  - rewrite orb_false_iff, IH. split.
    + intros [Hv Ha]. constructor; assumption.
    + intros H. inversion H; subst. split; assumption.
Qed.

Lemma zero_below_min_unchanged (a : Series) :
  Forall (fun v => below_min min_amount v = false) (values a) ->
  fst (zero_below_min min_amount a) = a.
Proof.
  unfold zero_below_min, values; simpl. rewrite Forall_map.
  induction 1 as [| [k v] a Hv _ IH]; simpl; [reflexivity |].
  simpl in Hv. rewrite Hv, IH. reflexivity.
Qed.

Lemma cap_above_max_quiet (a : Series) :
  snd (cap_above_max max_amount a) = false <->
  Forall (fun v => v <= max_amount) (values a).
Proof.
  unfold cap_above_max, values; simpl. rewrite Forall_map.
  induction a as [| [k v] a IH]; simpl.
  - split; [constructor | reflexivity].
  - rewrite orb_false_iff, IH. unfold above_max. rewrite Qc_ltb_false. split.
    + intros [Hv Ha]. constructor; assumption.
    + intros H. inversion H; subst. split; assumption.
Qed.

Lemma cap_above_max_unchanged (a : Series) :
  Forall (fun v => v <= max_amount) (values a) ->
  fst (cap_above_max max_amount a) = a.
Proof.
  unfold cap_above_max, values; simpl. rewrite Forall_map.
  induction 1 as [| [k v] a Hv _ IH]; simpl; [reflexivity |].
  simpl in Hv. apply Qc_ltb_false in Hv. fold (above_max max_amount v) in Hv.
  rewrite Hv, IH. reflexivity.
Qed.

Lemma cap_sector_quiet (sector : list string) (a : Series) :
  snd (cap_sector sector_cap_amount sector a) = false <->
  sector_total sector a <= sector_cap_amount.
Proof.
  unfold cap_sector. rewrite <- Qc_ltb_false.
  destruct (Qc_ltb sector_cap_amount (sector_total sector a)); simpl;
    split; auto; discriminate.
Qed.

Lemma cap_sector_unchanged (sector : list string) (a : Series) :
  sector_total sector a <= sector_cap_amount ->
  cap_sector sector_cap_amount sector a = (a, false).
Proof.
  intros H. apply Qc_ltb_false in H. unfold cap_sector. rewrite H. reflexivity.
Qed.

Lemma cap_sectors_fold_quiet (sectors : list (list string)) (a : Series) (ch : bool) :
  snd (fold_left
         (fun st sector =>
            let '(a', c) := cap_sector sector_cap_amount sector (fst st) in
            (a', snd st || c))
         sectors (a, ch)) = false ->
  ch = false /\
  fst (fold_left
         (fun st sector =>
            let '(a', c) := cap_sector sector_cap_amount sector (fst st) in
            (a', snd st || c))
         sectors (a, ch)) = a /\
  Forall (fun s => sector_total s a <= sector_cap_amount) sectors.
Proof.
  revert a ch. induction sectors as [| s sectors IH]; intros a ch; simpl.
  - intros ->. repeat split. constructor.
  - destruct (cap_sector sector_cap_amount s a) as [a' c] eqn:E. intros H.
    destruct (IH _ _ H) as (Hch & Hfst & Hall).
    apply orb_false_iff in Hch as [-> ->].
    assert (Hs : sector_total s a <= sector_cap_amount).
    { apply cap_sector_quiet. rewrite E. reflexivity. }
    rewrite (cap_sector_unchanged s a Hs) in E. injection E as <-.
    repeat split; [assumption | constructor; assumption].
Qed.

Lemma cap_sectors_quiet (sectors : list (list string)) (a : Series) :
  snd (cap_sectors sector_cap_amount sectors a) = false ->
  fst (cap_sectors sector_cap_amount sectors a) = a /\
  Forall (fun s => sector_total s a <= sector_cap_amount) sectors.
Proof.
  unfold cap_sectors. intros H.
  destruct (cap_sectors_fold_quiet _ _ _ H) as (_ & E & F). split; assumption.
Qed.

Lemma cap_sectors_unchanged (sectors : list (list string)) (a : Series) :
  Forall (fun s => sector_total s a <= sector_cap_amount) sectors ->
  cap_sectors sector_cap_amount sectors a = (a, false).
Proof.
  unfold cap_sectors. induction 1 as [| s sectors Hs _ IH]; simpl;
    [reflexivity |].
  rewrite (cap_sector_unchanged s a Hs). exact IH.
Qed.

Lemma renormalize_quiet (a a' : Series) :
  renormalize total_capital a = Some (a', false) ->
  a' = a /\ qabs (qsum (values a) - total_capital) <= 1.
Proof.
  unfold renormalize.
  destruct (Qc_ltb 1 (qabs (qsum (values a) - total_capital))) eqn:E.
  - destruct (scale_by_quotient total_capital (qsum (values a)) a); discriminate.
  - intros [= <-]. split; [reflexivity|]. apply Qc_ltb_false. exact E.
Qed.

Lemma renormalize_unchanged (a : Series) :
  qabs (qsum (values a) - total_capital) <= 1 ->
  renormalize total_capital a = Some (a, false).
Proof.
  intros H. apply Qc_ltb_false in H. unfold renormalize. rewrite H.
  reflexivity.
Qed.

(** A pass that reports [changed = False] has returned its input, and that
    input meets every test of the pass. *)
Lemma constraint_pass_quiet (a a' : Series) :
  constraint_pass total_capital min_amount max_amount sector_cap_amount a
  = Some (a', false) ->
  a' = a /\ settled total_capital min_amount max_amount sector_cap_amount a.
Proof.
  unfold constraint_pass.
  destruct (zero_below_min min_amount a) as [a1 c1] eqn:E1.
  destruct (cap_above_max max_amount a1) as [a2 c2] eqn:E2.
  destruct (cap_sectors sector_cap_amount UsPortfolioAllocation.capped_sectors a2)
    as [a3 c3] eqn:E3.
  destruct (renormalize total_capital a3) as [[a4 c4] |] eqn:E4; [| discriminate].
  intros [= <- H].
  apply orb_false_iff in H as [H ->].
  apply orb_false_iff in H as [H ->].
  apply orb_false_iff in H as [-> ->].
  assert (F1 : Forall (fun v => below_min min_amount v = false) (values a)).
  { apply zero_below_min_quiet. rewrite E1. reflexivity. }
  pose proof (zero_below_min_unchanged a F1) as Ea1. rewrite E1 in Ea1.
  simpl in Ea1. subst a1.
  assert (F2 : Forall (fun v => v <= max_amount) (values a)).
  { apply cap_above_max_quiet. rewrite E2. reflexivity. }
  pose proof (cap_above_max_unchanged a F2) as Ea2. rewrite E2 in Ea2.
  simpl in Ea2. subst a2.
  pose proof (cap_sectors_quiet UsPortfolioAllocation.capped_sectors a) as Q3.
  rewrite E3 in Q3. destruct (Q3 eq_refl) as [Ea3 F3]. simpl in Ea3. subst a3.
  destruct (renormalize_quiet _ _ E4) as [-> F4].
  split; [reflexivity|]. unfold settled. split; [| auto].
  eapply Forall_impl; [| exact F1]. intros v Hv. apply below_min_false, Hv.
Qed.

(** An allocation that meets every test of the pass is a fixed point of the
    pass. *)
Lemma constraint_pass_settled (a : Series) :
  settled total_capital min_amount max_amount sector_cap_amount a ->
  constraint_pass total_capital min_amount max_amount sector_cap_amount a
  = Some (a, false).
Proof.
  intros (F1 & F2 & F3 & F4). unfold constraint_pass.
  assert (F1' : Forall (fun v => below_min min_amount v = false) (values a)).
  { eapply Forall_impl; [| exact F1]. intros v Hv. apply below_min_false, Hv. }
  pose proof (zero_below_min_unchanged a F1') as E1.
  pose proof (proj2 (zero_below_min_quiet a) F1') as C1.
  destruct (zero_below_min min_amount a) as [a1 c1]. simpl in E1, C1. subst.
  pose proof (cap_above_max_unchanged a F2) as E2.
  pose proof (proj2 (cap_above_max_quiet a) F2) as C2.
  destruct (cap_above_max max_amount a) as [a2 c2]. simpl in E2, C2. subst.
  rewrite (cap_sectors_unchanged _ a F3).
  rewrite (renormalize_unchanged a F4). reflexivity.
Qed.

Lemma constraint_loop_S (n done : nat) (a : Series) :
  constraint_loop total_capital min_amount max_amount sector_cap_amount
    (S n) done a
  = match constraint_pass total_capital min_amount max_amount
            sector_cap_amount a with
    | None => None
    | Some (a', true) =>
        constraint_loop total_capital min_amount max_amount sector_cap_amount
          n (S done) a'
    | Some (a', false) =>
        Some {| exit_allocation := a'; passes_run := S done; converged := true |}
    end.
Proof. reflexivity. Qed.

(** The loop, by induction on the passes that remain: an invariant of the
    pass holds at the exit. *)
Lemma constraint_loop_exit (P : Series -> Prop) :
  (forall a a' c,
      P a ->
      constraint_pass total_capital min_amount max_amount sector_cap_amount a
      = Some (a', c) ->
      P a') ->
  forall n done a e,
    P a ->
    constraint_loop total_capital min_amount max_amount sector_cap_amount
      n done a = Some e ->
    P (exit_allocation e).
Proof.
  intros Hpass. induction n as [| n IH]; intros done a e Pa.
  - simpl. intros [= <-]; simpl. exact Pa.
  - rewrite constraint_loop_S.
    destruct (constraint_pass total_capital min_amount max_amount
                sector_cap_amount a) as [[a' [|]] |] eqn:E; [| | discriminate].
    + intros H. exact (IH _ _ _ (Hpass _ _ _ Pa E) H).
    + intros [= <-]; simpl. exact (Hpass _ _ _ Pa E).
Qed.

(** *** The total after a pass *)

Lemma renormalize_total (a a' : Series) (c : bool) :
  renormalize total_capital a = Some (a', c) -> a' <> [] ->
  qabs (qsum (values a') - total_capital) <= 1.
Proof.
  unfold renormalize.
  destruct (Qc_ltb 1 (qabs (qsum (values a) - total_capital))) eqn:E.
  - destruct (scale_by_quotient total_capital (qsum (values a)) a) as [r |] eqn:Er;
      [| discriminate].
    intros [= <- _] Hne.
    destruct (scale_by_quotient_spec _ _ _ _ Er) as [_ Hs].
    destruct (Hs Hne) as [Hnz ->]. rewrite qsum_scale.
    replace (qsum (values a) * (total_capital / qsum (values a)) - total_capital)
      with 0 by (field; exact Hnz).
    exact qabs_zero.
  - intros [= <- _] _. apply Qc_ltb_false. exact E.
Qed.

Lemma constraint_pass_total (a a' : Series) (c : bool) :
  constraint_pass total_capital min_amount max_amount sector_cap_amount a
  = Some (a', c) ->
  a' <> [] ->
  qabs (qsum (values a') - total_capital) <= 1.
Proof.
  unfold constraint_pass.
  destruct (zero_below_min min_amount a) as [a1 c1].
  destruct (cap_above_max max_amount a1) as [a2 c2].
  destruct (cap_sectors sector_cap_amount UsPortfolioAllocation.capped_sectors a2)
    as [a3 c3].
  destruct (renormalize total_capital a3) as [[a4 c4] |] eqn:E; [| discriminate].
  intros [= <- _]. exact (renormalize_total _ _ _ E).
Qed.

Lemma constraint_loop_total (n : nat) :
  forall (done : nat) (a : Series) (e : loop_exit),
    constraint_loop total_capital min_amount max_amount sector_cap_amount
      (S n) done a = Some e ->
    exit_allocation e <> [] ->
    qabs (qsum (values (exit_allocation e)) - total_capital) <= 1.
Proof.
  induction n as [| n IH]; intros done a e H; rewrite constraint_loop_S in H;
    destruct (constraint_pass total_capital min_amount max_amount
                sector_cap_amount a) as [[a' [|]] |] eqn:E;
    try discriminate.
  - simpl in H. injection H as <-. exact (constraint_pass_total _ _ _ E).
  - injection H as <-. exact (constraint_pass_total _ _ _ E).
  - exact (IH _ _ _ H).
  - injection H as <-. exact (constraint_pass_total _ _ _ E).
Qed.

(** *** The tickers, and the positions of zero *)

Lemma keeps_tickers_refl (a : Series) : keeps_tickers a a.
Proof. induction a; constructor; auto. Qed.

Lemma keeps_tickers_trans (a b c : Series) :
  keeps_tickers a b -> keeps_tickers b c -> keeps_tickers a c.
Proof.
  intros Hab. revert c. induction Hab as [| x y a b [Hk Hz] _ IH]; intros c Hbc;
    inversion Hbc as [| ? z ? c' [Hk' Hz'] Hbc']; subst; constructor.
  - split; [congruence | auto].
  - apply IH, Hbc'.
Qed.

Lemma keeps_tickers_index (a a' : Series) :
  keeps_tickers a a' -> index a' = index a.
Proof.
  unfold index. induction 1 as [| x y a a' [Hk _] _ IH]; simpl; [reflexivity |].
  rewrite Hk, IH. reflexivity.
Qed.

Lemma keeps_tickers_zero_below_min (a : Series) :
  keeps_tickers a (fst (zero_below_min min_amount a)).
Proof.
  unfold zero_below_min; simpl.
  induction a as [| [k v] a IH]; simpl; constructor; [| exact IH].
  destruct (below_min min_amount v); simpl; auto.
Qed.

Lemma keeps_tickers_set_loc (t : string) (f : Qc) (a : Series) :
  keeps_tickers a (set_loc t (fun v => v * f) a).
Proof.
  induction a as [| [k v] a IH]; simpl; [constructor |].
  destruct (String.eqb t k).
  - constructor; [| apply keeps_tickers_refl]. simpl.
    split; [reflexivity |]. intros ->. ring.
  - constructor; [simpl; auto | exact IH].
Qed.

Lemma keeps_tickers_scale_sector (sector : list string) (f : Qc) (a : Series) :
  keeps_tickers a (scale_sector sector f a).
Proof.
  unfold scale_sector. revert a.
  induction sector as [| t sector IH]; intros a; simpl;
    [apply keeps_tickers_refl |].
  eapply keeps_tickers_trans; [| apply IH].
  destruct (in_index t a);
    [apply keeps_tickers_set_loc | apply keeps_tickers_refl].
Qed.

Lemma keeps_tickers_cap_sectors (sectors : list (list string))
  (a : Series) (ch : bool) :
  keeps_tickers a
    (fst (fold_left
            (fun st sector =>
               let '(a', c) := cap_sector sector_cap_amount sector (fst st) in
               (a', snd st || c))
            sectors (a, ch))).
Proof.
  revert a ch. induction sectors as [| s sectors IH]; intros a ch; simpl;
    [apply keeps_tickers_refl |].
  assert (H : keeps_tickers a (fst (cap_sector sector_cap_amount s a))).
  { unfold cap_sector.
    destruct (Qc_ltb sector_cap_amount (sector_total s a)); simpl;
      [apply keeps_tickers_scale_sector | apply keeps_tickers_refl]. }
  destruct (cap_sector sector_cap_amount s a) as [a' c]. simpl in H.
  eapply keeps_tickers_trans; [exact H | apply IH].
Qed.

Lemma keeps_tickers_scale (f : Qc) (a : Series) : keeps_tickers a (scale f a).
Proof.
  unfold scale. induction a as [| [k v] a IH]; simpl; constructor; [| exact IH].
  simpl. split; [reflexivity |]. intros ->. ring.
Qed.

Lemma keeps_tickers_renormalize (a a' : Series) (c : bool) :
  renormalize total_capital a = Some (a', c) -> keeps_tickers a a'.
Proof.
  unfold renormalize.
  destruct (Qc_ltb 1 (qabs (qsum (values a) - total_capital)));
    [| intros [= <- _]; apply keeps_tickers_refl].
  unfold scale_by_quotient. destruct a as [| kv rest] eqn:Ea.
  - intros [= <- _]. constructor.
  - rewrite <- Ea.
    destruct (fdiv total_capital (qsum (values a))) as [f |]; [| discriminate].
    simpl. intros [= <- _]. apply keeps_tickers_scale.
Qed.

(** *** Positions that are not negative *)

Hypothesis max_nonneg : 0 <= max_amount.
Hypothesis cap_nonneg : 0 <= sector_cap_amount.
Hypothesis capital_nonneg : 0 <= total_capital.

Lemma keeps_tickers_cap_above_max (a : Series) :
  keeps_tickers a (fst (cap_above_max max_amount a)).
Proof.
  unfold cap_above_max; simpl.
  induction a as [| [k v] a IH]; simpl; constructor; [| exact IH].
  destruct (above_max max_amount v) eqn:E; simpl; [| auto].
  split; [reflexivity |]. intros ->. exfalso.
  unfold above_max in E. apply Qc_ltb_true in E.
  exact (Qclt_not_le _ _ E max_nonneg).
Qed.

Lemma keeps_tickers_constraint_pass (a a' : Series) (c : bool) :
  constraint_pass total_capital min_amount max_amount sector_cap_amount a
  = Some (a', c) ->
  keeps_tickers a a'.
Proof.
  unfold constraint_pass.
  pose proof (keeps_tickers_zero_below_min a) as H1.
  destruct (zero_below_min min_amount a) as [a1 c1]. simpl in H1.
  pose proof (keeps_tickers_cap_above_max a1) as H2.
  destruct (cap_above_max max_amount a1) as [a2 c2]. simpl in H2.
  pose proof (keeps_tickers_cap_sectors UsPortfolioAllocation.capped_sectors
                a2 false) as H3.
  fold (cap_sectors sector_cap_amount UsPortfolioAllocation.capped_sectors a2) in H3.
  destruct (cap_sectors sector_cap_amount UsPortfolioAllocation.capped_sectors a2)
    as [a3 c3]. simpl in H3.
  destruct (renormalize total_capital a3) as [[a4 c4] |] eqn:E; [| discriminate].
  intros [= <- _].
  eapply keeps_tickers_trans; [exact H1 |].
  eapply keeps_tickers_trans; [exact H2 |].
  eapply keeps_tickers_trans; [exact H3 |].
  exact (keeps_tickers_renormalize _ _ _ E).
Qed.

Lemma nonneg_zero_below_min (a : Series) :
  nonneg a -> nonneg (fst (zero_below_min min_amount a)).
Proof.
  unfold nonneg, zero_below_min, values; simpl. rewrite !map_map.
  induction a as [| [k v] a IH]; simpl; intros H; inversion H; subst;
    constructor; auto.
  destruct (below_min min_amount v); simpl; [apply Qcle_refl | assumption].
Qed.

Lemma nonneg_cap_above_max (a : Series) :
  nonneg a -> nonneg (fst (cap_above_max max_amount a)).
Proof.
  unfold nonneg, cap_above_max, values; simpl. rewrite !map_map.
  induction a as [| [k v] a IH]; simpl; intros H; inversion H; subst;
    constructor; auto.
  destruct (above_max max_amount v); simpl; assumption.
Qed.

Lemma nonneg_set_loc (t : string) (f : Qc) (a : Series) :
  0 <= f -> nonneg a -> nonneg (set_loc t (fun v => v * f) a).
Proof.
  intros Hf. unfold nonneg, values.
  induction a as [| [k v] a IH]; simpl; intros H; [constructor|].
  inversion H; subst. destruct (String.eqb t k); simpl; constructor; auto.
  apply Qcmult_nonneg; assumption.
Qed.

Lemma nonneg_scale_sector (sector : list string) (f : Qc) (a : Series) :
  0 <= f -> nonneg a -> nonneg (scale_sector sector f a).
Proof.
  intros Hf. unfold scale_sector. revert a.
  induction sector as [| t sector IH]; intros a Ha; simpl; [assumption|].
  apply IH. destruct (in_index t a); [| assumption].
  apply nonneg_set_loc; assumption.
Qed.

Lemma nonneg_cap_sector (sector : list string) (a : Series) :
  nonneg a -> nonneg (fst (cap_sector sector_cap_amount sector a)).
Proof.
  intros Ha. unfold cap_sector.
  destruct (Qc_ltb sector_cap_amount (sector_total sector a)) eqn:E; simpl;
    [| assumption].
  apply Qc_ltb_true in E. apply nonneg_scale_sector; [| assumption].
  apply Qcdiv_nonneg; [assumption|].
  exact (Qcle_lt_trans _ _ _ cap_nonneg E).
Qed.

Lemma nonneg_cap_sectors_fold (sectors : list (list string)) (a : Series) (ch : bool) :
  nonneg a ->
  nonneg (fst (fold_left
                 (fun st sector =>
                    let '(a', c) := cap_sector sector_cap_amount sector (fst st) in
                    (a', snd st || c))
                 sectors (a, ch))).
Proof.
  revert a ch. induction sectors as [| s sectors IH]; intros a ch Ha; simpl;
    [assumption|].
  pose proof (nonneg_cap_sector s a Ha) as H.
  destruct (cap_sector sector_cap_amount s a) as [a' c]. apply IH. exact H.
Qed.

Lemma nonneg_scale (f : Qc) (a : Series) : 0 <= f -> nonneg a -> nonneg (scale f a).
Proof.
  intros Hf. unfold nonneg, scale, values. rewrite map_map; simpl.
  induction a as [| [k v] a IH]; simpl; intros H; inversion H; subst;
    constructor; auto.
  apply Qcmult_nonneg; assumption.
Qed.

Lemma nonneg_scale_by_quotient (num : Qc) (a a' : Series) :
  0 <= num -> nonneg a ->
  scale_by_quotient num (qsum (values a)) a = Some a' -> nonneg a'.
Proof.
  intros Hnum Ha. unfold scale_by_quotient.
  destruct a as [| kv rest] eqn:Ea; [intros [= <-]; constructor |].
  rewrite <- Ea in *. clear Ea.
  destruct (fdiv num (qsum (values a))) as [f |] eqn:F; [| discriminate].
  simpl. intros [= <-]. apply fdiv_some in F as [Hnz ->].
  apply nonneg_scale; [| assumption].
  apply Qcdiv_nonneg; [assumption|].
  pose proof (qsum_nonneg _ Ha) as Hs.
  destruct (Qcle_lt_or_eq _ _ Hs) as [L | L]; [assumption|].
  exfalso. apply Hnz. symmetry. exact L.
Qed.

Lemma nonneg_renormalize (a a' : Series) (c : bool) :
  nonneg a -> renormalize total_capital a = Some (a', c) -> nonneg a'.
Proof.
  intros Ha. unfold renormalize.
  destruct (Qc_ltb 1 (qabs (qsum (values a) - total_capital))).
  - destruct (scale_by_quotient total_capital (qsum (values a)) a) as [r |] eqn:E;
      [| discriminate].
    intros [= <- _].
    exact (nonneg_scale_by_quotient _ _ _ capital_nonneg Ha E).
  - intros [= <- _]. assumption.
Qed.

Lemma nonneg_constraint_pass (a a' : Series) (c : bool) :
  nonneg a ->
  constraint_pass total_capital min_amount max_amount sector_cap_amount a
  = Some (a', c) ->
  nonneg a'.
Proof.
  intros Ha. unfold constraint_pass.
  pose proof (nonneg_zero_below_min a Ha) as H1.
  destruct (zero_below_min min_amount a) as [a1 c1]. simpl in H1.
  pose proof (nonneg_cap_above_max a1 H1) as H2.
  destruct (cap_above_max max_amount a1) as [a2 c2]. simpl in H2.
  pose proof (nonneg_cap_sectors_fold UsPortfolioAllocation.capped_sectors
                a2 false H2) as H3.
  fold (cap_sectors sector_cap_amount UsPortfolioAllocation.capped_sectors a2) in H3.
  destruct (cap_sectors sector_cap_amount UsPortfolioAllocation.capped_sectors a2)
    as [a3 c3].
  simpl in H3.
  destruct (renormalize total_capital a3) as [[a4 c4] |] eqn:E; [| discriminate].
  intros [= <- _]. exact (nonneg_renormalize _ _ _ H3 E).
Qed.

End PassFacts.

End ApplyConstraintsFacts.

(** ** apply_constraints: the pass on numbers and the pass of the embedding *)

Module NumbersFacts.
Import ApplyConstraintsFacts.

Lemma xindex_numbers (a : Series) : xindex (numbers a) = index a.
Proof. unfold xindex, numbers, index. rewrite map_map. reflexivity. Qed.

Lemma xin_index_numbers (t : string) (a : Series) :
  xin_index t (numbers a) = in_index t a.
Proof. unfold xin_index, in_index. rewrite xindex_numbers. reflexivity. Qed.

Lemma xloc_numbers (t : string) (a : Series) :
  xloc t (numbers a) = Num (loc t a).
Proof.
  induction a as [| [k v] a IH]; simpl; [reflexivity |].
  destruct (String.eqb t k); [reflexivity | exact IH].
Qed.

Lemma py_sum_from (l : list Qc) (acc : Qc) :
  fold_left xadd (map Num l) (Num acc) = Num (acc + qsum l).
Proof.
  revert acc. induction l as [| v l IH]; intros acc; simpl.
  - f_equal. ring.
  - rewrite IH. f_equal. ring.
Qed.

Lemma py_sum_numbers (l : list Qc) : py_sum (map Num l) = Num (qsum l).
Proof. unfold py_sum. rewrite py_sum_from. f_equal. ring. Qed.

Lemma pd_sum_numbers (a : Series) :
  pd_sum (xvalues (numbers a)) = Num (qsum (values a)).
Proof.
  unfold pd_sum, xvalues, numbers, values. rewrite map_map. simpl.
  rewrite <- (map_map snd Num). rewrite <- py_sum_numbers. f_equal.
  induction (map snd a) as [| v l IH]; simpl; [reflexivity |].
  rewrite IH. reflexivity.
Qed.

Lemma sector_present_numbers (sector : list string) (a : Series) :
  UsPortfolioAllocation.sector_present sector (numbers a)
  = filter (fun t => in_index t a) sector.
Proof.
  unfold UsPortfolioAllocation.sector_present. apply filter_ext.
  intros t. apply xin_index_numbers.
Qed.

Lemma sector_total_numbers (sector : list string) (a : Series) :
  UsPortfolioAllocation.sector_total sector (numbers a)
  = Num (OnNumbers.sector_total sector a).
Proof.
  unfold UsPortfolioAllocation.sector_total, OnNumbers.sector_total.
  rewrite sector_present_numbers, <- py_sum_numbers, map_map. f_equal.
  apply map_ext. intros t. apply xloc_numbers.
Qed.

Lemma xset_loc_numbers (t : string) (f : Qc) (a : Series) :
  xset_loc t (fun v => xmul v (Num f)) (numbers a)
  = numbers (set_loc t (fun v => v * f) a).
Proof.
  induction a as [| [k v] a IH]; simpl; [reflexivity |].
  destruct (String.eqb t k); simpl; [reflexivity |].
  rewrite IH. reflexivity.
Qed.

Lemma scale_sector_numbers (sector : list string) (f : Qc) (a : Series) :
  UsPortfolioAllocation.scale_sector sector (Num f) (numbers a)
  = numbers (OnNumbers.scale_sector sector f a).
Proof.
  unfold UsPortfolioAllocation.scale_sector, OnNumbers.scale_sector. revert a.
  induction sector as [| t sector IH]; intros a; simpl; [reflexivity |].
  rewrite xin_index_numbers. destruct (in_index t a); [| apply IH].
  rewrite xset_loc_numbers. apply IH.
Qed.

Lemma zero_below_min_numbers (min_amount : Qc) (a : Series) :
  UsPortfolioAllocation.zero_below_min min_amount (numbers a)
  = (numbers (fst (OnNumbers.zero_below_min min_amount a)),
     snd (OnNumbers.zero_below_min min_amount a)).
Proof.
  unfold UsPortfolioAllocation.zero_below_min, OnNumbers.zero_below_min.
  simpl. f_equal.
  - unfold numbers. rewrite !map_map. apply map_ext. intros [k v]. simpl.
    change (UsPortfolioAllocation.below_min min_amount (Num v))
      with (OnNumbers.below_min min_amount v).
    destruct (OnNumbers.below_min min_amount v); reflexivity.
  - unfold numbers. rewrite existsb_mapped. reflexivity.
Qed.

Lemma cap_above_max_numbers (max_amount : Qc) (a : Series) :
  UsPortfolioAllocation.cap_above_max max_amount (numbers a)
  = (numbers (fst (OnNumbers.cap_above_max max_amount a)),
     snd (OnNumbers.cap_above_max max_amount a)).
Proof.
  unfold UsPortfolioAllocation.cap_above_max, OnNumbers.cap_above_max.
  simpl. f_equal.
  - unfold numbers. rewrite !map_map. apply map_ext. intros [k v]. simpl.
    change (UsPortfolioAllocation.above_max max_amount (Num v))
      with (OnNumbers.above_max max_amount v).
    destruct (OnNumbers.above_max max_amount v); reflexivity.
  - unfold numbers. rewrite existsb_mapped. reflexivity.
Qed.

Section Pass.

Variables total_capital min_amount max_amount sector_cap_amount : Qc.

Hypothesis cap_nonneg : 0 <= sector_cap_amount.

Lemma cap_sector_numbers (sector : list string) (a : Series) :
  UsPortfolioAllocation.cap_sector sector_cap_amount sector (numbers a)
  = Returned (numbers (fst (OnNumbers.cap_sector sector_cap_amount sector a)),
              snd (OnNumbers.cap_sector sector_cap_amount sector a)).
Proof.
  unfold UsPortfolioAllocation.cap_sector, OnNumbers.cap_sector.
  rewrite sector_total_numbers.
  change (xlt (Num sector_cap_amount) (Num (OnNumbers.sector_total sector a)))
    with (Qc_ltb sector_cap_amount (OnNumbers.sector_total sector a)).
  destruct (Qc_ltb sector_cap_amount (OnNumbers.sector_total sector a)) eqn:E;
    [| reflexivity].
  apply Qc_ltb_true in E.
  assert (Hpos : 0 < OnNumbers.sector_total sector a)
    by exact (Qcle_lt_trans _ _ _ cap_nonneg E).
  rewrite sector_present_numbers.
  destruct (filter (fun t => in_index t a) sector) as [| t present] eqn:Ep.
  - exfalso. unfold OnNumbers.sector_total in Hpos. rewrite Ep in Hpos.
    simpl in Hpos. discriminate Hpos.
  - simpl. unfold xdiv.
    destruct (Qc_eqb (OnNumbers.sector_total sector a) 0) eqn:Ez.
    + apply Qc_eqb_true in Ez. rewrite Ez in Hpos. discriminate Hpos.
    + rewrite scale_sector_numbers. reflexivity.
Qed.

Lemma cap_sectors_numbers (sectors : list (list string)) :
  forall (a : Series) (ch : bool),
    UsPortfolioAllocation.cap_sectors sector_cap_amount sectors (numbers a) ch
    = let r := fold_left
                 (fun st sector =>
                    let '(a', c) :=
                      OnNumbers.cap_sector sector_cap_amount sector (fst st) in
                    (a', snd st || c))
                 sectors (a, ch) in
      Returned (numbers (fst r), snd r).
Proof.
  induction sectors as [| s sectors IH]; intros a ch; [reflexivity |].
  cbn [UsPortfolioAllocation.cap_sectors fold_left fst snd].
  rewrite cap_sector_numbers.
  destruct (OnNumbers.cap_sector sector_cap_amount s a) as [a' c].
  cbn [fst snd]. apply IH.
Qed.

Lemma renormalize_guard (s : Qc) :
  xlt (Num 1) (xabs (xsub (Num s) (Num total_capital)))
  = Qc_ltb 1 (qabs (s - total_capital)).
Proof. reflexivity. Qed.

Lemma renormalize_numbers (a a' : Series) (c : bool) :
  OnNumbers.renormalize total_capital a = Some (a', c) ->
  UsPortfolioAllocation.renormalize total_capital (numbers a)
  = (numbers a', c).
Proof.
  unfold OnNumbers.renormalize, UsPortfolioAllocation.renormalize.
  rewrite pd_sum_numbers, renormalize_guard.
  destruct (Qc_ltb 1 (qabs (qsum (values a) - total_capital)));
    [| intros [= <- <-]; reflexivity].
  unfold scale_by_quotient. destruct a as [| kv rest] eqn:Ea.
  - intros [= <- <-]. reflexivity.
  - rewrite <- Ea. unfold fdiv, xdiv.
    destruct (Qc_eqb (qsum (values a)) 0); [discriminate |].
    simpl. intros [= <- <-]. f_equal.
    unfold numbers, scale. rewrite !map_map. reflexivity.
Qed.

Lemma nonneg_sum_zero (l : list Qc) :
  Forall (fun v => 0 <= v) l -> qsum l = 0 -> Forall (fun v => v = 0) l.
Proof.
  induction 1 as [| v l Hv Hl IH]; simpl; intros Hs; [constructor |].
  pose proof (qsum_nonneg l Hl) as Hq.
  assert (E : v = 0 /\ qsum l = 0).
  { split; apply Qcle_antisym; try assumption.
    - rewrite <- Hs. qc_lra.
    - rewrite <- Hs. qc_lra. }
  destruct E as [Ev El]. constructor; [exact Ev | exact (IH El)].
Qed.

Hypothesis capital_pos : 0 < total_capital.

Lemma renormalize_zero_total (a : Series) :
  nonneg a ->
  OnNumbers.renormalize total_capital a = None ->
  UsPortfolioAllocation.renormalize total_capital (numbers a)
  = (nan_series (index a), true) /\
  Qc_ltb 1 (qabs (0 - total_capital)) = true.
Proof.
  intros Ha. unfold OnNumbers.renormalize, UsPortfolioAllocation.renormalize.
  rewrite pd_sum_numbers, renormalize_guard.
  destruct (Qc_ltb 1 (qabs (qsum (values a) - total_capital))) eqn:G;
    [| discriminate].
  unfold scale_by_quotient. destruct a as [| kv rest] eqn:Ea; [discriminate |].
  rewrite <- Ea in *. unfold fdiv.
  destruct (Qc_eqb (qsum (values a)) 0) eqn:Ez; [| discriminate].
  intros _. apply Qc_eqb_true in Ez. rewrite Ez in G. split; [| exact G].
  f_equal. rewrite Ez. unfold xdiv.
  replace (Qc_eqb 0 0) with true by reflexivity.
  unfold inf_of_sign. apply Qc_ltb_true in capital_pos. rewrite capital_pos.
  pose proof (nonneg_sum_zero _ Ha Ez) as Hz. clear -Hz.
  unfold numbers, nan_series, index, values in *. rewrite !map_map.
  rewrite Forall_map in Hz. rewrite Forall_forall in Hz.
  apply map_ext_in. intros [k v] Hin. specialize (Hz _ Hin). simpl in *.
  subst v. reflexivity.
Qed.

Hypothesis max_nonneg : 0 <= max_amount.

(** A pass on numbers, in the embedding: the same pass as long as it stays
    within the numbers; a Series of NaN when, with non-negative positions,
    it renormalises a total of zero. *)
Lemma constraint_pass_numbers (a : Series) :
  nonneg a ->
  UsPortfolioAllocation.constraint_pass total_capital min_amount max_amount
    sector_cap_amount (numbers a)
  = match OnNumbers.constraint_pass total_capital min_amount max_amount
            sector_cap_amount a with
    | Some (a', c) => Returned (numbers a', c)
    | None => Returned (nan_series (index a), true)
    end.
Proof.
  intros Ha.
  unfold UsPortfolioAllocation.constraint_pass, OnNumbers.constraint_pass.
  rewrite zero_below_min_numbers.
  pose proof (nonneg_zero_below_min min_amount a Ha) as N1.
  pose proof (keeps_tickers_zero_below_min min_amount a) as K1.
  destruct (OnNumbers.zero_below_min min_amount a) as [a1 c1].
  cbn [fst snd] in *. rewrite cap_above_max_numbers.
  pose proof (nonneg_cap_above_max max_amount max_nonneg a1 N1) as N2.
  pose proof (keeps_tickers_cap_above_max max_amount max_nonneg a1) as K2.
  destruct (OnNumbers.cap_above_max max_amount a1) as [a2 c2].
  cbn [fst snd] in *. rewrite cap_sectors_numbers. cbv zeta.
  fold (OnNumbers.cap_sectors sector_cap_amount
          UsPortfolioAllocation.capped_sectors a2).
  pose proof (nonneg_cap_sectors_fold sector_cap_amount cap_nonneg
                UsPortfolioAllocation.capped_sectors a2 false N2) as N3.
  pose proof (keeps_tickers_cap_sectors sector_cap_amount
                UsPortfolioAllocation.capped_sectors a2 false) as K3.
  fold (OnNumbers.cap_sectors sector_cap_amount
          UsPortfolioAllocation.capped_sectors a2) in N3, K3.
  destruct (OnNumbers.cap_sectors sector_cap_amount
              UsPortfolioAllocation.capped_sectors a2) as [a3 c3].
  cbn [fst snd] in *.
  destruct (OnNumbers.renormalize total_capital a3) as [[a4 c4] |] eqn:E4.
  - rewrite (renormalize_numbers _ _ _ E4). reflexivity.
  - destruct (renormalize_zero_total a3 N3 E4) as [-> _].
    rewrite (keeps_tickers_index _ _ K3), (keeps_tickers_index _ _ K2),
      (keeps_tickers_index _ _ K1).
    rewrite !orb_true_r. reflexivity.
Qed.

End Pass.


(** *** Once every position is NaN *)

Lemma fold_xadd_nan (l : list xnum) : fold_left xadd l NaN = NaN.
Proof.
  induction l as [| v l IH]; simpl; [reflexivity |].
  destruct v; exact IH.
Qed.

Lemma xindex_nan_series (l : list string) : xindex (nan_series l) = l.
Proof. unfold xindex, nan_series. rewrite map_map. apply map_id. Qed.

Lemma xloc_nan_series (t : string) (l : list string) :
  xin_index t (nan_series l) = true -> xloc t (nan_series l) = NaN.
Proof.
  unfold xin_index. rewrite xindex_nan_series.
  induction l as [| k l IH]; simpl; [discriminate |].
  destruct (String.eqb t k); [reflexivity | exact IH].
Qed.

Section Nan.

Variables total_capital min_amount max_amount sector_cap_amount : Qc.

Hypothesis cap_nonneg : 0 <= sector_cap_amount.
Hypothesis guard : Qc_ltb 1 (qabs (0 - total_capital)) = true.

Lemma zero_below_min_nan (l : list string) :
  UsPortfolioAllocation.zero_below_min min_amount (nan_series l)
  = (nan_series l, false).
Proof.
  unfold UsPortfolioAllocation.zero_below_min, nan_series. f_equal.
  - rewrite map_map. reflexivity.
  - induction l as [| k l IH]; simpl; [reflexivity | exact IH].
Qed.

Lemma cap_above_max_nan (l : list string) :
  UsPortfolioAllocation.cap_above_max max_amount (nan_series l)
  = (nan_series l, false).
Proof.
  unfold UsPortfolioAllocation.cap_above_max, nan_series. f_equal.
  - rewrite map_map. reflexivity.
  - induction l as [| k l IH]; simpl; [reflexivity | exact IH].
Qed.

Lemma sector_total_nan (sector l : list string) :
  xlt (Num sector_cap_amount)
      (UsPortfolioAllocation.sector_total sector (nan_series l)) = false.
Proof.
  unfold UsPortfolioAllocation.sector_total,
    UsPortfolioAllocation.sector_present.
  assert (H : forall t,
             In t (filter (fun t => xin_index t (nan_series l)) sector) ->
             xloc t (nan_series l) = NaN).
  { intros t Hin. apply filter_In in Hin as [_ Hin].
    apply xloc_nan_series, Hin. }
  destruct (filter (fun t => xin_index t (nan_series l)) sector)
    as [| t present].
  - simpl. apply Qc_ltb_false. exact cap_nonneg.
  - unfold py_sum. cbn [map fold_left]. rewrite (H t (or_introl eq_refl)).
    cbn [xadd]. rewrite fold_xadd_nan. reflexivity.
Qed.

Lemma cap_sectors_nan (sectors : list (list string)) (l : list string)
  (ch : bool) :
  UsPortfolioAllocation.cap_sectors sector_cap_amount sectors (nan_series l) ch
  = Returned (nan_series l, ch).
Proof.
  revert ch. induction sectors as [| s sectors IH]; intros ch; [reflexivity |].
  cbn [UsPortfolioAllocation.cap_sectors].
  unfold UsPortfolioAllocation.cap_sector. rewrite sector_total_nan.
  rewrite IH, orb_false_r. reflexivity.
Qed.

Lemma pd_sum_nan (l : list string) : pd_sum (xvalues (nan_series l)) = Num 0.
Proof.
  unfold pd_sum, xvalues, nan_series. rewrite map_map. simpl.
  induction l as [| k l IH]; simpl; [reflexivity | exact IH].
Qed.

Lemma renormalize_nan (l : list string) :
  UsPortfolioAllocation.renormalize total_capital (nan_series l)
  = (nan_series l, true).
Proof.
  unfold UsPortfolioAllocation.renormalize. rewrite pd_sum_nan.
  rewrite renormalize_guard, guard. f_equal.
  unfold nan_series. rewrite map_map. reflexivity.
Qed.

Lemma constraint_pass_nan (l : list string) :
  UsPortfolioAllocation.constraint_pass total_capital min_amount max_amount
    sector_cap_amount (nan_series l)
  = Returned (nan_series l, true).
Proof.
  unfold UsPortfolioAllocation.constraint_pass.
  rewrite zero_below_min_nan, cap_above_max_nan, cap_sectors_nan,
    renormalize_nan. reflexivity.
Qed.

Lemma xconstraint_loop_S (n done : nat) (a : XSeries) :
  UsPortfolioAllocation.constraint_loop total_capital min_amount max_amount
    sector_cap_amount (S n) done a
  = match UsPortfolioAllocation.constraint_pass total_capital min_amount
            max_amount sector_cap_amount a with
    | Returned (a', true) =>
        UsPortfolioAllocation.constraint_loop total_capital min_amount
          max_amount sector_cap_amount n (S done) a'
    | Returned (a', false) =>
        Returned {| UsPortfolioAllocation.exit_allocation := a';
                    UsPortfolioAllocation.passes_run := S done;
                    UsPortfolioAllocation.converged := true |}
    | Raised e => Raised e
    | NonFinite => NonFinite
    end.
Proof. reflexivity. Qed.

(** A Series of NaN stays one, and every pass reports a change: the loop
    runs into its bound. *)
Lemma constraint_loop_nan (n : nat) :
  forall (done : nat) (l : list string),
    UsPortfolioAllocation.constraint_loop total_capital min_amount max_amount
      sector_cap_amount n done (nan_series l)
    = Returned {| UsPortfolioAllocation.exit_allocation := nan_series l;
                  UsPortfolioAllocation.passes_run := (done + n)%nat;
                  UsPortfolioAllocation.converged := false |}.
Proof.
  induction n as [| n IH]; intros done l.
  - rewrite Nat.add_0_r. reflexivity.
  - rewrite xconstraint_loop_S, constraint_pass_nan, IH.
    rewrite Nat.add_succ_r. reflexivity.
Qed.

End Nan.

(** *** The loop on numbers and the loop of the embedding *)

Section Loop.

Variables total_capital min_amount max_amount sector_cap_amount : Qc.

Hypothesis cap_nonneg : 0 <= sector_cap_amount.
Hypothesis capital_pos : 0 < total_capital.
Hypothesis max_nonneg : 0 <= max_amount.

Lemma constraint_pass_none (a : Series) :
  nonneg a ->
  OnNumbers.constraint_pass total_capital min_amount max_amount
    sector_cap_amount a = None ->
  Qc_ltb 1 (qabs (0 - total_capital)) = true.
Proof.
  intros Ha. unfold OnNumbers.constraint_pass.
  pose proof (nonneg_zero_below_min min_amount a Ha) as N1.
  destruct (OnNumbers.zero_below_min min_amount a) as [a1 c1].
  cbn [fst snd] in *.
  pose proof (nonneg_cap_above_max max_amount max_nonneg a1 N1) as N2.
  destruct (OnNumbers.cap_above_max max_amount a1) as [a2 c2].
  cbn [fst snd] in *.
  pose proof (nonneg_cap_sectors_fold sector_cap_amount cap_nonneg
                UsPortfolioAllocation.capped_sectors a2 false N2) as N3.
  fold (OnNumbers.cap_sectors sector_cap_amount
          UsPortfolioAllocation.capped_sectors a2) in N3.
  destruct (OnNumbers.cap_sectors sector_cap_amount
              UsPortfolioAllocation.capped_sectors a2) as [a3 c3].
  cbn [fst snd] in *.
  destruct (OnNumbers.renormalize total_capital a3) as [[a4 c4] |] eqn:E4;
    [discriminate |].
  intros _. eapply proj2, renormalize_zero_total; eassumption.
Qed.

(** The loop of the embedding on numbers: the loop on numbers as long as it
    stays within the numbers; from the pass that renormalises a total of
    zero on, every position is NaN and the loop runs into its bound. *)
Lemma constraint_loop_numbers (n : nat) :
  forall (done : nat) (a : Series),
    nonneg a ->
    UsPortfolioAllocation.constraint_loop total_capital min_amount max_amount
      sector_cap_amount n done (numbers a)
    = match OnNumbers.constraint_loop total_capital min_amount max_amount
              sector_cap_amount n done a with
      | Some e => Returned (exit_of_numbers e)
      | None =>
          Returned {| UsPortfolioAllocation.exit_allocation :=
                        nan_series (index a);
                      UsPortfolioAllocation.passes_run := (done + n)%nat;
                      UsPortfolioAllocation.converged := false |}
      end.
Proof.
  induction n as [| n IH]; intros done a Ha; [reflexivity |].
  rewrite xconstraint_loop_S, constraint_loop_S.
  rewrite (constraint_pass_numbers total_capital min_amount max_amount
             sector_cap_amount cap_nonneg capital_pos max_nonneg a Ha).
  destruct (OnNumbers.constraint_pass total_capital min_amount max_amount
              sector_cap_amount a) as [[a' [|]] |] eqn:E.
  - rewrite (IH (S done) a'
               (nonneg_constraint_pass total_capital min_amount max_amount
                  sector_cap_amount max_nonneg cap_nonneg
                  (Qclt_le_weak _ _ capital_pos) a a' true Ha E)).
    rewrite (keeps_tickers_index _ _
               (keeps_tickers_constraint_pass total_capital min_amount
                  max_amount sector_cap_amount max_nonneg a a' true E)).
    rewrite Nat.add_succ_r. reflexivity.
  - reflexivity.
  - rewrite (constraint_loop_nan total_capital min_amount max_amount
               sector_cap_amount cap_nonneg (constraint_pass_none a Ha E)).
    rewrite Nat.add_succ_r. reflexivity.
Qed.

End Loop.

Lemma numbers_scaled (c : Qc) (w : Series) :
  map (fun kv => (fst kv, xmul (snd kv) (Num c))) (numbers w)
  = numbers (scale c w).
Proof. unfold numbers, scale. rewrite !map_map. reflexivity. Qed.

Lemma SECTOR_CAP_PCT_pos : 0 < UsPortfolioAllocation.SECTOR_CAP_PCT.
Proof. vm_compute. reflexivity. Qed.

(** [apply_constraints] is the loop run for at most 100 passes on the dollar
    amounts, with the three thresholds in dollars. *)
Lemma apply_constraints_loop_eq (total_capital : Qc) (weights : XSeries)
  (minp maxp : Qc) :
  UsPortfolioAllocation.constraint_loop total_capital
    (total_capital * minp) (total_capital * maxp)
    (total_capital * UsPortfolioAllocation.SECTOR_CAP_PCT) 100 0
    (map (fun kv => (fst kv, xmul (snd kv) (Num total_capital))) weights)
  = UsPortfolioAllocation.apply_constraints_loop total_capital weights minp maxp.
Proof.
  exact (@eq_refl _
           (UsPortfolioAllocation.apply_constraints_loop total_capital weights
              minp maxp)).
Qed.

(** The loop of [apply_constraints] on weights that are numbers and not
    negative, for a positive capital. *)
Lemma apply_constraints_loop_numbers (total_capital : Qc) (weights : Series)
  (minp maxp : Qc) :
  0 < total_capital -> 0 <= maxp -> nonneg weights ->
  UsPortfolioAllocation.apply_constraints_loop total_capital (numbers weights)
    minp maxp
  = match OnNumbers.constraint_loop total_capital
            (total_capital * minp) (total_capital * maxp)
            (total_capital * UsPortfolioAllocation.SECTOR_CAP_PCT) 100 0
            (scale total_capital weights) with
    | Some e => Returned (exit_of_numbers e)
    | None =>
        Returned {| UsPortfolioAllocation.exit_allocation :=
                      nan_series (index weights);
                    UsPortfolioAllocation.passes_run := 100;
                    UsPortfolioAllocation.converged := false |}
    end.
Proof.
  intros Hc Hmax Hw.
  rewrite <- apply_constraints_loop_eq, numbers_scaled.
  assert (Hcap : 0 <= total_capital * UsPortfolioAllocation.SECTOR_CAP_PCT).
  { apply Qcmult_nonneg; apply Qclt_le_weak;
      [exact Hc | exact SECTOR_CAP_PCT_pos]. }
  assert (Hmaxa : 0 <= total_capital * maxp).
  { apply Qcmult_nonneg; [apply Qclt_le_weak, Hc | exact Hmax]. }
  assert (H0 : nonneg (scale total_capital weights)).
  { apply nonneg_scale; [apply Qclt_le_weak, Hc | exact Hw]. }
  rewrite (constraint_loop_numbers total_capital (total_capital * minp)
             (total_capital * maxp)
             (total_capital * UsPortfolioAllocation.SECTOR_CAP_PCT)
             Hcap Hc Hmaxa 100 0 (scale total_capital weights) H0).
  rewrite index_scale. reflexivity.
Qed.

End NumbersFacts.

(** ** apply_constraints on weights that need neither cap *)

Module WithinCapsFacts.
Import ApplyConstraintsFacts.

Lemma Qc_ltb_scaled (x y c : Qc) :
  0 < c -> Qc_ltb (x * c) (y * c) = Qc_ltb x y.
Proof.
  intros Hc. destruct (Qc_ltb x y) eqn:E.
  - apply Qc_ltb_true in E. apply Qc_ltb_true.
    apply Qcmult_lt_compat_r; assumption.
  - apply Qc_ltb_false in E. apply Qc_ltb_false.
    apply Qcmult_le_compat_r; [assumption | apply Qclt_le_weak, Hc].
Qed.

Lemma below_min_scaled (c minp v : Qc) :
  0 < c -> OnNumbers.below_min (c * minp) (v * c) = under_floor minp v.
Proof.
  intros Hc. unfold OnNumbers.below_min, under_floor.
  replace 0 with (0 * c) at 1 by ring.
  rewrite (Qcmult_comm c minp), !Qc_ltb_scaled by exact Hc. reflexivity.
Qed.

Lemma zero_below_min_scaled (c minp : Qc) (w : Series) :
  0 < c ->
  OnNumbers.zero_below_min (c * minp) (scale c w)
  = (scale c (kept_weights minp w), existsb (under_floor minp) (values w)).
Proof.
  intros Hc. unfold OnNumbers.zero_below_min, scale, kept_weights, values.
  f_equal.
  - rewrite !map_map. apply map_ext. intros [k v]. simpl.
    rewrite below_min_scaled by exact Hc.
    destruct (under_floor minp v); simpl; [| reflexivity].
    f_equal. ring.
  - rewrite !existsb_mapped. apply existsb_pointwise. intros [k v].
    simpl. apply below_min_scaled, Hc.
Qed.

Lemma in_index_scale (t : string) (c : Qc) (a : Series) :
  in_index t (scale c a) = in_index t a.
Proof. unfold in_index. rewrite index_scale. reflexivity. Qed.

Lemma loc_scale (t : string) (c : Qc) (a : Series) :
  loc t (scale c a) = loc t a * c.
Proof.
  induction a as [| [k v] a IH]; simpl; [ring |].
  destruct (String.eqb t k); [reflexivity | exact IH].
Qed.

Lemma sector_total_scale (sector : list string) (c : Qc) (a : Series) :
  OnNumbers.sector_total sector (scale c a)
  = OnNumbers.sector_total sector a * c.
Proof.
  unfold OnNumbers.sector_total.
  rewrite (filter_ext _ _ (fun t => in_index_scale t c a)).
  rewrite <- qsum_scaled, map_map. f_equal. apply map_ext. intros t.
  apply loc_scale.
Qed.

Lemma cap_above_max_fixed (max_amount : Qc) (a : Series) :
  Forall (fun v => v <= max_amount) (values a) ->
  OnNumbers.cap_above_max max_amount a = (a, false).
Proof.
  intros H. rewrite (surjective_pairing (OnNumbers.cap_above_max max_amount a)).
  f_equal; [apply cap_above_max_unchanged | apply cap_above_max_quiet];
    exact H.
Qed.

(** *** The weights that the floor leaves *)

Lemma index_kept_weights (minp : Qc) (w : Series) :
  index (kept_weights minp w) = index w.
Proof.
  unfold index, kept_weights. rewrite map_map. apply map_ext. intros [k v].
  simpl. destruct (under_floor minp v); reflexivity.
Qed.

Lemma nonneg_kept_weights (minp : Qc) (w : Series) :
  nonneg w -> nonneg (kept_weights minp w).
Proof.
  unfold nonneg, kept_weights, values. rewrite map_map, !Forall_map.
  intros H. eapply Forall_impl; [| exact H]. intros [k v] Hv. simpl in *.
  destruct (under_floor minp v); simpl; [apply Qcle_refl | exact Hv].
Qed.

Lemma kept_weights_total (minp : Qc) (w : Series) :
  nonneg w -> qsum (values (kept_weights minp w)) <= qsum (values w).
Proof.
  unfold nonneg, kept_weights, values. rewrite map_map.
  induction w as [| [k v] w IH]; intros H; [apply Qcle_refl |].
  inversion H as [| ? ? Hv Hw]; subst. specialize (IH Hw).
  cbn [map qsum fold_right snd fst] in *.
  destruct (under_floor minp v); cbn [snd].
  - apply Qcplus_le_compat; assumption.
  - apply Qcplus_le_compat; [apply Qcle_refl | assumption].
Qed.

Lemma kept_weights_floor (minp : Qc) (w : Series) :
  Forall (fun v => under_floor minp v = false) (values (kept_weights minp w)).
Proof.
  unfold kept_weights, values. rewrite map_map, Forall_map.
  apply Forall_forall. intros [k v] _. simpl.
  destruct (under_floor minp v) eqn:E; simpl; [reflexivity | exact E].
Qed.

Lemma kept_weights_all (minp : Qc) (w : Series) :
  existsb (under_floor minp) (values w) = false -> kept_weights minp w = w.
Proof.
  unfold kept_weights, values.
  induction w as [| [k v] w IH]; simpl; [reflexivity |].
  intros H. apply orb_false_iff in H as [Hv Hw]. rewrite Hv, (IH Hw).
  reflexivity.
Qed.

Lemma qsum_pos_exists (l : list Qc) : 0 < qsum l -> Exists (fun v => 0 < v) l.
Proof.
  induction l as [| v l IH]; simpl; intros H; [discriminate H |].
  destruct (Qclt_le_dec 0 v) as [Hv | Hv]; [left; exact Hv |].
  right. apply IH. qc_lra.
Qed.

(** *** The arithmetic of a rescaling by the inverse of the total *)

Lemma Qcdiv_pos (x y : Qc) : 0 < x -> 0 < y -> 0 < x / y.
Proof.
  intros Hx Hy. unfold Qcdiv.
  replace 0 with (0 * / y) by ring.
  apply Qcmult_lt_compat_r; [apply Qcinv_pos, Hy | exact Hx].
Qed.

Lemma unscaled_le (v m s c : Qc) :
  0 <= c -> 0 <= m -> s <= 1 -> v <= m * s -> v * c <= c * m.
Proof.
  intros Hc Hm Hs Hv. rewrite (Qcmult_comm c m).
  apply Qcmult_le_compat_r; [| exact Hc].
  eapply Qcle_trans; [exact Hv |].
  replace m with (m * 1) at 2 by ring.
  rewrite !(Qcmult_comm m). apply Qcmult_le_compat_r; assumption.
Qed.

Lemma rescaled_le (v m s c f : Qc) :
  0 <= c -> 0 <= f -> s * f = 1 -> v <= m * s -> v * c * f <= c * m.
Proof.
  intros Hc Hf Hsf Hv.
  replace (c * m) with ((m * s) * (c * f))
    by (transitivity (c * m * (s * f)); [ring | rewrite Hsf; ring]).
  replace (v * c * f) with (v * (c * f)) by ring.
  apply Qcmult_le_compat_r; [exact Hv | apply Qcmult_nonneg; assumption].
Qed.

Lemma unscaled_floor (v mn c : Qc) :
  0 < c -> under_floor mn v = false ->
  ~ (0 < v * c /\ v * c < c * mn).
Proof.
  intros Hc H. apply below_min_false. rewrite below_min_scaled by exact Hc.
  exact H.
Qed.

Lemma rescaled_floor (v mn c f : Qc) :
  0 < c -> 1 <= f -> 0 <= v -> under_floor mn v = false ->
  ~ (0 < v * c * f /\ v * c * f < c * mn).
Proof.
  intros Hc Hf Hv H [P1 P2].
  assert (Hvc : 0 <= v * c)
    by (apply Qcmult_nonneg; [exact Hv | apply Qclt_le_weak, Hc]).
  assert (Hup : v * c <= v * c * f).
  { replace (v * c) with (1 * (v * c)) at 1 by ring.
    rewrite (Qcmult_comm (v * c) f).
    apply Qcmult_le_compat_r; assumption. }
  destruct (unscaled_floor v mn c Hc H). split.
  - destruct (Qcle_lt_or_eq _ _ Hvc) as [L | L]; [exact L |].
    exfalso. rewrite <- L in P1. rewrite Qcmult_0_l in P1. discriminate P1.
  - exact (Qcle_lt_trans _ _ _ Hup P2).
Qed.

Lemma settled_meets_constraints (total_capital minp maxp : Qc) (a : Series) :
  nonneg a ->
  settled total_capital (total_capital * minp) (total_capital * maxp)
          (total_capital * UsPortfolioAllocation.SECTOR_CAP_PCT) a ->
  meets_constraints total_capital minp maxp a.
Proof.
  intros Ha (F1 & F2 & F3 & F4). split; [| split; assumption].
  unfold nonneg in Ha. rewrite Forall_forall in Ha, F1, F2 |- *. intros v Hv.
  specialize (Ha v Hv). specialize (F1 v Hv). specialize (F2 v Hv).
  destruct (Qcle_lt_or_eq _ _ Ha) as [L | L]; [| left; symmetry; exact L].
  right. split; [| exact F2].
  destruct (Qclt_le_dec v (total_capital * minp)) as [B | B]; [| exact B].
  exfalso. apply F1. split; assumption.
Qed.

Section WithinCaps.

Variables total_capital minp maxp : Qc.
Variable w : Series.

Hypothesis capital_pos : 0 < total_capital.
Hypothesis w_nonneg : nonneg w.
Hypothesis w_total : qsum (values w) = 1.
Hypothesis w_fits : within_caps minp maxp w.

Local Abbreviation kept := (kept_weights minp w).
Local Abbreviation remaining := (qsum (values (kept_weights minp w))).
Local Abbreviation cap_pct := UsPortfolioAllocation.SECTOR_CAP_PCT.

Lemma remaining_pos : 0 < remaining.
Proof. exact (proj1 w_fits). Qed.

Lemma remaining_le : remaining <= 1.
Proof. rewrite <- w_total. apply kept_weights_total, w_nonneg. Qed.

Lemma maxp_nonneg : 0 <= maxp.
Proof.
  destruct w_fits as (Hs & Hmax & _).
  apply qsum_pos_exists in Hs. apply Exists_exists in Hs as (v & Hin & Hv).
  rewrite Forall_forall in Hmax. specialize (Hmax v Hin).
  destruct (Qclt_le_dec maxp 0) as [L | L]; [| exact L].
  exfalso.
  assert (H : maxp * remaining < 0).
  { replace 0 with (0 * remaining) by ring.
    apply Qcmult_lt_compat_r; [exact remaining_pos | exact L]. }
  qc_lra.
Qed.

(** What the first pass leaves when it does not renormalise. *)
Lemma settled_kept :
  qabs (remaining * total_capital - total_capital) <= 1 ->
  settled total_capital (total_capital * minp) (total_capital * maxp)
    (total_capital * cap_pct) (scale total_capital kept).
Proof.
  intros Hq. destruct w_fits as (_ & Hmax & Hsec).
  pose proof (Qclt_le_weak _ _ capital_pos) as Hc.
  split; [| split; [| split]].
  - unfold scale, values. rewrite map_map, Forall_map. simpl.
    pose proof (kept_weights_floor minp w) as Hf. unfold values in Hf.
    rewrite Forall_map in Hf. eapply Forall_impl; [| exact Hf].
    intros [k v] Hv. simpl in *. apply unscaled_floor; assumption.
  - unfold scale, values. rewrite map_map, Forall_map. simpl.
    unfold values in Hmax. rewrite Forall_map in Hmax.
    eapply Forall_impl; [| exact Hmax]. intros [k v] Hv. simpl in *.
    exact (unscaled_le _ _ _ _ Hc maxp_nonneg remaining_le Hv).
  - eapply Forall_impl; [| exact Hsec]. intros s Hs. simpl in Hs.
    rewrite sector_total_scale.
    exact (unscaled_le _ _ _ _ Hc (Qclt_le_weak _ _ NumbersFacts.SECTOR_CAP_PCT_pos)
             remaining_le Hs).
  - rewrite qsum_scale. exact Hq.
Qed.

(** What the first pass leaves when it renormalises. *)
Lemma settled_rescaled :
  settled total_capital (total_capital * minp) (total_capital * maxp)
    (total_capital * cap_pct)
    (scale (total_capital / (remaining * total_capital))
           (scale total_capital kept)).
Proof.
  destruct w_fits as (_ & Hmax & Hsec).
  pose proof (Qclt_le_weak _ _ capital_pos) as Hc.
  pose proof remaining_pos as Hs. pose proof remaining_le as Hs1.
  assert (Hnz : remaining * total_capital <> 0).
  { intros E.
    assert (P : 0 < remaining * total_capital).
    { replace 0 with (0 * total_capital) by ring.
      apply Qcmult_lt_compat_r; assumption. }
    rewrite E in P. discriminate P. }
  assert (Hrnz : remaining <> 0).
  { intros E. rewrite E in Hs. discriminate Hs. }
  assert (Hcnz : total_capital <> 0).
  { intros E. rewrite E in capital_pos. discriminate capital_pos. }
  set (f := total_capital / (remaining * total_capital)).
  assert (Hsf : remaining * f = 1).
  { unfold f. field. split; assumption. }
  assert (Hf : 0 < f).
  { unfold f. apply Qcdiv_pos; [exact capital_pos |].
    replace 0 with (0 * total_capital) by ring.
    apply Qcmult_lt_compat_r; assumption. }
  assert (Hf1 : 1 <= f).
  { rewrite <- Hsf. replace f with (1 * f) at 2 by ring.
    apply Qcmult_le_compat_r; [exact Hs1 | apply Qclt_le_weak, Hf]. }
  split; [| split; [| split]].
  - unfold scale, values. rewrite !map_map, Forall_map. simpl.
    pose proof (kept_weights_floor minp w) as Hfl. unfold values in Hfl.
    rewrite Forall_map in Hfl.
    pose proof (nonneg_kept_weights minp w w_nonneg) as Hnn.
    unfold nonneg, values in Hnn. rewrite Forall_map in Hnn.
    rewrite Forall_forall in Hfl, Hnn |- *. intros [k v] Hin. simpl.
    apply rescaled_floor; try assumption.
    + exact (Hnn _ Hin).
    + exact (Hfl _ Hin).
  - unfold scale, values. rewrite !map_map, Forall_map. simpl.
    unfold values in Hmax. rewrite Forall_map in Hmax.
    eapply Forall_impl; [| exact Hmax]. intros [k v] Hv. simpl in *.
    exact (rescaled_le _ _ _ _ _ Hc (Qclt_le_weak _ _ Hf) Hsf Hv).
  - eapply Forall_impl; [| exact Hsec]. intros s Hsc. simpl in Hsc.
    rewrite !sector_total_scale.
    exact (rescaled_le _ _ _ _ _ Hc (Qclt_le_weak _ _ Hf) Hsf Hsc).
  - rewrite !qsum_scale.
    replace (remaining * total_capital * f - total_capital) with 0.
    + exact qabs_zero.
    + transitivity (total_capital * (remaining * f) - total_capital);
        [rewrite Hsf; ring | ring].
Qed.

(** The first pass: the floor takes its positions out, neither cap acts,
    and the renormalisation brings what is left to the capital. *)
Lemma first_pass_within_caps :
  exists a',
    OnNumbers.constraint_pass total_capital (total_capital * minp)
      (total_capital * maxp) (total_capital * cap_pct)
      (scale total_capital w)
    = Some (a', existsb (under_floor minp) (values w)) /\
    settled total_capital (total_capital * minp) (total_capital * maxp)
      (total_capital * cap_pct) a' /\
    nonneg a' /\ index a' = index w.
Proof.
  pose proof (Qclt_le_weak _ _ capital_pos) as Hc.
  pose proof (nonneg_scale total_capital kept Hc
                (nonneg_kept_weights minp w w_nonneg)) as Hnn.
  assert (Hidx : index (scale total_capital kept) = index w)
    by (rewrite index_scale; apply index_kept_weights).
  unfold OnNumbers.constraint_pass.
  rewrite zero_below_min_scaled by exact capital_pos. cbv beta iota.
  destruct (Qc_ltb 1 (qabs (remaining * total_capital - total_capital)))
    eqn:G.
  - (* the total is off by more than a dollar *)
    pose proof settled_rescaled as Hset.
    assert (Hpre : Forall (fun v => v <= total_capital * maxp)
                          (values (scale total_capital kept)) /\
                   Forall (fun s => OnNumbers.sector_total s
                                      (scale total_capital kept)
                                    <= total_capital * cap_pct)
                          UsPortfolioAllocation.capped_sectors).
    { destruct w_fits as (_ & Hmax & Hsec). split.
      - unfold scale, values. rewrite map_map, Forall_map. simpl.
        unfold values in Hmax. rewrite Forall_map in Hmax.
        eapply Forall_impl; [| exact Hmax]. intros [k v] Hv. simpl in *.
        exact (unscaled_le _ _ _ _ Hc maxp_nonneg remaining_le Hv).
      - eapply Forall_impl; [| exact Hsec]. intros s Hs. simpl in Hs.
        rewrite sector_total_scale.
        exact (unscaled_le _ _ _ _ Hc
                 (Qclt_le_weak _ _ NumbersFacts.SECTOR_CAP_PCT_pos)
                 remaining_le Hs). }
    destruct Hpre as [F2 F3].
    rewrite (cap_above_max_fixed _ _ F2). cbv beta iota.
    rewrite (cap_sectors_unchanged _ _ _ F3).
    unfold OnNumbers.renormalize. rewrite qsum_scale, G.
    assert (Hdropped : existsb (under_floor minp) (values w) = true).
    { destruct (existsb (under_floor minp) (values w)) eqn:E; [reflexivity |].
      exfalso. rewrite (kept_weights_all _ _ E), w_total in G.
      replace (1 * total_capital - total_capital) with 0 in G by ring.
      vm_compute in G. discriminate G. }
    unfold scale_by_quotient.
    destruct (scale total_capital kept) as [| kv rest] eqn:Esc.
    + exfalso. pose proof remaining_pos as Hs.
      assert (E : kept = []).
      { unfold scale in Esc. destruct kept; [reflexivity | discriminate Esc]. }
      rewrite E in Hs. discriminate Hs.
    + rewrite <- Esc in *. unfold fdiv.
      destruct (Qc_eqb (remaining * total_capital) 0) eqn:Ez.
      * exfalso. apply Qc_eqb_true in Ez. pose proof remaining_pos as Hs.
        assert (P : 0 < remaining * total_capital).
        { replace 0 with (0 * total_capital) by ring.
          apply Qcmult_lt_compat_r; assumption. }
        rewrite Ez in P. discriminate P.
      * cbn [option_map]. eexists. split; [| split; [exact Hset | split]].
        -- rewrite Hdropped. reflexivity.
        -- apply nonneg_scale; [| exact Hnn].
           apply Qclt_le_weak, Qcdiv_pos; [exact capital_pos |].
           apply Qc_eqb_false in Ez. pose proof remaining_pos as Hs.
           replace 0 with (0 * total_capital) by ring.
           apply Qcmult_lt_compat_r; assumption.
        -- rewrite index_scale. exact Hidx.
  - (* the total is within a dollar *)
    apply Qc_ltb_false in G. pose proof (settled_kept G) as Hset.
    destruct Hset as (F1 & F2 & F3 & F4).
    rewrite (cap_above_max_fixed _ _ F2). cbv beta iota.
    rewrite (cap_sectors_unchanged _ _ _ F3).
    rewrite (renormalize_unchanged _ _ F4).
    exists (scale total_capital kept).
    split; [| split; [| split]].
    + rewrite !orb_false_r. reflexivity.
    + unfold settled. auto.
    + exact Hnn.
    + exact Hidx.
Qed.

(** The loop: one pass when the floor has nothing to take out, two passes
    otherwise, and the exit through [break]. *)
Lemma constraint_loop_within_caps (n : nat) :
  exists a',
    OnNumbers.constraint_loop total_capital (total_capital * minp)
      (total_capital * maxp) (total_capital * cap_pct)
      (S (S n)) 0 (scale total_capital w)
    = Some {| OnNumbers.exit_allocation := a';
              OnNumbers.passes_run :=
                if existsb (under_floor minp) (values w) then 2 else 1;
              OnNumbers.converged := true |} /\
    settled total_capital (total_capital * minp) (total_capital * maxp)
      (total_capital * cap_pct) a' /\
    nonneg a' /\ index a' = index w.
Proof.
  destruct first_pass_within_caps as (a' & Hpass & Hset & Hnn & Hidx).
  exists a'. split; [| auto].
  rewrite constraint_loop_S, Hpass.
  destruct (existsb (under_floor minp) (values w)); [| reflexivity].
  rewrite constraint_loop_S, (constraint_pass_settled _ _ _ _ _ Hset).
  reflexivity.
Qed.

End WithinCaps.

End WithinCapsFacts.

Import UsPortfolioAllocation.




(** A second way for C1 to fail: 26 equal weights put every position below
    the 5% floor, the floor zeroes them all, the renormalisation divides by
    a total of zero, and every position that is returned is NaN. *)
Lemma apply_constraints_all_below_floor :
  nonneg Samples.w_spread_thin /\
  qsum (values Samples.w_spread_thin) = 1 /\
  apply_constraints TOTAL_CAPITAL (numbers Samples.w_spread_thin)
    MIN_ALLOCATION_PCT 1
  = Returned (nan_series (index Samples.w_spread_thin)).
Proof.
  split; [repeat constructor; vm_compute; intro H; discriminate H |].
  split; [qc_compute | vm_compute; reflexivity].
Qed.




(** The loop does not converge either when every position is under the
    floor: from the first pass on every position is NaN, and each of the 100
    passes multiplies NaN by an infinity and reports a change. *)
Lemma apply_constraints_all_below_floor_never_converges :
  apply_constraints_loop TOTAL_CAPITAL (numbers Samples.w_spread_thin)
    MIN_ALLOCATION_PCT 1
  = Returned {| exit_allocation := nan_series (index Samples.w_spread_thin);
                passes_run := 100;
                converged := false |}.
Proof. vm_compute. reflexivity. Qed.

(** ** calculate_sortino_weights *)

Lemma qsum_pos (l : list Qc) :
  l <> [] -> Forall (fun v => 0 < v) l -> 0 < qsum l.
Proof.
  intros Hne H. destruct H as [| v l Hv Hl]; [contradiction|]. simpl.
  assert (Hs : 0 <= qsum l).
  { apply qsum_nonneg. eapply Forall_impl; [| exact Hl].
    intros a Ha. apply Qclt_le_weak, Ha. }
  qc_lra.
Qed.

Lemma qsum_above_member (l : list Qc) (x : Qc) :
  Forall (fun v => 0 < v) l -> In x l -> x <= qsum l.
Proof.
  induction 1 as [| v l Hv Hl IH]; intros Hin; [contradiction |].
  assert (Hs : 0 <= qsum l).
  { apply qsum_nonneg. eapply Forall_impl; [| exact Hl].
    intros a Ha. apply Qclt_le_weak, Ha. }
  cbn [qsum fold_right]. fold (qsum l). destruct Hin as [-> | Hin].
  - clear IH. qc_lra.
  - specialize (IH Hin). clear Hin. qc_lra.
Qed.

Lemma share_bounds (x total : Qc) :
  0 < x -> x <= total -> 0 < x / total /\ x / total <= 1.
Proof.
  intros Hx Hle.
  assert (Ht : 0 < total) by exact (Qclt_le_trans _ _ _ Hx Hle).
  pose proof (Qcinv_pos _ Ht) as Hi. split.
  - unfold Qcdiv. replace 0 with (0 * / total) by ring.
    apply Qcmult_lt_compat_r; assumption.
  - replace 1 with (total / total)
      by (field; intros E; rewrite E in Ht; discriminate Ht).
    unfold Qcdiv. apply Qcmult_le_compat_r; [exact Hle |].
    apply Qclt_le_weak, Hi.
Qed.

Lemma positive_scores_positive (sortino : XSeries) :
  Forall (fun kv => xlt (Num 0) (snd kv) = true) (positive_scores sortino).
Proof.
  unfold positive_scores. apply Forall_forall. intros kv Hin.
  apply filter_In in Hin. exact (proj2 Hin).
Qed.

(** The sum of positive scores of which one is an infinity. *)
Lemma py_sum_with_infinity (l : list xnum) :
  Forall (fun v => xlt (Num 0) v = true) l ->
  forall acc,
    (acc = PosInf \/ (exists q, acc = Num q) /\ In PosInf l) ->
    fold_left xadd l acc = PosInf.
Proof.
  induction 1 as [| v l Hv Hl IH]; intros acc Hacc.
  - destruct Hacc as [-> | [_ []]]. reflexivity.
  - cbn [fold_left]. apply IH.
    destruct v as [q | | |]; try discriminate Hv.
    + destruct Hacc as [-> | [[a ->] [E | Hin]]].
      * left. reflexivity.
      * discriminate E.
      * right. split; [eexists; reflexivity | exact Hin].
    + left. destruct Hacc as [-> | [[a ->] _]]; reflexivity.
Qed.

Lemma no_nan_among_positive (l : list xnum) :
  Forall (fun v => xlt (Num 0) v = true) l ->
  filter (fun v => negb (is_nan v)) l = l.
Proof.
  induction 1 as [| v l Hv _ IH]; [reflexivity |].
  cbn [filter]. destruct v; try discriminate Hv; cbn; rewrite IH; reflexivity.
Qed.

(** C7 (as amended).  The weights of [calculate_sortino_weights] have the
    labels of the strictly positive scores, in their order, and there are
    none when no score is strictly positive.  When the positive scores are
    all numbers, each weight is the score over the sum of the positive
    scores, it lies above 0 and is at most 1, and the weights sum to 1 (to
    within 1e-9, whatever the rounding of the quotients).  When a positive
    score is an infinity, the weight of every finite score is 0 and the
    weight of every infinite one is NaN. *)
Theorem calculate_sortino_weights_spec (sortino : XSeries) :
  let positive := positive_scores sortino in
  let weights := calculate_sortino_weights sortino in
  xindex weights = xindex positive /\
  (positive = [] -> weights = []) /\
  (forall scores : Series,
      scores <> [] -> positive = numbers scores ->
      let total := qsum (values scores) in
      let shares := map (fun kv => (fst kv, snd kv / total)) scores in
      weights = numbers shares /\
      Forall (fun v => 0 < v /\ v <= 1) (values shares) /\
      qabs (qsum (values shares) - 1) <= Q2Qc (1 # 1000000000)) /\
  (In PosInf (xvalues positive) ->
   weights
   = map (fun kv => (fst kv, match snd kv with
                             | PosInf => NaN
                             | _ => Num 0
                             end))
         positive).
Proof.
  cbv zeta. pose proof (positive_scores_positive sortino) as Hpos.
  assert (Hw : calculate_sortino_weights sortino
               = match positive_scores sortino with
                 | [] => []
                 | _ :: _ =>
                     map (fun kv =>
                            (fst kv,
                             xdiv (snd kv)
                                  (pd_sum (xvalues (positive_scores sortino)))))
                         (positive_scores sortino)
                 end) by reflexivity.
  rewrite Hw. clear Hw.
  set (positive := positive_scores sortino) in *. clearbody positive.
  split; [| split; [| split]].
  - destruct positive; [reflexivity |].
    unfold xindex. rewrite map_map. reflexivity.
  - intros ->. reflexivity.
  - intros scores Hne ->.
    rewrite NumbersFacts.pd_sum_numbers.
    assert (Hq : Forall (fun v => 0 < v) (values scores)).
    { unfold values, numbers in *. rewrite Forall_map in Hpos |- *.
      eapply Forall_impl; [| exact Hpos].
      intros [k v] Hv. simpl in *. apply Qc_ltb_true, Hv. }
    assert (Htot : 0 < qsum (values scores)).
    { apply qsum_pos; [| exact Hq].
      unfold values. destruct scores; [contradiction | discriminate]. }
    assert (Hnz : qsum (values scores) <> 0).
    { intro E. rewrite E in Htot. discriminate Htot. }
    split; [| split].
    + apply Qc_eqb_false in Hnz.
      remember (qsum (values scores)) as total eqn:Et.
      assert (Hm : forall l : Series,
                 map (fun kv => (fst kv, xdiv (snd kv) (Num total))) (numbers l)
                 = numbers (map (fun kv => (fst kv, snd kv / total)) l)).
      { intros l. unfold numbers. rewrite !map_map. apply map_ext.
        intros [k v]. simpl. unfold xdiv. rewrite Hnz. reflexivity. }
      rewrite <- Hm. destruct scores; [contradiction | reflexivity].
    + unfold values. rewrite map_map, Forall_map. simpl.
      apply Forall_forall. intros [k v] Hin. simpl.
      assert (Hv : In v (values scores)).
      { unfold values. apply in_map_iff. exists (k, v). auto. }
      apply share_bounds.
      * rewrite Forall_forall in Hq. exact (Hq v Hv).
      * exact (qsum_above_member _ _ Hq Hv).
    + replace (qsum (values (map (fun kv => (fst kv, snd kv / qsum (values scores)))
                                 scores)))
        with 1; [vm_compute; discriminate |].
      unfold values at 1. rewrite map_map. simpl.
      transitivity (qsum (map (fun v => v * / qsum (values scores))
                              (values scores))).
      * rewrite qsum_scaled. symmetry. apply Qcmult_inv_r, Hnz.
      * unfold values. rewrite map_map. reflexivity.
  - intros Hinf.
    assert (Htotal : pd_sum (xvalues positive) = PosInf).
    { unfold pd_sum.
      assert (Hv : Forall (fun v => xlt (Num 0) v = true) (xvalues positive)).
      { unfold xvalues. rewrite Forall_map. exact Hpos. }
      rewrite (no_nan_among_positive _ Hv). unfold py_sum.
      apply (py_sum_with_infinity _ Hv). right.
      split; [eexists; reflexivity | exact Hinf]. }
    rewrite Htotal.
    destruct positive as [| kv rest] eqn:Ep; [contradiction Hinf |].
    rewrite <- Ep in *. clear Ep.
    apply map_ext_in. intros [k v] Hin. simpl.
    rewrite Forall_forall in Hpos. specialize (Hpos _ Hin). simpl in Hpos.
    destruct v; try discriminate Hpos; reflexivity.
Qed.

(** The theorem applies to scores of mixed sign: the weights of the two
    positive ones are 3/4 and 1/4. *)
Lemma calculate_sortino_weights_spec_witness :
  calculate_sortino_weights (numbers Samples.scores_mixed)
  = numbers (map (fun kv => (fst kv, snd kv / qz 4))
                 [("XOM", qz 3); ("GLD", qz 1)]) /\
  Forall (fun v => 0 < v /\ v <= 1)
         (values (map (fun kv => (fst kv, snd kv / qz 4))
                      [("XOM", qz 3); ("GLD", qz 1)])).
Proof.
  destruct (calculate_sortino_weights_spec (numbers Samples.scores_mixed))
    as (_ & _ & H & _).
  destruct (H [("XOM", qz 3); ("GLD", qz 1)]) as (Hw & Hb & _).
  - discriminate.
  - vm_compute. reflexivity.
  - split; [exact Hw | exact Hb].
Defined.

(** C7 (as stated) fails on a score that is an infinity, which
    [calculate_combined_score] returns for a downside volatility of 0: the
    sum of the positive scores is an infinity, the finite score gets the
    weight 0 and the infinite one NaN; the weights are not proportional to
    the scores and do not sum to 1. *)
Lemma calculate_sortino_weights_infinite_score :
  positive_scores MoreSamples.scores_with_infinity
  = MoreSamples.scores_with_infinity /\
  calculate_sortino_weights MoreSamples.scores_with_infinity
  = [("XOM", Num 0); ("CVX", NaN)] /\
  pd_sum (xvalues (calculate_sortino_weights MoreSamples.scores_with_infinity))
  = Num 0.
Proof. repeat split. Qed.

(** ** calculate_downside_volatility and calculate_combined_score *)

Import UsPortfolioAllocation.

Lemma returns_halving_negative :
  negative_returns [- Q2Qc (1 # 2); - Q2Qc (1 # 2)]
  = [- Q2Qc (1 # 2); - Q2Qc (1 # 2)].
Proof. vm_compute. reflexivity. Qed.

Lemma returns_halving_var : sample_var [- Q2Qc (1 # 2); - Q2Qc (1 # 2)] = 0.
Proof. apply Qc_is_canon. vm_compute. reflexivity. Qed.

(** The two parts of C8 that hold: a value for every column, and 0.0001 for
    a column without a strictly negative return. *)
Lemma calculate_downside_volatility_index (sqrt : Qc -> Qc) (returns : Frame) :
  map fst (calculate_downside_volatility sqrt returns) = map fst returns.
Proof.
  unfold calculate_downside_volatility. rewrite map_map. reflexivity.
Qed.

Lemma downside_volatility_of_no_loss (sqrt : Qc -> Qc) (col : list Qc) :
  Forall (fun r => 0 <= r) col ->
  downside_volatility_of sqrt col = Some (Q2Qc (1 # 10000)).
Proof.
  intros H. unfold downside_volatility_of.
  assert (E : negative_returns col = []).
  { unfold negative_returns. induction H as [| r col Hr _ IH]; simpl;
      [reflexivity|].
    apply Qc_ltb_false in Hr. rewrite Hr. exact IH. }
  rewrite E. reflexivity.
Qed.

(** C8, the code at its failing input.  Two equal losses have a sample
    standard deviation of zero, so [calculate_downside_volatility] returns 0
    for that ticker, and the Sortino-like score of
    [calculate_combined_score] is the quotient of a finite momentum (-3/4)
    by zero, which is not a number. *)
Theorem downside_volatility_zero_on_equal_losses (sqrt : Qc -> Qc) :
  sqrt 0 = 0 ->
  calculate_downside_volatility sqrt Samples.returns_halving
    = [("XOM", Some 0)] /\
  exists cs,
    calculate_combined_score sqrt Samples.prices_halving Samples.returns_halving
      = Some cs /\
    nloc "XOM" (mom_3m cs) = Some (- Q2Qc (3 # 4)) /\
    nloc "XOM" (mom_6m cs) = Some (- Q2Qc (3 # 4)) /\
    nloc "XOM" (downside_vol cs) = Some 0 /\
    nloc "XOM" (score cs) = None.
Proof.
  intros Hsqrt.
  assert (Hdv : calculate_downside_volatility sqrt Samples.returns_halving
                = [("XOM", Some 0)]).
  { unfold calculate_downside_volatility, Samples.returns_halving; simpl.
    unfold downside_volatility_of, annualized_negative_std.
    rewrite returns_halving_negative. unfold std. simpl.
    rewrite returns_halving_var, Hsqrt, Qcmult_0_l. reflexivity. }
  split; [exact Hdv |].
  unfold calculate_combined_score.
  assert (Hm3 : calculate_momentum Samples.prices_halving LOOKBACK_3M
                = Some [("XOM", Some (- Q2Qc (3 # 4)))])
    by (vm_compute; reflexivity).
  assert (Hm6 : calculate_momentum Samples.prices_halving LOOKBACK_6M
                = Some [("XOM", Some (- Q2Qc (3 # 4)))])
    by (vm_compute; reflexivity).
  rewrite Hm3, Hm6, Hdv. eexists. split; [reflexivity |]. simpl.
  repeat split; vm_compute; reflexivity.
Qed.

Lemma downside_volatility_zero_on_equal_losses_witness :
  calculate_downside_volatility sqrt_approx Samples.returns_halving
    = [("XOM", Some 0)].
Proof.
  refine (proj1 (downside_volatility_zero_on_equal_losses sqrt_approx _)).
  apply Qc_is_canon. vm_compute. reflexivity.
Defined.

(** Labelled lists: lookups through [map], [app] and [per_column]. *)

Lemma nloc_assoc (t : string) (s : NSeries) :
  nloc t s = match assoc t s with Some v => v | None => None end.
Proof.
  induction s as [| [k v] s IH]; simpl; [reflexivity|].
  destruct (String.eqb t k); [reflexivity | exact IH].
Qed.

Lemma assoc_map_labelled {A B : Type} (g : string -> A -> B) (t : string)
  (l : list (string * A)) :
  assoc t (map (fun kv => (fst kv, g (fst kv) (snd kv))) l)
  = option_map (g t) (assoc t l).
Proof.
  induction l as [| [k v] l IH]; simpl; [reflexivity|].
  destruct (String.eqb t k) eqn:E; [| exact IH].
  apply String.eqb_eq in E. subst k. reflexivity.
Qed.

Lemma assoc_app_l {A : Type} (t : string) (l1 l2 : list (string * A)) (v : A) :
  assoc t l1 = Some v -> assoc t (l1 ++ l2) = Some v.
Proof.
  induction l1 as [| [k x] l1 IH]; simpl; [discriminate|].
  destruct (String.eqb t k); [trivial | exact IH].
Qed.

Lemma sequence_cons_some {A : Type} (x : option A) (l : list (option A))
  (r : list A) :
  sequence (x :: l) = Some r ->
  exists v r', x = Some v /\ sequence l = Some r' /\ r = v :: r'.
Proof.
  simpl. destruct x as [v |]; [| discriminate].
  destruct (sequence l) as [r' |]; simpl; [| discriminate].
  intros [= <-]. exists v, r'. auto.
Qed.

Lemma per_column_assoc {A : Type} (f : list Qc -> option A) (df : Frame)
  (r : list (string * A)) (t : string) (c : list Qc) :
  per_column f df = Some r -> assoc t df = Some c ->
  exists v, f c = Some v /\ assoc t r = Some v.
Proof.
  unfold per_column. revert r.
  induction df as [| [k col] df IH]; intros r Hr Ht; simpl in Ht;
    [discriminate|].
  simpl map in Hr. apply sequence_cons_some in Hr as (kv & r' & Hkv & Hr' & ->).
  simpl in Hkv. destruct (f col) as [v |] eqn:Ef; [| discriminate].
  simpl in Hkv. injection Hkv as <-. simpl.
  destruct (String.eqb t k).
  - injection Ht as <-. exists v. auto.
  - exact (IH _ Hr' Ht).
Qed.

Lemma per_column_total {A : Type} (f : list Qc -> option A) (df : Frame) :
  Forall (fun kc => exists v, f (snd kc) = Some v) df ->
  exists r, per_column f df = Some r.
Proof.
  unfold per_column. induction 1 as [| [k col] df [v Hv] _ [r IH]]; simpl.
  - eexists; reflexivity.
  - simpl in Hv. rewrite Hv, IH. simpl. eexists; reflexivity.
Qed.

Lemma iloc_int_neg_some (k : nat) (col : list Qc) :
  (1 <= k <= List.length col)%nat ->
  exists v, iloc_int (- Z.of_nat k) col = Some v.
Proof.
  intros [H1 H2]. unfold iloc_int.
  destruct (0 <=? - Z.of_nat k)%Z eqn:E; [apply Z.leb_le in E; lia|].
  destruct (0 <=? Z.of_nat (List.length col) + - Z.of_nat k)%Z eqn:E2;
    [| apply Z.leb_gt in E2; lia].
  destruct (nth_error col (Z.to_nat (Z.of_nat (List.length col) + - Z.of_nat k)))
    as [v |] eqn:En; [eexists; reflexivity|].
  apply nth_error_None in En. lia.
Qed.

Lemma momentum_of_total (k : nat) (col : list Qc) :
  (1 <= k <= List.length col)%nat -> exists m, momentum_of k col = Some m.
Proof.
  intros H. unfold momentum_of.
  destruct (iloc_int_neg_some 1 col ltac:(lia)) as [l Hl].
  destruct (iloc_int_neg_some k col H) as [f Hf].
  change (- Z.of_nat 1)%Z with (-1)%Z in Hl. rewrite Hl, Hf.
  eexists; reflexivity.
Qed.


Lemma calculate_momentum_long (prices : Frame) (lookback : nat) :
  well_formed prices -> (1 <= lookback <= nrows prices)%nat ->
  exists m, calculate_momentum prices lookback = Some m /\
            per_column (momentum_of lookback) prices = Some m.
Proof.
  intros Hwf [H1 H2]. unfold calculate_momentum.
  destruct (nrows prices <? lookback)%nat eqn:E;
    [apply Nat.ltb_lt in E; lia|].
  destruct (nrows prices =? 0)%nat eqn:E0; [apply Nat.eqb_eq in E0; lia|].
  destruct (per_column_total (momentum_of lookback) prices) as [m Hm].
  { eapply Forall_impl; [| exact Hwf]. intros kc Hkc. simpl in Hkc.
    apply momentum_of_total. lia. }
  exists m. auto.
Qed.

Lemma downside_volatility_of_negative (sqrt : Qc -> Qc) (col : list Qc) :
  Exists (fun r => r < 0) col ->
  downside_volatility_of sqrt col
  = ClaimedScore.claimed_downside_volatility sqrt col.
Proof.
  intros Hex. unfold downside_volatility_of.
  destruct (negative_returns col) as [| r l] eqn:E; [| reflexivity].
  exfalso. apply Exists_exists in Hex as (r & Hin & Hr).
  assert (Hf : In r (negative_returns col)).
  { unfold negative_returns. apply filter_In. split; [exact Hin|].
    apply Qc_ltb_true, Hr. }
  rewrite E in Hf. exact Hf.
Qed.

(** C6 (as amended).  For a well-formed price frame of at least 126 rows,
    [calculate_combined_score] returns, and for every ticker with at least
    one strictly negative daily return its score is the score of the
    specification: (0.5 * 3-month momentum + 0.5 * 6-month momentum) divided
    by the annualised standard deviation of the strictly negative returns,
    the momenta being [prices.iloc[-1] / prices.iloc[-lookback] - 1] for
    lookbacks 63 and 126. *)
Theorem calculate_combined_score_matches_claim (sqrt : Qc -> Qc)
  (prices returns : Frame) :
  well_formed prices ->
  (126 <= nrows prices)%nat ->
  exists cs,
    calculate_combined_score sqrt prices returns = Some cs /\
    forall t pcol rcol,
      assoc t prices = Some pcol ->
      assoc t returns = Some rcol ->
      Exists (fun r => r < 0) rcol ->
      ClaimedScore.claimed_score sqrt pcol rcol = Some (nloc t (score cs)).
Proof.
  intros Hwf Hrows. unfold calculate_combined_score.
  destruct (calculate_momentum_long prices LOOKBACK_3M Hwf) as (m3 & Hm3 & Pm3).
  { unfold LOOKBACK_3M. lia. }
  destruct (calculate_momentum_long prices LOOKBACK_6M Hwf) as (m6 & Hm6 & Pm6).
  { unfold LOOKBACK_6M. lia. }
  rewrite Hm3, Hm6. eexists. split; [reflexivity |]. simpl.
  intros t pcol rcol Hp Hr Hneg.
  destruct (per_column_assoc _ _ _ _ _ Pm3 Hp) as (v3 & Hv3 & Ha3).
  destruct (per_column_assoc _ _ _ _ _ Pm6 Hp) as (v6 & Hv6 & Ha6).
  unfold ClaimedScore.claimed_score, ClaimedScore.claimed_momentum.
  unfold momentum_of, LOOKBACK_3M, LOOKBACK_6M in Hv3, Hv6.
  rewrite Hv3, Hv6. f_equal.
  rewrite (nloc_assoc t (align_div _ _)). unfold align_div.
  assert (Hc : assoc t (combine_momentum m3 m6)
               = Some (nlift2 Qcplus
                         (option_map (Qcmult (Q2Qc (1 # 2))) v3)
                         (option_map (Qcmult (Q2Qc (1 # 2))) v6))).
  { unfold combine_momentum.
    rewrite (assoc_map_labelled
               (fun k v => nlift2 Qcplus
                             (option_map (Qcmult (Q2Qc (1 # 2))) v)
                             (option_map (Qcmult (Q2Qc (1 # 2))) (nloc k m6)))).
    rewrite Ha3. simpl. rewrite (nloc_assoc t m6), Ha6. reflexivity. }
  erewrite assoc_app_l.
  2:{ rewrite (assoc_map_labelled
                 (fun k v => ndiv v (nloc k (calculate_downside_volatility sqrt returns)))).
      rewrite Hc. reflexivity. }
  f_equal. rewrite nloc_assoc. unfold calculate_downside_volatility.
  rewrite (assoc_map_labelled (fun _ c => downside_volatility_of sqrt c)).
  rewrite Hr. simpl. symmetry. apply downside_volatility_of_negative, Hneg.
Qed.

Lemma calculate_combined_score_matches_claim_witness :
  exists cs,
    calculate_combined_score sqrt_approx
      Samples.prices_half_year Samples.returns_half_year = Some cs /\
    forall t pcol rcol,
      assoc t Samples.prices_half_year = Some pcol ->
      assoc t Samples.returns_half_year = Some rcol ->
      Exists (fun r => r < 0) rcol ->
      ClaimedScore.claimed_score sqrt_approx pcol rcol
      = Some (nloc t (score cs)).
Proof.
  apply (calculate_combined_score_matches_claim sqrt_approx
           Samples.prices_half_year Samples.returns_half_year).
  - repeat constructor.
  - vm_compute. lia.
Defined.

(** C6 (as stated) fails on a two-row price history without a loss: the
    code shortens both lookbacks to the two rows there are and takes 0.0001
    for the downside volatility, giving the score 1000, where
    [prices.iloc[-63]] does not exist and the standard deviation of an empty
    set of negative returns is not a number. *)
Lemma calculate_combined_score_short_history :
  exists cs,
    calculate_combined_score sqrt_approx
      Samples.prices_rising Samples.returns_rising = Some cs /\
    nloc "XOM" (mom_3m cs) = Some (Q2Qc (1 # 10)) /\
    ClaimedScore.claimed_momentum 63 [qz 100; qz 110] = None /\
    nloc "XOM" (downside_vol cs) = Some (Q2Qc (1 # 10000)) /\
    ClaimedScore.claimed_downside_volatility sqrt_approx [Q2Qc (1 # 10)] = None /\
    nloc "XOM" (score cs) = Some (qz 1000) /\
    ClaimedScore.claimed_score sqrt_approx [qz 100; qz 110] [Q2Qc (1 # 10)]
    <> Some (nloc "XOM" (score cs)).
Proof.
  eexists. split; [vm_compute; reflexivity |].
  repeat split; try qc_compute.
  vm_compute. discriminate.
Qed.

(** ** calculate_drawdown_metrics *)

Lemma qmax_ge_l (x y : Qc) : x <= qmax x y.
Proof.
  unfold qmax. destruct (Qc_ltb x y) eqn:E.
  - apply Qclt_le_weak, Qc_ltb_true, E.
  - apply Qcle_refl.
Qed.

Lemma qmax_ge_r (x y : Qc) : y <= qmax x y.
Proof.
  unfold qmax. destruct (Qc_ltb x y) eqn:E.
  - apply Qcle_refl.
  - apply Qc_ltb_false, E.
Qed.

Lemma qmin_le_l (x y : Qc) : qmin x y <= x.
Proof.
  unfold qmin. destruct (Qc_ltb y x) eqn:E.
  - apply Qclt_le_weak, Qc_ltb_true, E.
  - apply Qcle_refl.
Qed.

Lemma qmin_le_r (x y : Qc) : qmin x y <= y.
Proof.
  unfold qmin. destruct (Qc_ltb y x) eqn:E.
  - apply Qcle_refl.
  - apply Qc_ltb_false, E.
Qed.

(** The minimum of a sequence is below its head and below every entry. *)
Lemma qmin_list_le (x : Qc) (l : list Qc) :
  qmin_list x l <= x /\ Forall (fun y => qmin_list x l <= y) l.
Proof.
  unfold qmin_list. revert x. induction l as [| y l IH]; intros x; simpl.
  - split; [apply Qcle_refl | constructor].
  - destruct (IH (qmin x y)) as [H1 H2]. split; [| constructor].
    + eapply Qcle_trans; [exact H1 | apply qmin_le_l].
    + eapply Qcle_trans; [exact H1 | apply qmin_le_r].
    + exact H2.
Qed.

Lemma series_min_le (l : list Qc) (m : Qc) :
  series_min l = Some m -> Forall (fun y => m <= y) l.
Proof.
  destruct l as [| x l]; simpl; [discriminate|]. intros [= <-].
  destruct (qmin_list_le x l) as [H1 H2]. constructor; assumption.
Qed.

Lemma sequence_map_forall {X A : Type} (f : X -> option A) (P : A -> Prop)
  (l : list X) :
  Forall (fun x => exists v, f x = Some v /\ P v) l ->
  exists r, sequence (map f l) = Some r /\ Forall P r /\
            List.length r = List.length l.
Proof.
  induction 1 as [| x l (v & Hv & Pv) _ (r & Hr & Pr & Hl)]; simpl.
  - exists []. repeat split. constructor.
  - rewrite Hv, Hr. simpl. exists (v :: r). repeat split.
    + constructor; assumption.
    + simpl. rewrite Hl. reflexivity.
Qed.

Lemma per_column_forall {A : Type} (f : list Qc -> option A) (P : A -> Prop)
  (df : Frame) :
  Forall (fun kc => exists v, f (snd kc) = Some v /\ P v) df ->
  exists r, per_column f df = Some r /\ Forall (fun kv => P (snd kv)) r /\
            List.length r = List.length df.
Proof.
  intros H. unfold per_column.
  apply (sequence_map_forall
           (fun kc => option_map (pair (fst kc)) (f (snd kc)))
           (fun kv => P (snd kv))).
  eapply Forall_impl; [| exact H]. intros [k c] (v & Hv & Pv). simpl in *.
  rewrite Hv. simpl. exists (k, v). auto.
Qed.

(** The running maximum of positive prices is positive and not below the
    price. *)
Lemma cummax_from_bounds (m : Qc) (l : list Qc) :
  0 < m -> 
  Forall (fun pm => 0 < snd pm /\ fst pm <= snd pm)
         (combine l (cummax_from m l)).
Proof.
  revert m. induction l as [| x l IH]; intros m Hm; simpl; constructor.
  - simpl. split; [| apply qmax_ge_r].
    eapply Qclt_le_trans; [exact Hm | apply qmax_ge_l].
  - apply IH. eapply Qclt_le_trans; [exact Hm | apply qmax_ge_l].
Qed.

Lemma cummax_bounds (price : list Qc) :
  Forall (fun p => 0 < p) price ->
  Forall (fun pm => 0 < snd pm /\ fst pm <= snd pm)
         (combine price (cummax price)).
Proof.
  intros H. destruct H as [| x l Hx Hl]; simpl; constructor.
  - simpl. split; [exact Hx | apply Qcle_refl].
  - apply cummax_from_bounds, Hx.
Qed.

Lemma cummax_from_length (m : Qc) (l : list Qc) :
  List.length (cummax_from m l) = List.length l.
Proof.
  revert m. induction l as [| x l IH]; intros m; simpl; [| rewrite IH];
    reflexivity.
Qed.

Lemma cummax_length (l : list Qc) : List.length (cummax l) = List.length l.
Proof.
  destruct l; simpl; [| rewrite cummax_from_length]; reflexivity.
Qed.

Lemma drawdown_entry_nonpos (p m : Qc) :
  0 < m -> p <= m -> exists d, fdiv (p - m) m = Some d /\ d <= 0.
Proof.
  intros Hm Hp. unfold fdiv.
  destruct (Qc_eqb m 0) eqn:E.
  - apply Qc_eqb_true in E. subst m. discriminate Hm.
  - eexists. split; [reflexivity|].
    apply (Qcmult_lt_0_le_reg_r _ _ m Hm).
    rewrite Qcmult_0_l. unfold Qcdiv.
    rewrite <- Qcmult_assoc, Qcmult_inv_l, Qcmult_1_r.
    + qc_lra.
    + apply Qc_eqb_false, E.
Qed.

(** Positive prices have a drawdown series, as long as the prices, without
    a positive entry. *)
Lemma drawdown_series_nonpos (price : list Qc) :
  Forall (fun p => 0 < p) price ->
  exists dd, drawdown_series price = Some dd /\
             Forall (fun d => d <= 0) dd /\
             List.length dd = List.length price.
Proof.
  intros H. unfold drawdown_series.
  destruct (sequence_map_forall
              (fun pm => fdiv (fst pm - snd pm) (snd pm))
              (fun d => d <= 0)
              (combine price (cummax price))) as (dd & Hdd & Hle & Hlen).
  { eapply Forall_impl; [| apply cummax_bounds, H].
    intros [p m] [Hm Hp]. simpl in *. apply drawdown_entry_nonpos; assumption. }
  exists dd. repeat split; try assumption.
  rewrite Hlen, length_combine, cummax_length. apply Nat.min_id.
Qed.

Lemma series_min_nonpos (l : list Qc) :
  l <> [] -> Forall (fun d => d <= 0) l ->
  exists m, series_min l = Some m /\ m <= 0.
Proof.
  intros Hne H. destruct H as [| x l Hx _]; [contradiction|].
  simpl. eexists. split; [reflexivity|].
  eapply Qcle_trans; [apply qmin_list_le | exact Hx].
Qed.

Lemma iloc_int_last (l : list Qc) :
  l <> [] -> exists x, iloc_int (-1) l = Some x /\ In x l.
Proof.
  intros Hne.
  destruct (iloc_int_neg_some 1 l) as [x Hx].
  { destruct l; [contradiction | simpl; lia]. }
  change (- Z.of_nat 1)%Z with (-1)%Z in Hx.
  exists x. split; [exact Hx|].
  unfold iloc_int in Hx. simpl (0 <=? -1)%Z in Hx. cbv iota in Hx.
  destruct (0 <=? Z.of_nat (List.length l) + -1)%Z; [| discriminate].
  eapply nth_error_In. exact Hx.
Qed.

Lemma length_nonempty {A : Type} (l l' : list A) :
  List.length l = List.length l' -> l' <> [] -> l <> [].
Proof.
  intros Hlen Hne ->. destruct l'; [contradiction | discriminate].
Qed.

Lemma in_firstn {A : Type} (n : nat) (l : list A) (x : A) :
  In x (firstn n l) -> In x l.
Proof.
  intros H. rewrite <- (firstn_skipn n l). apply in_or_app. left. exact H.
Qed.

Lemma in_skipn {A : Type} (n : nat) (l : list A) (x : A) :
  In x (skipn n l) -> In x l.
Proof.
  intros H. rewrite <- (firstn_skipn n l). apply in_or_app. right. exact H.
Qed.

(** Every 63-day window of a positive price series has a worst drawdown,
    and it is not positive. *)
Lemma rolling_windows_nonpos (price : list Qc) :
  Forall (fun p => 0 < p) price ->
  exists rolling,
    sequence
      (map (fun i =>
              window_dd <- drawdown_series (window_prices 63 i price) ;;
              series_min window_dd)
           (seq 63 (List.length price - 63))) = Some rolling /\
    Forall (fun d => d <= 0) rolling.
Proof.
  intros Hpos.
  destruct (sequence_map_forall
              (fun i =>
                 window_dd <- drawdown_series (window_prices 63 i price) ;;
                 series_min window_dd)
              (fun d => d <= 0)
              (seq 63 (List.length price - 63))) as (r & Hr & Hle & _).
  - apply Forall_forall. intros i Hi. apply in_seq in Hi.
    assert (Hw : Forall (fun p => 0 < p) (window_prices 63 i price)).
    { unfold window_prices. apply Forall_forall. intros p Hp.
      apply in_firstn, in_skipn in Hp.
      rewrite Forall_forall in Hpos. exact (Hpos p Hp). }
    assert (Hne : window_prices 63 i price <> []).
    { unfold window_prices. intro E.
      apply (f_equal (@List.length Qc)) in E.
      rewrite length_firstn, length_skipn in E. cbn [List.length] in E. lia. }
    destruct (drawdown_series_nonpos _ Hw) as (dd & Hdd & Hdle & Hlen).
    destruct (series_min_nonpos dd (length_nonempty _ _ Hlen Hne) Hdle)
      as (m & Hm & Hm0).
    exists m. rewrite Hdd. simpl. auto.
  - exists r. auto.
Qed.

Lemma qz_le (a b : Z) : (a <= b)%Z -> qz a <= qz b.
Proof.
  intros H. unfold qz, Qcle, Q2Qc; cbn [this].
  rewrite !Qred_correct. rewrite <- Zle_Qle. exact H.
Qed.

Lemma qsum_le_bound (M : Qc) (l : list Qc) :
  Forall (fun x => x <= M) l ->
  qsum l <= M * qz (Z.of_nat (List.length l)).
Proof.
  induction 1 as [| x l Hx _ IH].
  - simpl. rewrite Qcmult_0_r. apply Qcle_refl.
  - cbn [qsum fold_right List.length]. fold (qsum l).
    replace (qz (Z.of_nat (S (List.length l))))
      with (qz (Z.of_nat (List.length l)) + 1).
    + rewrite Qcmult_plus_distr_r, Qcmult_1_r.
      rewrite (Qcplus_comm x). apply Qcplus_le_compat; assumption.
    + apply Qc_is_canon. unfold qz, Qcplus, Q2Qc; cbn [this].
      rewrite !Qred_correct. rewrite Nat2Z.inj_succ.
      unfold Z.succ. rewrite inject_Z_plus. reflexivity.
Qed.

(** The mean of a non-empty sequence lies between 0 and any upper bound of
    its non-negative entries. *)
Lemma mean_bounds (M : Qc) (l : list Qc) :
  l <> [] -> Forall (fun x => 0 <= x) l -> Forall (fun x => x <= M) l ->
  0 <= mean l /\ mean l <= M.
Proof.
  intros Hne H0 HM. unfold mean.
  assert (Hn : 0 < qz (Z.of_nat (List.length l))).
  { destruct l; [contradiction|].
    unfold qz, Qclt, Q2Qc; cbn [this]. rewrite !Qred_correct.
    change 0%Q with (inject_Z 0). rewrite <- Zlt_Qlt. simpl. lia. }
  split.
  - apply Qcdiv_nonneg; [apply qsum_nonneg, H0 | exact Hn].
  - apply (Qcmult_lt_0_le_reg_r _ _ _ Hn). unfold Qcdiv.
    rewrite <- Qcmult_assoc, Qcmult_inv_l, Qcmult_1_r.
    + apply qsum_le_bound, HM.
    + intro E. rewrite E in Hn. discriminate Hn.
Qed.

Lemma durations_bounds (periods : list nat) :
  let max_dd_duration :=
    match periods with [] => O | _ :: _ => list_max periods end in
  let avg_dd_duration :=
    match periods with
    | [] => 0
    | _ :: _ => mean (map (fun d => qz (Z.of_nat d)) periods)
    end in
  0 <= avg_dd_duration /\ avg_dd_duration <= qz (Z.of_nat max_dd_duration).
Proof.
  destruct periods as [| d periods]; cbv zeta.
  - split; apply Qcle_refl.
  - apply mean_bounds.
    + discriminate.
    + rewrite Forall_map. apply Forall_forall. intros x _.
      change 0 with (qz 0). apply qz_le. lia.
    + rewrite Forall_map. apply Forall_forall. intros x Hx.
      apply qz_le. apply inj_le.
      pose proof (list_max_le (d :: periods) (list_max (d :: periods))) as [L _].
      specialize (L (Nat.le_refl _)). rewrite Forall_forall in L.
      exact (L x Hx).
Qed.


Lemma drawdown_metrics_of_bounds (price : list Qc) :
  price <> [] -> Forall (fun p => 0 < p) price ->
  exists m, drawdown_metrics_of price = Some m /\ drawdown_bounds m.
Proof.
  intros Hne Hpos. unfold drawdown_metrics_of.
  destruct (drawdown_series_nonpos price Hpos) as (dd & Hdd & Hle & Hlen).
  pose proof (length_nonempty _ _ Hlen Hne) as Hddne.
  destruct (series_min_nonpos dd Hddne Hle) as (mn & Hmn & Hmn0).
  destruct (iloc_int_last dd Hddne) as (cur & Hcur & Hin).
  destruct (rolling_windows_nonpos price Hpos) as (rolling & Hroll & Hrle).
  rewrite Hdd. cbn [obind]. rewrite Hmn. cbn [obind]. rewrite Hcur.
  cbn [obind]. rewrite Hroll. cbn [obind].
  eexists. split; [reflexivity |]. unfold drawdown_bounds. cbn.
  pose proof (series_min_le _ _ Hmn) as Hall. rewrite Forall_forall in Hall, Hle.
  destruct (durations_bounds
              (drawdown_periods (map (fun d => Qc_ltb d 0) dd))) as [D0 DM].
  repeat split.
  - exact (Hall cur Hin).
  - exact (Hle cur Hin).
  - destruct Hrle as [| x l Hx _]; [exact Hmn0|].
    eapply Qcle_trans; [apply qmin_list_le | exact Hx].
  - exact DM.
  - exact D0.
Qed.

(** C9.  The price series that [calculate_drawdown_metrics] is given are
    the total-return indexes that [fetch_total_return_index] builds from
    closing prices, which are strictly positive.  For every frame of
    non-empty series of such prices it returns metrics for every ticker,
    and they satisfy max_drawdown <= current_drawdown <= 0,
    worst_rolling_3m_dd <= 0 and
    max_dd_duration_days >= avg_dd_duration_days >= 0. *)
Theorem calculate_drawdown_metrics_bounds (prices : Frame) :
  Forall (fun kc => snd kc <> [] /\ Forall (fun p => 0 < p) (snd kc)) prices ->
  exists metrics,
    calculate_drawdown_metrics prices = Some metrics /\
    List.length metrics = List.length prices /\
    Forall (fun km => drawdown_bounds (snd km)) metrics.
Proof.
  intros H. unfold calculate_drawdown_metrics.
  destruct (per_column_forall drawdown_metrics_of drawdown_bounds prices)
    as (r & Hr & Hb & Hl).
  - eapply Forall_impl; [| exact H]. intros [k c] [Hne Hpos]. simpl in *.
    apply drawdown_metrics_of_bounds; assumption.
  - exists r. auto.
Qed.

Lemma calculate_drawdown_metrics_bounds_witness :
  exists metrics,
    calculate_drawdown_metrics Samples.prices_week = Some metrics /\
    List.length metrics = 1%nat /\
    Forall (fun km => drawdown_bounds (snd km)) metrics.
Proof.
  apply (calculate_drawdown_metrics_bounds Samples.prices_week).
  repeat constructor; try discriminate; vm_compute; reflexivity.
Defined.

(** ** The two total-return index constructions *)


Lemma paying_rows_zero (rows : History) :
  paying_rows rows = O -> Forall no_dividend rows.
Proof.
  unfold paying_rows. induction rows as [| r rows IH]; simpl; [constructor|].
  destruct (Qc_eqb (Dividends r) 0) eqn:E; simpl; [| discriminate].
  intros H. constructor; [apply Qc_eqb_true, E | apply IH, H].
Qed.

Lemma zero_yield (prev : Qc) :
  (if negb (Qc_eqb prev 0) then 0 / prev else 0) = 0.
Proof.
  destruct (negb (Qc_eqb prev 0)); [| reflexivity]. unfold Qcdiv. ring.
Qed.

Lemma shifted_yield_zero (prev : option Qc) : Allocate.shifted_yield prev 0 = Some 0.
Proof.
  unfold Allocate.shifted_yield. destruct prev as [c |]; [| reflexivity].
  destruct (Qc_eqb c 0); [reflexivity|]. f_equal. unfold Qcdiv. ring.
Qed.

(** Without further dividends the compounded factor stays what it is ... *)
Lemma total_return_from_no_dividend (prev cum : Qc) (rows : History) :
  Forall no_dividend rows ->
  total_return_from prev cum rows = map (fun r => Close r * (1 + cum)) rows.
Proof.
  intros H. revert prev. induction H as [| r rows Hr _ IH]; intros prev; simpl;
    [reflexivity|].
  unfold no_dividend in Hr. rewrite Hr, zero_yield.
  replace ((1 + cum) * (1 + 0) - 1) with cum by ring.
  rewrite IH. reflexivity.
Qed.

(** ... and so does the cumulative sum. *)
Lemma total_return_sum_from_no_dividend (prev : option Qc) (run : Qc)
  (rows : History) :
  Forall no_dividend rows ->
  Allocate.total_return_sum_from prev run rows
  = Some (map (fun r => Close r * (1 + run)) rows).
Proof.
  intros H. revert prev. induction H as [| r rows Hr _ IH]; intros prev; simpl;
    [reflexivity|].
  unfold no_dividend in Hr. rewrite Hr, shifted_yield_zero. cbn [obind].
  replace (run + 0) with run by ring.
  rewrite IH. reflexivity.
Qed.

Lemma total_return_agree_from (prev : Qc) (rows : History) :
  prev <> 0 ->
  Forall (fun r => Close r <> 0) rows ->
  (paying_rows rows <= 1)%nat ->
  Allocate.total_return_sum_from (Some prev) 0 rows
  = Some (total_return_from prev 0 rows).
Proof.
  intros Hprev Hclose. revert prev Hprev.
  induction Hclose as [| r rows Hr _ IH]; intros prev Hprev Hpay; simpl;
    [reflexivity|].
  apply Qc_eqb_false in Hprev. unfold Allocate.shifted_yield.
  rewrite Hprev. cbn [negb obind].
  unfold paying_rows in Hpay. simpl in Hpay.
  destruct (Qc_eqb (Dividends r) 0) eqn:E; simpl in Hpay.
  - apply Qc_eqb_true in E. rewrite E.
    replace (0 + 0 / prev) with 0 by (unfold Qcdiv; ring).
    replace ((1 + 0) * (1 + 0 / prev) - 1) with 0 by (unfold Qcdiv; ring).
    rewrite (IH (Close r) Hr Hpay). reflexivity.
  - assert (Hrest : Forall no_dividend rows)
      by (apply paying_rows_zero; unfold paying_rows; lia).
    replace ((1 + 0) * (1 + Dividends r / prev) - 1)
      with (0 + Dividends r / prev) by ring.
    rewrite (total_return_sum_from_no_dividend _ _ _ Hrest).
    rewrite (total_return_from_no_dividend _ _ _ Hrest). reflexivity.
Qed.

(** C4 (as amended).  The vectorised form of allocate.py (close times one
    plus the sum of the yields) and the compounded form of
    us_portfolio_allocation.py (close times the product of one plus each
    yield) give the same index when no row after the first pays a dividend,
    where both are the raw close series, and when at most one row after the
    first pays a dividend and no close is zero. *)
Theorem total_return_forms_agree (hist : History) :
  (Forall no_dividend (tl hist) ->
   total_return_index hist = map Close hist /\
   Allocate.total_return_sum hist = Some (map Close hist)) /\
  (Forall (fun r => Close r <> 0) hist ->
   (paying_rows (tl hist) <= 1)%nat ->
   Allocate.total_return_sum hist = Some (total_return_index hist)).
Proof.
  destruct hist as [| r rows]; simpl.
  { split; intros; [split |]; reflexivity. }
  unfold Allocate.total_return_sum; simpl.
  replace (0 + 0) with 0 by ring. replace (Close r * (1 + 0)) with (Close r) by ring.
  split.
  - intros H.
    rewrite (total_return_from_no_dividend _ _ _ H).
    rewrite (total_return_sum_from_no_dividend _ _ _ H). cbn [obind].
    assert (E : map (fun r0 => Close r0 * (1 + 0)) rows = map Close rows).
    { apply map_ext. intros a. ring. }
    rewrite E. split; reflexivity.
  - intros Hclose Hpay. inversion Hclose as [| ? ? Hr Hrows]; subst.
    rewrite (total_return_agree_from _ _ Hr Hrows Hpay). reflexivity.
Qed.

Lemma total_return_forms_agree_witness :
  (total_return_index Samples.hist_no_dividend
     = map Close Samples.hist_no_dividend /\
   Allocate.total_return_sum Samples.hist_no_dividend
     = Some (map Close Samples.hist_no_dividend)) /\
  Allocate.total_return_sum Samples.hist_one_dividend
    = Some (total_return_index Samples.hist_one_dividend).
Proof.
  split.
  - apply (proj1 (total_return_forms_agree Samples.hist_no_dividend)).
    repeat constructor.
  - apply (proj2 (total_return_forms_agree Samples.hist_one_dividend)).
    + repeat constructor; intro H; discriminate H.
    + vm_compute. lia.
Defined.

(** C4 (as stated) fails as soon as two dividends are paid: with a close of
    100 and a dividend of 1 on two days the compounded index ends at 102.01
    and the summed one at 102. *)
Lemma total_return_forms_differ :
  option_map (map this) (Allocate.total_return_sum Samples.hist_two_dividends)
    = Some [100; 101; 102]%Q /\
  map this (total_return_index Samples.hist_two_dividends)
    = [100; 101; 10201 # 100]%Q /\
  Allocate.total_return_sum Samples.hist_two_dividends
    <> Some (total_return_index Samples.hist_two_dividends).
Proof.
  split; [vm_compute; reflexivity |]. split; [vm_compute; reflexivity |].
  intros H. apply (f_equal (option_map (map this))) in H.
  vm_compute in H. discriminate H.
Qed.

(** How the two forms differ in general: for positive closes and dividends
    that are not negative the summed index exists and is nowhere above the
    compounded one (the sum is the product without its cross terms). *)
Lemma total_return_sum_below_from (rows : History) (prev run cum : Qc) :
  Forall (fun r => 0 < Close r /\ 0 <= Dividends r) rows ->
  0 < prev -> 0 <= run -> run <= cum ->
  exists l,
    Allocate.total_return_sum_from (Some prev) run rows = Some l /\
    Forall2 Qcle l (total_return_from prev cum rows).
Proof.
  intros H. revert prev run cum.
  induction H as [| r rows [Hc Hd] _ IH]; intros prev run cum Hprev Hrun Hle;
    simpl.
  - exists []. split; [reflexivity | constructor].
  - assert (Hnz : Qc_eqb prev 0 = false).
    { apply Qc_eqb_false. intro E. rewrite E in Hprev. discriminate Hprev. }
    unfold Allocate.shifted_yield. rewrite Hnz. cbn [negb obind].
    set (y := Dividends r / prev).
    assert (Hy : 0 <= y) by (apply Qcdiv_nonneg; assumption).
    assert (Hcum : 0 <= cum) by exact (Qcle_trans _ _ _ Hrun Hle).
    assert (Ht : 0 <= cum * y) by (apply Qcmult_nonneg; assumption).
    replace ((1 + cum) * (1 + y) - 1) with (cum + y + cum * y) by ring.
    set (t := cum * y) in *. clearbody t y.
    assert (Hrun' : 0 <= run + y) by (apply Qcplus_nonneg; assumption).
    assert (Hle' : run + y <= cum + y + t) by qc_lra.
    destruct (IH (Close r) (run + y) (cum + y + t) Hc Hrun' Hle')
      as (l & Hl & Hall).
    rewrite Hl. cbn [obind]. eexists. split; [reflexivity|].
    constructor; [| exact Hall].
    rewrite !(Qcmult_comm (Close r)).
    apply Qcmult_le_compat_r; [qc_lra | apply Qclt_le_weak, Hc].
Qed.

Lemma total_return_sum_below_compounded (hist : History) :
  Forall (fun r => 0 < Close r /\ 0 <= Dividends r) hist ->
  exists l,
    Allocate.total_return_sum hist = Some l /\
    Forall2 Qcle l (total_return_index hist).
Proof.
  intros H. destruct H as [| r rows [Hc Hd] Hrows]; simpl.
  - exists []. split; [reflexivity | constructor].
  - unfold Allocate.total_return_sum; simpl.
    replace (0 + 0) with 0 by ring.
    destruct (total_return_sum_below_from rows (Close r) 0 0 Hrows Hc
                (Qcle_refl 0) (Qcle_refl 0)) as (l & Hl & Hall).
    rewrite Hl. cbn [obind]. eexists. split; [reflexivity|].
    constructor; [| exact Hall].
    replace (Close r * (1 + 0)) with (Close r) by ring. apply Qcle_refl.
Qed.

(** ** The fetch routines and a provider that raises *)

Section FetchFacts.

Variable history : string -> string -> history_outcome.
Variable period : string.


(** With the handler, the loop does what the loop without handler does on
    the tickers that do not raise. *)
Lemma fetch_columns_try_skips (tickers : list string)
  (dfs : list (string * DatedSeries)) :
  fetch_columns history period (filter (fun t => negb (raises history period t)) tickers) dfs
  = Returned (fetch_columns_try history period tickers dfs).
Proof.
  revert dfs. induction tickers as [| t rest IH]; intros dfs; simpl;
    [reflexivity|].
  unfold raises at 1. destruct (history t period) as [e | hist] eqn:E; simpl.
  - apply IH.
  - rewrite E. destruct hist; apply IH.
Qed.

(** Dropping the tickers that raise beforehand changes nothing for the
    loop with the handler. *)
Lemma fetch_columns_try_filter (tickers : list string)
  (dfs : list (string * DatedSeries)) :
  fetch_columns_try history period
    (filter (fun t => negb (raises history period t)) tickers) dfs
  = fetch_columns_try history period tickers dfs.
Proof.
  revert dfs. induction tickers as [| t rest IH]; intros dfs; simpl;
    [reflexivity|].
  unfold raises at 1. destruct (history t period) as [e | hist] eqn:E; simpl.
  - apply IH.
  - rewrite E. destruct hist; apply IH.
Qed.

(** Without handler, the first exception ends the loop. *)
Lemma fetch_columns_propagates (pre post : list string) (t e : string)
  (dfs : list (string * DatedSeries)) :
  Forall (fun t' => raises history period t' = false) pre ->
  history t period = HistoryRaises e ->
  fetch_columns history period (pre ++ t :: post) dfs = Raised e.
Proof.
  intros Hpre Ht. revert dfs.
  induction Hpre as [| t' pre Ht' _ IH]; intros dfs; simpl.
  - rewrite Ht. reflexivity.
  - unfold raises in Ht'. destruct (history t' period) as [e' | hist];
      [discriminate|].
    destruct hist; apply IH.
Qed.

Lemma allocate_fetch_columns_propagates (pre post : list string) (t e : string)
  (dfs : list (string * DatedSeries)) :
  Forall (fun t' => raises history period t' = false) pre ->
  history t period = HistoryRaises e ->
  Allocate.fetch_columns history period (pre ++ t :: post) dfs = Raised e.
Proof.
  intros Hpre Ht. revert dfs.
  induction Hpre as [| t' pre Ht' _ IH]; intros dfs; simpl.
  - rewrite Ht. reflexivity.
  - unfold raises in Ht'. destruct (history t' period) as [e' | hist];
      [discriminate|].
    destruct hist as [| r rows]; [apply IH|].
    destruct (Allocate.total_return_sum (r :: rows)); rewrite IH; reflexivity.
Qed.

(** Tickers with an empty history are skipped by every routine. *)
Lemma fetch_columns_skips_empty (tickers : list string)
  (dfs : list (string * DatedSeries)) :
  fetch_columns history period
    (filter (fun t => negb (answers_empty history period t)) tickers) dfs
  = fetch_columns history period tickers dfs.
Proof.
  revert dfs. induction tickers as [| t rest IH]; intros dfs; simpl;
    [reflexivity|].
  unfold answers_empty at 1.
  destruct (history t period) as [e | [| r rows]] eqn:E; simpl.
  - rewrite E. reflexivity.
  - apply IH.
  - rewrite E. apply IH.
Qed.

Lemma allocate_fetch_columns_skips_empty (tickers : list string)
  (dfs : list (string * DatedSeries)) :
  Allocate.fetch_columns history period
    (filter (fun t => negb (answers_empty history period t)) tickers) dfs
  = Allocate.fetch_columns history period tickers dfs.
Proof.
  revert dfs. induction tickers as [| t rest IH]; intros dfs; simpl;
    [reflexivity|].
  unfold answers_empty at 1.
  destruct (history t period) as [e | [| r rows]] eqn:E; simpl.
  - rewrite E. reflexivity.
  - apply IH.
  - rewrite E. destruct (Allocate.total_return_sum (r :: rows));
      rewrite IH; reflexivity.
Qed.

(** Without an exception both loops append one column for every ticker
    whose history is not empty. *)
Lemma fetch_columns_returns (tickers : list string) :
  Forall (fun t => raises history period t = false) tickers ->
  forall dfs,
  exists cols,
    fetch_columns history period tickers dfs = Returned (dfs ++ cols)%list /\
    fetch_columns_try history period tickers dfs = (dfs ++ cols)%list /\
    map fst cols
    = filter (fun t => negb (answers_empty history period t)) tickers.
Proof.
  induction 1 as [| t tickers Ht _ IH]; intros dfs.
  - exists []. rewrite app_nil_r. repeat split.
  - cbn [fetch_columns fetch_columns_try filter].
    unfold raises in Ht. unfold answers_empty at 1.
    destruct (history t period) as [e | [| r rows]]; [discriminate | |].
    + exact (IH dfs).
    + destruct (IH (dfs ++ [(t, dated (r :: rows) (total_return_index (r :: rows)))])%list)
        as (cols & H1 & H2 & H3).
      exists ((t, dated (r :: rows) (total_return_index (r :: rows))) :: cols).
      rewrite <- app_assoc in H1, H2. cbn [app] in H1, H2.
      split; [exact H1 |]. split; [exact H2 |].
      cbn [map fst negb]. rewrite H3. reflexivity.
Qed.

End FetchFacts.

(** C3 (as amended).  fetch_total_return_index of canadian_nyse_only.py
    catches the exception raised while fetching one ticker's history and
    skips that ticker: it always returns, it returns what it returns for
    the remaining tickers alone, and its columns are those that the loop
    without handler builds from the remaining tickers.  In
    fetch_total_return_index of us_portfolio_allocation.py and in fetch of
    allocate.py there is no handler: the first exception raised by a
    ticker's history leaves the routine; the tickers these two skip are
    those whose history comes back empty. *)
Theorem fetch_error_handling
  (history : string -> string -> history_outcome)
  (tickers : list string) (period : string) :
  (exists frame,
      CanadianNyseOnly.fetch_total_return_index history tickers period
      = Returned frame) /\
  CanadianNyseOnly.fetch_total_return_index history tickers period
  = CanadianNyseOnly.fetch_total_return_index history
      (filter (fun t => negb (raises history period t)) tickers) period /\
  fetch_columns history period
    (filter (fun t => negb (raises history period t)) tickers) []
  = Returned (fetch_columns_try history period tickers []) /\
  (forall pre t post e,
      tickers = (pre ++ t :: post)%list ->
      Forall (fun t' => raises history period t' = false) pre ->
      history t period = HistoryRaises e ->
      UsPortfolioAllocation.fetch_total_return_index history tickers period
      = Raised e /\
      Allocate.fetch history tickers period = Raised e) /\
  UsPortfolioAllocation.fetch_total_return_index history tickers period
  = UsPortfolioAllocation.fetch_total_return_index history
      (filter (fun t => negb (answers_empty history period t)) tickers)
      period /\
  Allocate.fetch history tickers period
  = Allocate.fetch history
      (filter (fun t => negb (answers_empty history period t)) tickers)
      period.
Proof.
  split; [| split; [| split; [| split; [| split]]]].
  - unfold CanadianNyseOnly.fetch_total_return_index.
    destruct (fetch_columns_try history period tickers []);
      eexists; reflexivity.
  - unfold CanadianNyseOnly.fetch_total_return_index.
    rewrite fetch_columns_try_filter. reflexivity.
  - apply fetch_columns_try_skips.
  - intros pre t post e -> Hpre Ht. split.
    + unfold UsPortfolioAllocation.fetch_total_return_index.
      rewrite (fetch_columns_propagates _ _ _ _ _ _ _ Hpre Ht). reflexivity.
    + unfold Allocate.fetch.
      rewrite (allocate_fetch_columns_propagates _ _ _ _ _ _ _ Hpre Ht).
      reflexivity.
  - unfold UsPortfolioAllocation.fetch_total_return_index.
    rewrite fetch_columns_skips_empty. reflexivity.
  - unfold Allocate.fetch.
    rewrite allocate_fetch_columns_skips_empty. reflexivity.
Qed.

Lemma fetch_error_handling_witness :
  UsPortfolioAllocation.fetch_total_return_index
    Samples.history_enb_down ["CNQ"; "ENB"; "SU"] "3y" = Raised "HTTPError 404" /\
  Allocate.fetch Samples.history_enb_down ["CNQ"; "ENB"; "SU"] "3y"
  = Raised "HTTPError 404".
Proof.
  apply (proj1 (proj2 (proj2 (proj2 (fetch_error_handling
                                       Samples.history_enb_down
                                       ["CNQ"; "ENB"; "SU"] "3y"))))
           ["CNQ"] "ENB" ["SU"] "HTTPError 404").
  - reflexivity.
  - repeat constructor.
  - reflexivity.
Defined.

(** C3 (as stated) fails for the routines without handler: when ENB raises,
    the routine of canadian_nyse_only.py returns the CNQ column, the one it
    returns for CNQ alone, while fetch_total_return_index of
    us_portfolio_allocation.py and fetch of allocate.py raise and return
    nothing, although both return the CNQ column for CNQ alone. *)
Lemma fetch_without_handler_raises :
  CanadianNyseOnly.fetch_total_return_index
    Samples.history_enb_down ["ENB"; "CNQ"] "3y"
  = CanadianNyseOnly.fetch_total_return_index
      Samples.history_enb_down ["CNQ"] "3y" /\
  UsPortfolioAllocation.fetch_total_return_index
    Samples.history_enb_down ["ENB"; "CNQ"] "3y" = Raised "HTTPError 404" /\
  UsPortfolioAllocation.fetch_total_return_index
    Samples.history_enb_down ["CNQ"] "3y"
  = Returned [("CNQ", [qz 100; qz 101; qz 99])] /\
  Allocate.fetch Samples.history_enb_down ["ENB"; "CNQ"] "3y"
  = Raised "HTTPError 404" /\
  Allocate.fetch Samples.history_enb_down ["CNQ"] "3y"
  = Returned [("CNQ", [qz 100; qz 101; qz 99])].
Proof.
  repeat split; vm_compute; reflexivity.
Qed.

(** ** get_latest_nav *)

Import FetchMfNav.

(** C10.  When the body that mfapi.in returns for a scheme has an empty
    data list, [get_latest_nav] returns (it does not raise) a dict whose
    nav and date are None; and every dict that [get_latest_nav] returns
    carries the scheme_code it was called with. *)
Theorem get_latest_nav_spec
  (http_get : Z -> response) (float_of_string : string -> option Qc)
  (code : Z) :
  (forall body,
      http_get code = ResponseJson body ->
      data body = Some [] ->
      exists r,
        get_latest_nav http_get float_of_string code = Returned r /\
        nav r = None /\ date r = JNull) /\
  (forall r,
      get_latest_nav http_get float_of_string code = Returned r ->
      scheme_code r = code).
Proof.
  split.
  - intros body Hget Hdata. unfold get_latest_nav, get_mf_nav.
    rewrite Hget, Hdata. eexists. split; [reflexivity |]. split; reflexivity.
  - intros r. unfold get_latest_nav, get_mf_nav.
    destruct (http_get code) as [e | body]; [discriminate|].
    destruct (data body) as [[| latest rest] |].
    + intros [= <-]. reflexivity.
    + destruct latest as [| kv latest'].
      * intros [= <-]. reflexivity.
      * destruct (float float_of_string (dict_get "nav" (JNum 0) (kv :: latest')));
          try discriminate.
        intros [= <-]. reflexivity.
    + intros [= <-]. reflexivity.
Qed.

Lemma get_latest_nav_spec_witness :
  exists r,
    get_latest_nav Samples.mfapi_unknown_scheme (fun _ => None) 119551
    = Returned r /\
    nav r = None /\ date r = JNull /\ scheme_code r = 119551%Z.
Proof.
  destruct (get_latest_nav_spec Samples.mfapi_unknown_scheme
              (fun _ => None) 119551) as [Hempty Hcode].
  destruct (Hempty _ eq_refl eq_refl) as (r & Hr & Hnav & Hdate).
  exists r. repeat split; try assumption. exact (Hcode r Hr).
Defined.

(** ** allocate (allocate.py) *)

Import Allocate.

Lemma qz_this (z : Z) : (this (qz z) == inject_Z z)%Q.
Proof. unfold qz, Q2Qc; cbn [this]. apply Qred_correct. Qed.

Lemma qz_mult (a b : Z) : qz a * qz b = qz (a * b).
Proof.
  apply Qc_is_canon. unfold Qcmult, Q2Qc; cbn [this].
  rewrite Qred_correct, !qz_this, inject_Z_mult. reflexivity.
Qed.

(** NumPy's round is within one half of its argument. *)
Lemma round_half_even_close (x : Qc) :
  qz (round_half_even x) - Q2Qc (1 # 2) <= x /\
  x <= qz (round_half_even x) + Q2Qc (1 # 2).
Proof.
  unfold round_half_even.
  pose proof (Qfloor_le x) as Hlo. pose proof (Qlt_floor x) as Hhi.
  rewrite inject_Z_plus in Hhi. change (inject_Z 1) with 1%Q in Hhi.
  set (f := Qfloor x) in *.
  assert (Hup : (this (qz (f + 1)) == inject_Z f + 1)%Q).
  { rewrite qz_this, inject_Z_plus. reflexivity. }
  destruct (Qc_ltb (x - qz f) (Q2Qc (1 # 2))) eqn:E1.
  - apply Qc_ltb_true in E1. pose proof (qz_this f) as Hf.
    unfold Qcle, Qclt, Qcminus, Qcplus, Qcopp, Q2Qc in *; cbn [this] in *.
    rewrite ?Qred_correct in *. split; lra.
  - apply Qc_ltb_false in E1.
    assert (Hcase : qz (f + 1) - Q2Qc (1 # 2) <= x /\
                    x <= qz (f + 1) + Q2Qc (1 # 2)).
    { pose proof (qz_this f) as Hf.
      unfold Qcle, Qclt, Qcminus, Qcplus, Qcopp, Q2Qc in *; cbn [this] in *.
      rewrite ?Qred_correct in *. split; lra. }
    destruct (Qc_ltb (Q2Qc (1 # 2)) (x - qz f)) eqn:E2; [exact Hcase|].
    apply Qc_ltb_false in E2.
    destruct (Z.even f); [| exact Hcase].
    pose proof (qz_this f) as Hf.
    unfold Qcle, Qclt, Qcminus, Qcplus, Qcopp, Q2Qc in *; cbn [this] in *.
    rewrite ?Qred_correct in *. split; lra.
Qed.

(** An amount rounded to the thousand is a whole number of thousands within
    500 of the amount. *)
Lemma round_to_thousand_close (v : Qc) :
  let a := qz (round_half_even (v / qz 1000)) * qz 1000 in
  (exists k : Z, a = qz (1000 * k)) /\ v - qz 500 <= a /\ a <= v + qz 500.
Proof.
  cbv zeta. split.
  - exists (round_half_even (v / qz 1000)). rewrite qz_mult, Z.mul_comm.
    reflexivity.
  - destruct (round_half_even_close (v / qz 1000)) as [H1 H2].
    pose proof (qz_this (round_half_even (v / qz 1000))) as Hk.
    pose proof (qz_this 1000) as H1000. pose proof (qz_this 500) as H500.
    set (k := qz (round_half_even (v / qz 1000))) in *.
    unfold Qcle, Qcdiv, Qcinv, Qcmult, Qcminus, Qcplus, Qcopp, Q2Qc in *;
      cbn [this] in *.
    rewrite ?Qred_correct in *. rewrite H1000 in *. rewrite H500.
    change (inject_Z 1000) with 1000%Q in *.
    change (inject_Z 500) with 500%Q.
    assert (Hv : (this v == (this v * / 1000) * 1000)%Q) by (field; discriminate).
    set (w := (this v * / 1000)%Q) in *. clearbody w k.
    split; lra.
Qed.

Lemma series_div_index (s s' : Series) (d : Qc) :
  series_div s d = Some s' -> index s' = index s.
Proof.
  unfold series_div. destruct s as [| kv rest] eqn:Es.
  - intros [= <-]. reflexivity.
  - rewrite <- Es. destruct (Qc_eqb d 0); [discriminate|].
    intros [= <-]. unfold index. rewrite map_map. reflexivity.
Qed.

Lemma index_map_if (P : Qc -> bool) (c : Qc) (s : Series) :
  index (map (fun kv => if P (snd kv) then (fst kv, c) else kv) s) = index s.
Proof.
  unfold index. rewrite map_map. apply map_ext. intros [k v]; simpl.
  destruct (P v); reflexivity.
Qed.

(** A pass keeps the tickers, and its renormalisation makes the positions
    total [capital]. *)
Lemma allocation_pass_spec (capital min_w max_w : Qc) (alloc alloc' : Series) :
  allocation_pass capital min_w max_w alloc = Some alloc' ->
  index alloc' = index alloc /\
  (alloc' <> [] -> qsum (values alloc') = capital).
Proof.
  unfold allocation_pass. intros H.
  apply scale_by_quotient_spec in H as [Hi Hs]. split.
  - rewrite Hi.
    rewrite (index_map_if (fun v => Qc_ltb (capital * max_w) v)).
    apply (index_map_if (fun v => Qc_ltb v (capital * min_w))).
  - intros Hne. destruct (Hs Hne) as [Hnz ->].
    rewrite qsum_scale. field. exact Hnz.
Qed.

Lemma allocation_loop_spec (n : nat) (capital min_w max_w : Qc)
  (alloc raw : Series) :
  allocation_loop (S n) capital min_w max_w alloc = Some raw ->
  index raw = index alloc /\ (raw <> [] -> qsum (values raw) = capital).
Proof.
  revert alloc. induction n as [| n IH]; intros alloc.
  - simpl. destruct (allocation_pass capital min_w max_w alloc) as [a |] eqn:E;
      [| discriminate].
    simpl. intros [= <-]. exact (allocation_pass_spec _ _ _ _ _ E).
  - change (allocation_loop (S (S n)) capital min_w max_w alloc)
      with (alloc' <- allocation_pass capital min_w max_w alloc ;;
            allocation_loop (S n) capital min_w max_w alloc').
    destruct (allocation_pass capital min_w max_w alloc) as [a |] eqn:E;
      [| discriminate].
    cbn [obind]. intros H. destruct (IH _ H) as [Hi Hs].
    destruct (allocation_pass_spec _ _ _ _ _ E) as [Hi' _].
    split; [rewrite Hi; exact Hi' | exact Hs].
Qed.

(** [sort_desc]: a permutation, sorted by decreasing value. *)


Lemma insert_desc_perm (x : string * Qc) (l : Series) :
  Permutation (insert_desc x l) (x :: l).
Proof.
  induction l as [| y l IH]; simpl; [reflexivity|].
  destruct (Qc_ltb (snd y) (snd x)); [reflexivity|].
  rewrite IH. apply perm_swap.
Qed.

Lemma insert_desc_sorted (x : string * Qc) (l : Series) :
  StronglySorted not_below l -> StronglySorted not_below (insert_desc x l).
Proof.
  induction 1 as [| y l Hl IH Hy]; simpl.
  - repeat constructor.
  - destruct (Qc_ltb (snd y) (snd x)) eqn:E.
    + apply Qc_ltb_true in E. constructor; [constructor; assumption|].
      constructor; [apply Qclt_le_weak, E|].
      eapply Forall_impl; [| exact Hy]. intros z Hz. unfold not_below in *.
      eapply Qcle_trans; [exact Hz | apply Qclt_le_weak, E].
    + apply Qc_ltb_false in E. constructor; [exact IH|].
      apply (Permutation_Forall (Permutation_sym (insert_desc_perm x l))).
      constructor; assumption.
Qed.

Lemma sort_desc_fold (s acc : Series) :
  StronglySorted not_below acc ->
  StronglySorted not_below (fold_left (fun a x => insert_desc x a) s acc) /\
  Permutation (fold_left (fun a x => insert_desc x a) s acc) (s ++ acc).
Proof.
  revert acc. induction s as [| x s IH]; intros acc Hacc; simpl.
  - split; [assumption | reflexivity].
  - destruct (IH _ (insert_desc_sorted x acc Hacc)) as [Hs Hp]. split;
      [exact Hs|].
    rewrite Hp, insert_desc_perm. symmetry. apply Permutation_middle.
Qed.

(** [nlargest] splits the Series into the entries it returns and the rest;
    no entry of the rest has a larger value than a returned entry. *)
Lemma nlargest_top (n : Z) (s : Series) :
  exists rest,
    Permutation (nlargest n s ++ rest) s /\
    List.length (nlargest n s) = Nat.min (Z.to_nat n) (List.length s) /\
    forall x y, In x (nlargest n s) -> In y rest -> snd y <= snd x.
Proof.
  unfold nlargest, sort_desc.
  destruct (sort_desc_fold s [] (SSorted_nil _)) as [Hs Hp].
  rewrite app_nil_r in Hp.
  set (l := fold_left (fun a x => insert_desc x a) s []) in *.
  exists (skipn (Z.to_nat n) l). split; [| split].
  - rewrite firstn_skipn. exact Hp.
  - rewrite length_firstn, (Permutation_length Hp). reflexivity.
  - intros x y Hx Hy. rewrite <- (firstn_skipn (Z.to_nat n) l) in Hs.
    clear Hp. revert Hs Hx Hy.
    generalize (firstn (Z.to_nat n) l) (skipn (Z.to_nat n) l).
    intros l1 l2. induction l1 as [| z l1 IH]; simpl; [contradiction|].
    intros Hs [-> | Hx] Hy; inversion Hs as [| ? ? Hs' Hall]; subst.
    + rewrite Forall_forall in Hall. apply (Hall y), in_or_app. right. exact Hy.
    + exact (IH Hs' Hx Hy).
Qed.


Lemma round_to_thousand_rounded (raw : Series) :
  rounded_from (round_to_thousand raw) raw.
Proof.
  unfold rounded_from, round_to_thousand.
  induction raw as [| [k v] raw IH]; simpl; constructor; [| exact IH].
  simpl. split; [reflexivity|]. apply round_to_thousand_close.
Qed.

Lemma index_round_to_thousand (raw : Series) :
  index (round_to_thousand raw) = index raw.
Proof. unfold index, round_to_thousand. rewrite map_map. reflexivity. Qed.

(** *** The statistics of [allocate] and the ones of the specification *)

Lemma iloc_int_neg_nth (k : nat) (col : list Qc) :
  (1 <= k <= List.length col)%nat ->
  iloc_int (- Z.of_nat k) col = nth_error col (List.length col - k).
Proof.
  intros [H1 H2]. unfold iloc_int.
  destruct (0 <=? - Z.of_nat k)%Z eqn:E; [apply Z.leb_le in E; lia |].
  destruct (0 <=? Z.of_nat (List.length col) + - Z.of_nat k)%Z eqn:E2;
    [| apply Z.leb_gt in E2; lia].
  f_equal. lia.
Qed.

(** A negative position of [iloc] counts the rows from the last one. *)
Lemma iloc_int_neg_rev (k : nat) (col : list Qc) :
  (1 <= k)%nat ->
  iloc_int (- Z.of_nat k) col = nth_error (rev col) (k - 1).
Proof.
  intros Hk. rewrite nth_error_rev.
  destruct (k - 1 <? List.length col)%nat eqn:E.
  - apply Nat.ltb_lt in E. rewrite iloc_int_neg_nth by lia. f_equal. lia.
  - apply Nat.ltb_ge in E. unfold iloc_int.
    destruct (0 <=? - Z.of_nat k)%Z eqn:E1; [apply Z.leb_le in E1; lia |].
    destruct (0 <=? Z.of_nat (List.length col) + - Z.of_nat k)%Z eqn:E2;
      [| reflexivity].
    apply Z.leb_le in E2. lia.
Qed.

Lemma window_return_claimed (a b : nat) (col : list Qc) :
  (1 <= a)%nat -> (1 <= b)%nat ->
  window_return (Z.of_nat a) (Z.of_nat b) col
  = ClaimedAllocation.claimed_momentum a b col.
Proof.
  intros Ha Hb. unfold window_return, ClaimedAllocation.claimed_momentum.
  rewrite !iloc_int_neg_rev by assumption. reflexivity.
Qed.

Lemma stats_of_claimed (sqrt : Qc -> Qc) (price ret : list Qc)
  (st : ticker_stats) :
  stats_of sqrt price ret = Some (Some st) ->
  ClaimedAllocation.claimed_row sqrt price ret
  = Some (Some (Allocate.score st, mom_12w_2w st)).
Proof.
  unfold stats_of, ClaimedAllocation.claimed_row,
    ClaimedAllocation.claimed_score.
  rewrite <- (window_return_claimed 21 252), <- (window_return_claimed 21 126),
    <- (window_return_claimed 10 60) by lia.
  change (Z.of_nat 21) with 21%Z. change (Z.of_nat 252) with 252%Z.
  change (Z.of_nat 126) with 126%Z. change (Z.of_nat 10) with 10%Z.
  change (Z.of_nat 60) with 60%Z.
  destruct (window_return 21 252 price) as [[m12 |] |];
    destruct (window_return 21 126 price) as [[m6 |] |];
    destruct (window_return 10 60 price) as [[m12w |] |];
    try discriminate.
  cbn [obind].
  change (ClaimedScore.claimed_downside_volatility sqrt ret)
    with (annualized_negative_std sqrt ret).
  destruct (annualized_negative_std sqrt ret) as [dv |]; [| discriminate].
  cbn [obind nlift2 option_map ndiv].
  destruct (fdiv ((m12 + m6 + m12w) / qz 3) dv) as [sc |]; [| discriminate].
  cbn [obind]. intros [= <-]. reflexivity.
Qed.

Lemma stats_of_frame_claimed (sqrt : Qc -> Qc) (prices : Frame) :
  forall (ret : Frame) (stats : list (string * ticker_stats)),
    stats_of_frame sqrt prices ret = Some (Some stats) ->
    ClaimedAllocation.claimed_table sqrt prices ret
    = Some (Some (map (fun kv =>
                         (fst kv, (Allocate.score (snd kv), mom_12w_2w (snd kv))))
                      stats)).
Proof.
  induction prices as [| [t price] prices IH]; intros ret stats.
  - simpl. intros [= <-]. reflexivity.
  - destruct ret as [| [t' r] ret]; [simpl; intros [= <-]; reflexivity |].
    cbn [stats_of_frame ClaimedAllocation.claimed_table].
    destruct (stats_of sqrt price r) as [st |] eqn:Est; [| discriminate].
    destruct (stats_of_frame sqrt prices ret) as [rest |] eqn:Erest;
      [| discriminate].
    destruct st as [st |]; [| discriminate].
    destruct rest as [rest |]; [| discriminate].
    cbn [obind]. intros [= <-].
    rewrite (stats_of_claimed _ _ _ _ Est), (IH _ _ Erest). reflexivity.
Qed.

Lemma loc_of_stats (f : ticker_stats -> Qc) (t : string)
  (stats : list (string * ticker_stats)) :
  loc t (map (fun kv => (fst kv, f (snd kv))) stats)
  = match assoc t stats with
    | Some st => f st
    | None => 0
    end.
Proof.
  induction stats as [| [k st] stats IH]; simpl; [reflexivity |].
  destruct (String.eqb t k); [reflexivity | exact IH].
Qed.

Lemma clipped_momentum_claimed (stats : list (string * ticker_stats))
  (top : list string) :
  clipped_momentum stats top
  = map (fun kv => (fst kv, qmax 0 (snd kv)))
        (map (fun t =>
                (t, loc t (map (fun kv => (fst kv, mom_12w_2w (snd kv))) stats)))
             top).
Proof.
  unfold clipped_momentum. rewrite map_map. apply map_ext. intros t. simpl.
  rewrite (loc_of_stats mom_12w_2w). destruct (assoc t stats); [reflexivity |].
  unfold qmax. destruct (Qc_ltb 0 0); reflexivity.
Qed.

Lemma series_div_claimed (capital : Qc) (momentum shares : Series) :
  let clipped := map (fun kv => (fst kv, qmax 0 (snd kv))) momentum in
  series_div clipped (qsum (values clipped)) = Some shares ->
  ClaimedAllocation.claimed_weights capital momentum
  = Some (scale capital shares).
Proof.
  cbv zeta. unfold series_div, ClaimedAllocation.claimed_weights.
  destruct (map (fun kv => (fst kv, qmax 0 (snd kv))) momentum)
    as [| kv rest] eqn:E.
  - intros [= <-]. reflexivity.
  - rewrite <- E. destruct (Qc_eqb (qsum (values _)) 0); [discriminate |].
    intros [= <-]. unfold scale. rewrite !map_map. reflexivity.
Qed.

(** *** The passes of [allocate] and the ones of the specification *)

Lemma clamp_steps (lo hi v : Qc) :
  (if Qc_ltb hi (if Qc_ltb v lo then lo else v)
   then hi else if Qc_ltb v lo then lo else v)
  = ClaimedAllocation.clamp lo hi v.
Proof.
  unfold ClaimedAllocation.clamp, qmin, qmax.
  assert (Hfloor : (if Qc_ltb v lo then lo else v)
                   = (if Qc_ltb lo v then v else lo)).
  { destruct (Qc_ltb v lo) eqn:E1, (Qc_ltb lo v) eqn:E2; try reflexivity.
    - apply Qc_ltb_true in E1, E2. exfalso.
      exact (Qclt_not_le _ _ E1 (Qclt_le_weak _ _ E2)).
    - apply Qc_ltb_false in E1, E2. apply Qcle_antisym; assumption. }
  rewrite Hfloor. set (x := if Qc_ltb lo v then v else lo).
  destruct (Qc_ltb hi x) eqn:E1, (Qc_ltb x hi) eqn:E2; try reflexivity.
  - apply Qc_ltb_true in E1, E2. exfalso.
    exact (Qclt_not_le _ _ E1 (Qclt_le_weak _ _ E2)).
  - apply Qc_ltb_false in E1, E2. apply Qcle_antisym; assumption.
Qed.

Lemma allocation_pass_claimed (capital min_w max_w : Qc) (alloc : Series) :
  allocation_pass capital min_w max_w alloc
  = ClaimedAllocation.claimed_pass capital (capital * min_w) (capital * max_w)
      alloc.
Proof.
  unfold allocation_pass, ClaimedAllocation.claimed_pass.
  assert (E : map (fun kv => if Qc_ltb (capital * max_w) (snd kv)
                             then (fst kv, capital * max_w) else kv)
                  (map (fun kv => if Qc_ltb (snd kv) (capital * min_w)
                                  then (fst kv, capital * min_w) else kv) alloc)
              = map (fun kv =>
                       (fst kv,
                        ClaimedAllocation.clamp (capital * min_w)
                          (capital * max_w) (snd kv)))
                    alloc).
  { rewrite map_map. apply map_ext. intros [k v]. simpl.
    rewrite <- clamp_steps.
    destruct (Qc_ltb v (capital * min_w)); simpl;
      destruct (Qc_ltb (capital * max_w) _); reflexivity. }
  rewrite E. reflexivity.
Qed.

Lemma allocation_loop_claimed (n : nat) (capital min_w max_w : Qc) :
  forall alloc : Series,
    allocation_loop n capital min_w max_w alloc
    = ClaimedAllocation.claimed_passes n capital (capital * min_w)
        (capital * max_w) alloc.
Proof.
  induction n as [| n IH]; intros alloc; [reflexivity |].
  cbn [allocation_loop ClaimedAllocation.claimed_passes].
  rewrite allocation_pass_claimed.
  destruct (ClaimedAllocation.claimed_pass capital (capital * min_w)
              (capital * max_w) alloc); [| reflexivity].
  cbn [obind]. apply IH.
Qed.

Lemma claimed_passes_last (n : nat) (capital lo hi : Qc) :
  forall alloc raw : Series,
    ClaimedAllocation.claimed_passes (S n) capital lo hi alloc = Some raw ->
    exists previous,
      ClaimedAllocation.claimed_pass capital lo hi previous = Some raw.
Proof.
  induction n as [| n IH]; intros alloc raw.
  - cbn [ClaimedAllocation.claimed_passes].
    destruct (ClaimedAllocation.claimed_pass capital lo hi alloc) as [a |] eqn:E;
      [| discriminate].
    cbn [obind]. intros [= <-]. exists alloc. exact E.
  - change (ClaimedAllocation.claimed_passes (S (S n)) capital lo hi alloc)
      with (alloc' <- ClaimedAllocation.claimed_pass capital lo hi alloc ;;
            ClaimedAllocation.claimed_passes (S n) capital lo hi alloc').
    destruct (ClaimedAllocation.claimed_pass capital lo hi alloc) as [a |];
      [| discriminate].
    cbn [obind]. apply IH.
Qed.

Lemma clamp_within (lo hi v : Qc) :
  lo <= hi ->
  lo <= ClaimedAllocation.clamp lo hi v /\ ClaimedAllocation.clamp lo hi v <= hi.
Proof.
  intros H. unfold ClaimedAllocation.clamp, qmin, qmax.
  destruct (Qc_ltb lo v) eqn:E1.
  - apply Qc_ltb_true in E1. destruct (Qc_ltb v hi) eqn:E2.
    + apply Qc_ltb_true in E2. split; apply Qclt_le_weak; assumption.
    + split; [exact H | apply Qcle_refl].
  - destruct (Qc_ltb lo hi) eqn:E2.
    + apply Qc_ltb_true in E2. split; [apply Qcle_refl | exact H].
    + split; [exact H | apply Qcle_refl].
Qed.

(** The last pass: positions within the bounds, rescaled. *)
Lemma claimed_pass_bounds (capital lo hi : Qc) (previous raw : Series) :
  lo <= hi ->
  ClaimedAllocation.claimed_pass capital lo hi previous = Some raw ->
  exists clamped,
    index clamped = index raw /\
    within_bounds lo hi clamped /\
    scale_by_quotient capital (qsum (values clamped)) clamped = Some raw.
Proof.
  intros H Hp. unfold ClaimedAllocation.claimed_pass in Hp.
  exists (map (fun kv => (fst kv, ClaimedAllocation.clamp lo hi (snd kv)))
              previous).
  split; [| split; [| exact Hp]].
  - symmetry. exact (proj1 (scale_by_quotient_spec _ _ _ _ Hp)).
  - unfold within_bounds, values. rewrite map_map, Forall_map.
    apply Forall_forall. intros kv _. simpl. apply clamp_within, H.
Qed.

(** *** The total after the rounding *)

Lemma rounded_step (v a sv sa n : Qc) :
  v - qz 500 <= a -> a <= v + qz 500 ->
  sv - qz 500 * n <= sa -> sa <= sv + qz 500 * n ->
  v + sv - qz 500 * (n + 1) <= a + sa /\ a + sa <= v + sv + qz 500 * (n + 1).
Proof.
  unfold Qcle, Qcminus, Qcplus, Qcopp, Qcmult, qz, Q2Qc; cbn [this].
  rewrite ?Qred_correct. change (inject_Z 500) with 500%Q. intros. split; lra.
Qed.

Lemma qz_plus (a b : Z) : qz a + qz b = qz (a + b).
Proof.
  apply Qc_is_canon. unfold Qcplus, Q2Qc; cbn [this].
  rewrite Qred_correct, !qz_this, inject_Z_plus. reflexivity.
Qed.

Lemma qz_succ (n : nat) : qz (Z.of_nat (S n)) = qz (Z.of_nat n) + 1.
Proof.
  rewrite Nat2Z.inj_succ. unfold Z.succ. rewrite <- qz_plus. reflexivity.
Qed.

Lemma rounded_from_total (alloc raw : Series) :
  rounded_from alloc raw ->
  let n := qz (Z.of_nat (List.length alloc)) in
  qsum (values raw) - qz 500 * n <= qsum (values alloc) /\
  qsum (values alloc) <= qsum (values raw) + qz 500 * n.
Proof.
  cbv zeta. induction 1 as [| [k a] [k' r] alloc raw (_ & _ & H1 & H2) _ [IH1 IH2]].
  - simpl. split; vm_compute; discriminate.
  - cbn [values map qsum fold_right List.length snd] in *. rewrite qz_succ.
    apply rounded_step; assumption.
Qed.

Lemma total_near (s t c n : Qc) :
  s = c ->
  s - qz 500 * n <= t -> t <= s + qz 500 * n ->
  qabs (s - c) <= Q2Qc (1 # 100) /\
  c - (qz 500 * n + Q2Qc (1 # 100)) <= t /\
  t <= c + (qz 500 * n + Q2Qc (1 # 100)).
Proof.
  intros ->. split.
  - replace (c - c) with 0 by ring. vm_compute. discriminate.
  - revert H H0.
    unfold Qcle, Qcminus, Qcplus, Qcopp, Qcmult, qz, Q2Qc; cbn [this].
    rewrite ?Qred_correct. change (inject_Z 500) with 500%Q. intros. split; lra.
Qed.

(** What [allocate] does with the frame of prices it fetched. *)
Lemma allocate_from_spec (sqrt : Qc -> Qc) (prices : Frame)
  (capital top_n : Z) (min_w max_w : Qc)
  (alloc : Series) (scores : list (string * score_row)) :
  allocate_from sqrt prices capital top_n min_w max_w = Returned (alloc, scores) ->
  exists returns table selected start raw,
    let score := map (fun kv => (fst kv, fst (snd kv))) table in
    let momentum := map (fun kv => (fst kv, snd (snd kv))) table in
    let lo := qz capital * min_w in
    let hi := qz capital * max_w in
    pct_change_dropna prices = Some returns /\
    ClaimedAllocation.claimed_table sqrt prices returns = Some (Some table) /\
    map (fun kv => (fst kv, s_score (snd kv))) scores = score /\
    top_by_value top_n score selected /\
    index alloc = index selected /\
    ClaimedAllocation.claimed_weights (qz capital)
      (map (fun t => (t, loc t momentum)) (index selected)) = Some start /\
    ClaimedAllocation.claimed_passes 10 (qz capital) lo hi start = Some raw /\
    rounded_from alloc raw /\
    (lo <= hi ->
     exists clamped,
       index clamped = index raw /\
       within_bounds lo hi clamped /\
       scale_by_quotient (qz capital) (qsum (values clamped)) clamped
       = Some raw) /\
    (raw <> [] ->
     let n := qz (Z.of_nat (List.length alloc)) in
     qabs (qsum (values raw) - qz capital) <= Q2Qc (1 # 100) /\
     qz capital - (qz 500 * n + Q2Qc (1 # 100)) <= qsum (values alloc) /\
     qsum (values alloc) <= qz capital + (qz 500 * n + Q2Qc (1 # 100))).
Proof.
  unfold allocate_from.
  destruct (allocate_unrounded sqrt prices capital top_n min_w max_w)
    as [[raw stats] | e |] eqn:E; try discriminate.
  intros [= <- <-]. revert E. unfold allocate_unrounded.
  destruct (nrows prices <? 252)%nat; [discriminate|].
  destruct (pct_change_dropna prices) as [ret |]; [| discriminate].
  destruct (stats_of_frame sqrt prices ret) as [[stats' |] |] eqn:Est;
    try discriminate.
  cbv zeta.
  set (score := map (fun kv => (fst kv, Allocate.score (snd kv))) stats').
  set (selected := nlargest top_n score).
  rewrite clipped_momentum_claimed.
  set (momentum := map (fun t =>
                          (t, loc t (map (fun kv => (fst kv, mom_12w_2w (snd kv)))
                                         stats')))
                       (index selected)).
  destruct (series_div (map (fun kv => (fst kv, qmax 0 (snd kv))) momentum)
              (qsum (values (map (fun kv => (fst kv, qmax 0 (snd kv))) momentum))))
    as [shares |] eqn:Esh; [| discriminate].
  cbn [obind]. rewrite allocation_loop_claimed.
  destruct (ClaimedAllocation.claimed_passes 10 (qz capital)
              (qz capital * min_w) (qz capital * max_w)
              (scale (qz capital) shares)) as [raw' |] eqn:Eloop;
    [| discriminate].
  intros [= <- <-].
  exists ret,
    (map (fun kv => (fst kv, (Allocate.score (snd kv), mom_12w_2w (snd kv))))
         stats'),
    selected, (scale (qz capital) shares), raw'.
  cbv zeta.
  assert (Hscore : map (fun kv : string * (Qc * Qc) => (fst kv, fst (snd kv)))
                       (map (fun kv =>
                               (fst kv,
                                (Allocate.score (snd kv), mom_12w_2w (snd kv))))
                            stats') = score).
  { rewrite map_map. reflexivity. }
  assert (Hmom : map (fun kv : string * (Qc * Qc) => (fst kv, snd (snd kv)))
                     (map (fun kv =>
                             (fst kv,
                              (Allocate.score (snd kv), mom_12w_2w (snd kv))))
                          stats')
                 = map (fun kv => (fst kv, mom_12w_2w (snd kv))) stats').
  { rewrite map_map. reflexivity. }
  rewrite Hscore, Hmom. fold momentum.
  assert (Hloop : allocation_loop 10 (qz capital) min_w max_w
                    (scale (qz capital) shares) = Some raw')
    by (rewrite allocation_loop_claimed; exact Eloop).
  destruct (allocation_loop_spec _ _ _ _ _ _ Hloop) as [Hidx Hsum].
  split; [reflexivity |].
  split; [exact (stats_of_frame_claimed _ _ _ _ Est) |].
  split; [unfold scores_frame; rewrite map_map; reflexivity |].
  split; [apply nlargest_top |].
  split.
  { rewrite index_round_to_thousand, Hidx, index_scale.
    rewrite (series_div_index _ _ _ Esh). unfold momentum, index.
    rewrite !map_map. reflexivity. }
  split; [exact (series_div_claimed (qz capital) momentum shares Esh) |].
  split; [exact Eloop |].
  split; [apply round_to_thousand_rounded |].
  split.
  - intros Hb. destruct (claimed_passes_last _ _ _ _ _ _ Eloop) as (prev & Hp).
    exact (claimed_pass_bounds _ _ _ _ _ Hb Hp).
  - intros Hne. cbv zeta.
    destruct (rounded_from_total _ _ (round_to_thousand_rounded raw'))
      as [T1 T2].
    exact (total_near _ _ _ _ (Hsum Hne) T1 T2).
Qed.




(** ** round_to_nearest, calculate_shares and the weekly plan *)

Import UsPortfolioReport.

Lemma qz_pos (m : Z) : (0 < m)%Z -> 0 < qz m.
Proof.
  intros H. unfold qz, Qclt, Q2Qc; cbn [this]. rewrite !Qred_correct.
  change 0%Q with (inject_Z 0). rewrite <- Zlt_Qlt. exact H.
Qed.

Lemma qz_nonzero (m : Z) : (m <> 0)%Z -> qz m <> 0.
Proof.
  intros H E. apply H. apply (f_equal this) in E.
  unfold qz, Q2Qc in E; cbn [this] in E.
  assert (Hq : (inject_Z m == 0)%Q).
  { rewrite <- (Qred_correct (inject_Z m)), E. reflexivity. }
  unfold Qeq in Hq. simpl in Hq. lia.
Qed.

(** A quotient rounded and multiplied back is within half the multiple. *)
Lemma round_multiple_close (v : Qc) (m : Z) :
  (0 < m)%Z ->
  v - qz m / qz 2 <= qz (round_half_even (v / qz m) * m) /\
  qz (round_half_even (v / qz m) * m) <= v + qz m / qz 2.
Proof.
  intros Hm. pose proof (qz_pos m Hm) as Hpos.
  assert (Hnz : qz m <> 0) by (apply qz_nonzero; lia).
  destruct (round_half_even_close (v / qz m)) as [H1 H2].
  rewrite <- qz_mult. set (k := qz (round_half_even (v / qz m))) in *.
  assert (Hv : v = v / qz m * qz m) by (field; exact Hnz).
  assert (Hhalf : Q2Qc (1 # 2) * qz m = qz m / qz 2).
  { apply Qc_is_canon. unfold Qcdiv, Qcinv, Qcmult, Q2Qc; cbn [this].
    rewrite !Qred_correct. rewrite !qz_this. change (inject_Z 2) with 2%Q.
    field. }
  split.
  - apply (Qcmult_le_compat_r _ _ (qz m)) in H2; [| apply Qclt_le_weak, Hpos].
    rewrite <- Hv in H2. rewrite Qcmult_plus_distr_l, Hhalf in H2.
    apply Qcle_minus_iff in H2. apply Qcle_minus_iff.
    replace (k * qz m + - (v - qz m / qz 2)) with (k * qz m + qz m / qz 2 + - v)
      by ring. exact H2.
  - apply (Qcmult_le_compat_r _ _ (qz m)) in H1; [| apply Qclt_le_weak, Hpos].
    rewrite <- Hv in H1. unfold Qcminus in H1.
    rewrite Qcmult_plus_distr_l in H1.
    replace (- Q2Qc (1 # 2) * qz m) with (- (qz m / qz 2)) in H1
      by (rewrite <- Hhalf; ring).
    apply Qcle_minus_iff in H1. apply Qcle_minus_iff.
    replace (v + qz m / qz 2 + - (k * qz m))
      with (v + - (k * qz m + - (qz m / qz 2))) by ring.
    exact H1.
Qed.

(** X1.  For a positive [multiple], [round_to_nearest] returns a whole
    multiple of its step that is within half a step of the value, the step
    being 100 for a value below 500 and [multiple] otherwise. *)
Theorem round_to_nearest_close (value : Qc) (multiple : Z) :
  (0 < multiple)%Z ->
  exists r,
    round_to_nearest value multiple = Some r /\
    let step := if Qc_ltb value (qz 500) then 100%Z else multiple in
    (step | r)%Z /\
    value - qz step / qz 2 <= qz r /\ qz r <= value + qz step / qz 2.
Proof.
  intros Hm. unfold round_to_nearest.
  destruct (Qc_ltb value (qz 500)) eqn:E.
  - eexists. split; [reflexivity |]. cbv zeta. split.
    + apply Z.divide_factor_r.
    + apply round_multiple_close. lia.
  - destruct (multiple =? 0)%Z eqn:E0; [apply Z.eqb_eq in E0; lia |].
    eexists. split; [reflexivity |]. cbv zeta. split.
    + apply Z.divide_factor_r.
    + apply round_multiple_close. exact Hm.
Qed.

Lemma round_to_nearest_close_witness :
  exists r,
    round_to_nearest (qz 2540) 1000 = Some r /\
    let step := if Qc_ltb (qz 2540) (qz 500) then 100%Z else 1000%Z in
    (step | r)%Z /\
    qz 2540 - qz step / qz 2 <= qz r /\ qz r <= qz 2540 + qz step / qz 2.
Proof.
  apply (round_to_nearest_close (qz 2540) 1000). lia.
Defined.

Lemma sequence_map_Forall2 {X A : Type} (f : X -> option A) (l : list X)
  (r : list A) :
  sequence (map f l) = Some r -> Forall2 (fun x y => f x = Some y) l r.
Proof.
  revert r. induction l as [| x l IH]; intros r; simpl.
  - intros [= <-]. constructor.
  - destruct (f x) as [v |] eqn:E; [| discriminate].
    destruct (sequence (map f l)) as [r' |]; simpl; [| discriminate].
    intros [= <-]. constructor; [exact E | apply IH; reflexivity].
Qed.

Lemma round_to_nearest_thousand (v : Qc) (a : Z) :
  round_to_nearest v 1000 = Some a ->
  (100 | a)%Z /\ v - qz 500 <= qz a /\ qz a <= v + qz 500.
Proof.
  unfold round_to_nearest. destruct (Qc_ltb v (qz 500)).
  - intros [= <-]. split; [apply Z.divide_factor_r |].
    destruct (round_multiple_close v 100 ltac:(lia)) as [H1 H2].
    assert (H50 : qz 100 / qz 2 <= qz 500) by (vm_compute; discriminate).
    split.
    + eapply Qcle_trans; [| exact H1]. unfold Qcminus.
      apply Qcplus_le_compat; [apply Qcle_refl |]. apply Qcopp_le_compat, H50.
    + eapply Qcle_trans; [exact H2 |].
      apply Qcplus_le_compat; [apply Qcle_refl | exact H50].
  - simpl. intros [= <-]. split.
    + exists (round_half_even (v / qz 1000) * 10)%Z. lia.
    + assert (H500 : qz 1000 / qz 2 = qz 500) by qc_compute.
      rewrite <- H500. apply round_multiple_close. lia.
Qed.

Lemma calculate_shares_rows (prices : Frame) (total : Z) (allocation : Series) :
  forall (rounded : list Z) (latest : list Qc) (rows : list (string * share_row)),
    Forall2 (fun kv a => round_to_nearest (snd kv) 1000 = Some a)
            allocation rounded ->
    Forall2 (fun t p => latest_price prices t = Some p) (index allocation) latest ->
    Forall2 (fun tap ks =>
               (let '(t, a, p) := tap in
                sh <- fdiv (qz a) p ;;
                w <- fdiv (qz a) (qz total) ;;
                Some (t, {| Allocation_USD := a; Price := p; Shares := sh;
                            Weight_Pct := round2 (w * qz 100) |})) = Some ks)
            (combine (combine (index allocation) rounded) latest) rows ->
    Forall2 (fun kv ks =>
               fst ks = fst kv /\
               round_to_nearest (snd kv) 1000 = Some (Allocation_USD (snd ks)) /\
               latest_price prices (fst kv) = Some (Price (snd ks)) /\
               Price (snd ks) <> 0 /\
               Shares (snd ks) = qz (Allocation_USD (snd ks)) / Price (snd ks))
            allocation rows.
Proof.
  induction allocation as [| [t v] allocation IH]; intros rounded latest rows Hr Hl Hrows.
  - inversion Hr; subst. simpl in Hrows. inversion Hrows; subst. constructor.
  - inversion Hr as [| ? a ? rounded' Ha Hr']; subst.
    simpl in Hl. inversion Hl as [| ? p ? latest' Hp Hl']; subst.
    simpl in Hrows. inversion Hrows as [| ? ks ? rows' Hks Hrows']; subst.
    constructor; [| exact (IH _ _ _ Hr' Hl' Hrows')].
    simpl in Ha.
    destruct (fdiv (qz a) p) as [sh |] eqn:Esh; [| discriminate].
    destruct (fdiv (qz a) (qz total)) as [w |]; [| discriminate].
    cbn [obind] in Hks. injection Hks as <-.
    apply fdiv_some in Esh as [Hnz ->]. cbn. auto.
Qed.

(** The rows of a frame that [calculate_shares] returned, read back. *)
Lemma calculate_shares_inv (allocation : Series) (prices : Frame)
  (shares : list (string * share_row)) :
  calculate_shares allocation prices = Returned shares ->
  Forall2 (fun kv ks =>
             fst ks = fst kv /\
             round_to_nearest (snd kv) 1000 = Some (Allocation_USD (snd ks)) /\
             latest_price prices (fst kv) = Some (Price (snd ks)) /\
             Price (snd ks) <> 0 /\
             Shares (snd ks) = qz (Allocation_USD (snd ks)) / Price (snd ks))
          allocation shares.
Proof.
  unfold calculate_shares.
  destruct (nrows prices =? 0)%nat; [discriminate |].
  destruct (sequence (map (fun kv => round_to_nearest (snd kv) 1000) allocation))
    as [rounded |] eqn:Er; [| discriminate].
  destruct (sequence (map (latest_price prices) (index allocation)))
    as [latest |] eqn:El; [| discriminate].
  match goal with
  | |- match sequence (map ?f ?l) with _ => _ end = _ -> _ =>
      destruct (sequence (map f l)) as [rows |] eqn:Erows
  end; [| discriminate].
  intros [= <-].
  apply (calculate_shares_rows prices (fold_right Z.add 0%Z rounded)
           allocation rounded latest rows).
  - exact (sequence_map_Forall2 _ _ _ Er).
  - exact (sequence_map_Forall2 _ _ _ El).
  - exact (sequence_map_Forall2 _ _ _ Erows).
Qed.

(** X2.  When [calculate_shares] returns, the frame [shares] has one row
    per position of the allocation, in the same order, and in every row the
    amount is a whole number of hundreds within 500 of the position, the
    price is the last price of the ticker and is not zero, and the number
    of shares is the amount over the price. *)
Theorem calculate_shares_spec (allocation : Series) (prices : Frame)
  (shares : list (string * share_row)) :
  calculate_shares allocation prices = Returned shares ->
  Forall2 (share_of prices) allocation shares.
Proof.
  intros H. apply calculate_shares_inv in H.
  eapply Forall2_impl; [| exact H].
  intros [t v] [t' row] (Ht & Ha & Hp & Hnz & Hsh). simpl in *.
  destruct (round_to_nearest_thousand v _ Ha) as (Hd & Hlo & Hhi).
  unfold share_of; cbn.
  split; [exact Ht |]. split; [exact Hd |]. split; [exact Hlo |].
  split; [exact Hhi |]. split; [exact Hp |]. split; [exact Hnz | exact Hsh].
Qed.

Lemma calculate_shares_spec_witness :
  exists shares,
    calculate_shares MoreSamples.alloc_two Samples.prices_year = Returned shares /\
    Forall2 (share_of Samples.prices_year) MoreSamples.alloc_two shares.
Proof.
  eexists. split; [vm_compute; reflexivity |].
  eapply (calculate_shares_spec MoreSamples.alloc_two Samples.prices_year).
  vm_compute. reflexivity.
Defined.

Lemma hundredth_close (x y : Qc) :
  y * qz 100 - Q2Qc (1 # 2) <= x * qz 100 ->
  x * qz 100 <= y * qz 100 + Q2Qc (1 # 2) ->
  x - Q2Qc (5 # 1000) <= y /\ y <= x + Q2Qc (5 # 1000).
Proof.
  unfold Qcle, Qcminus, Qcplus, Qcopp, Qcmult, qz, Q2Qc; cbn [this].
  rewrite ?Qred_correct. change (inject_Z 100) with 100%Q.
  intros H1 H2. split; lra.
Qed.

(** [Series.round(2)] moves a value by at most half a hundredth. *)
Lemma round2_close (x : Qc) :
  x - Q2Qc (5 # 1000) <= round2 x /\ round2 x <= x + Q2Qc (5 # 1000).
Proof.
  unfold round2.
  destruct (round_half_even_close (x * qz 100)) as [H1 H2].
  assert (Hk : qz (round_half_even (x * qz 100)) / qz 100 * qz 100
               = qz (round_half_even (x * qz 100))).
  { field. apply qz_nonzero. lia. }
  apply hundredth_close; rewrite Hk; assumption.
Qed.

Lemma qsum_qz (l : list Z) : qsum (map qz l) = qz (fold_right Z.add 0%Z l).
Proof.
  induction l as [| a l IH]; simpl; [reflexivity |].
  rewrite IH. apply qz_plus.
Qed.

Lemma calculate_shares_weight_rows (total : Z) (idx : list string) :
  forall (rounded : list Z) (latest : list Qc) (rows : list (string * share_row)),
    List.length idx = List.length rounded ->
    List.length rounded = List.length latest ->
    Forall2 (fun tap ks =>
               (let '(t, a, p) := tap in
                sh <- fdiv (qz a) p ;;
                w <- fdiv (qz a) (qz total) ;;
                Some (t, {| Allocation_USD := a; Price := p; Shares := sh;
                            Weight_Pct := round2 (w * qz 100) |})) = Some ks)
            (combine (combine idx rounded) latest) rows ->
    Forall2 (fun a ks =>
               qz total <> 0 /\
               Weight_Pct (snd ks) = round2 (qz a / qz total * qz 100))
            rounded rows.
Proof.
  induction idx as [| t idx IH]; intros [| a rounded] [| p latest] rows H1 H2 Hrows;
    try discriminate.
  - simpl in Hrows. inversion Hrows; subst. constructor.
  - simpl in Hrows. inversion Hrows as [| ? ks ? rows' Hks Hrows']; subst.
    constructor.
    + destruct (fdiv (qz a) p) as [sh |]; [| discriminate].
      destruct (fdiv (qz a) (qz total)) as [w |] eqn:Ew; [| discriminate].
      cbn [obind] in Hks. injection Hks as <-.
      apply fdiv_some in Ew as [Hnz ->]. cbn. auto.
    + apply (IH rounded latest rows'); simpl in H1, H2; try lia. exact Hrows'.
Qed.

Lemma weights_sum_close (total : Z) (rounded : list Z)
  (rows : list (string * share_row)) :
  Forall2 (fun a ks =>
             qz total <> 0 /\
             Weight_Pct (snd ks) = round2 (qz a / qz total * qz 100))
          rounded rows ->
  qsum (map (fun a => qz a / qz total * qz 100) rounded)
    - qz (Z.of_nat (List.length rows)) * Q2Qc (5 # 1000)
    <= qsum (map (fun ks => Weight_Pct (snd ks)) rows) /\
  qsum (map (fun ks => Weight_Pct (snd ks)) rows)
    <= qsum (map (fun a => qz a / qz total * qz 100) rounded)
       + qz (Z.of_nat (List.length rows)) * Q2Qc (5 # 1000).
Proof.
  induction 1 as [| a ks rounded rows [_ Hw] _ [IH1 IH2]].
  - simpl. split; vm_compute; discriminate.
  - cbn [map qsum fold_right List.length]. rewrite qz_succ.
    fold (qsum (map (fun a => qz a / qz total * qz 100) rounded)).
    fold (qsum (map (fun ks => Weight_Pct (snd ks)) rows)).
    rewrite Hw.
    destruct (round2_close (qz a / qz total * qz 100)) as [R1 R2].
    set (x := qz a / qz total * qz 100) in *.
    set (sx := qsum (map (fun a => qz a / qz total * qz 100) rounded)) in *.
    set (sw := qsum (map (fun ks => Weight_Pct (snd ks)) rows)) in *.
    set (n := qz (Z.of_nat (List.length rows))) in *.
    set (rx := round2 x) in *.
    clearbody x sx sw n rx.
    unfold Qcle, Qcminus, Qcplus, Qcopp, Qcmult, Q2Qc in *; cbn [this] in *.
    rewrite ?Qred_correct in *. split; lra.
Qed.

(** X3.  The weights of a non-empty frame [shares], in percent and rounded
    to two decimals, add up to 100 up to half a hundredth per row. *)
Theorem calculate_shares_weights (allocation : Series) (prices : Frame)
  (shares : list (string * share_row)) :
  calculate_shares allocation prices = Returned shares ->
  shares <> [] ->
  let weights := map (fun ks => Weight_Pct (snd ks)) shares in
  let slack := qz (Z.of_nat (List.length shares)) * Q2Qc (5 # 1000) in
  qz 100 - slack <= qsum weights /\ qsum weights <= qz 100 + slack.
Proof.
  unfold calculate_shares.
  destruct (nrows prices =? 0)%nat; [discriminate |].
  destruct (sequence (map (fun kv => round_to_nearest (snd kv) 1000) allocation))
    as [rounded |] eqn:Er; [| discriminate].
  destruct (sequence (map (latest_price prices) (index allocation)))
    as [latest |] eqn:El; [| discriminate].
  match goal with
  | |- match sequence (map ?f ?l) with _ => _ end = _ -> _ =>
      destruct (sequence (map f l)) as [rows |] eqn:Erows
  end; [| discriminate].
  intros [= <-] Hne. cbv zeta.
  apply sequence_map_Forall2 in Er, El, Erows.
  pose proof (Forall2_length Er) as L1. pose proof (Forall2_length El) as L2.
  unfold index in L2. rewrite length_map in L2.
  assert (Hw := calculate_shares_weight_rows (fold_right Z.add 0%Z rounded)
                  (index allocation) rounded latest rows
                  ltac:(unfold index; rewrite length_map; exact L1)
                  ltac:(lia) Erows).
  assert (Hnz : qz (fold_right Z.add 0%Z rounded) <> 0).
  { inversion Hw as [| a ks ? ? [Hnz _] _]; subst; [contradiction | exact Hnz]. }
  pose proof (weights_sum_close _ _ _ Hw) as Hsum.
  replace (qsum (map (fun a => qz a / qz (fold_right Z.add 0%Z rounded) * qz 100)
                     rounded))
    with (qz 100) in Hsum; [exact Hsum |].
  rewrite <- (map_map qz (fun q => q / qz (fold_right Z.add 0%Z rounded) * qz 100)).
  transitivity (qsum (map (fun v => v * (/ qz (fold_right Z.add 0%Z rounded) * qz 100))
                          (map qz rounded))).
  - rewrite qsum_scaled, qsum_qz. field. exact Hnz.
  - f_equal. apply map_ext. intros q. unfold Qcdiv. ring.
Qed.

Lemma calculate_shares_weights_witness :
  exists shares,
    calculate_shares MoreSamples.alloc_two Samples.prices_year = Returned shares /\
    shares <> [] /\
    let weights := map (fun ks => Weight_Pct (snd ks)) shares in
    let slack := qz (Z.of_nat (List.length shares)) * Q2Qc (5 # 1000) in
    qz 100 - slack <= qsum weights /\ qsum weights <= qz 100 + slack.
Proof.
  eexists. split; [vm_compute; reflexivity |]. split; [discriminate |].
  eapply (calculate_shares_weights MoreSamples.alloc_two Samples.prices_year).
  - vm_compute. reflexivity.
  - discriminate.
Defined.

Lemma qz_le_inv (a b : Z) : qz a <= qz b -> (a <= b)%Z.
Proof.
  unfold qz, Qcle, Q2Qc; cbn [this]. rewrite !Qred_correct.
  intros H. rewrite Zle_Qle. exact H.
Qed.

Lemma round_half_even_zero : round_half_even (0 / qz 100) = 0%Z.
Proof. vm_compute. reflexivity. Qed.

Lemma thousands_kept (v : Qc) (k r : Z) :
  (0 < k)%Z -> qz (1000 * k) <= v ->
  round_to_nearest v 1000 = Some r -> (1000 * k <= r)%Z.
Proof.
  intros Hk Hv. unfold round_to_nearest.
  destruct (Qc_ltb v (qz 500)) eqn:E.
  - apply Qc_ltb_true in E. exfalso.
    assert (H : qz 500 <= qz (1000 * k)) by (apply qz_le; lia).
    exact (Qclt_not_le _ _ E (Qcle_trans _ _ _ H Hv)).
  - replace (1000 =? 0)%Z with false by reflexivity. intros [= <-].
    destruct (round_multiple_close v 1000 ltac:(lia)) as [H1 _].
    set (m := round_half_even (v / qz 1000)) in *.
    assert (Hm : qz (1000 * k - 500) <= qz (m * 1000)).
    { eapply Qcle_trans; [| exact H1].
      replace (qz (1000 * k - 500)) with (qz (1000 * k) - qz 1000 / qz 2).
      - unfold Qcminus. apply Qcplus_le_compat; [exact Hv | apply Qcle_refl].
      - replace (qz 1000 / qz 2) with (qz 500) by qc_compute.
        change (1000 * k - 500)%Z with (1000 * k + - 500)%Z.
        rewrite <- qz_plus. reflexivity. }
    apply qz_le_inv in Hm. lia.
Qed.

Lemma floor_less_500 (v a lo : Qc) : lo <= v -> v - qz 500 <= a -> lo - qz 500 <= a.
Proof.
  unfold Qcle, Qcminus, Qcplus, Qcopp, qz, Q2Qc; cbn [this].
  rewrite ?Qred_correct. intros. lra.
Qed.

(** X4.  What the rounding of [calculate_shares] leaves of the floor of
    [apply_constraints], whatever the capital: for an allocation that meets
    the constraints, a position of zero gets the amount 0, every other
    position an amount of at least the floor less 500, and of at least the
    floor itself when the floor is a whole number of thousands (as the 3000
    of the default capital and minimum are). *)
Theorem calculate_shares_keeps_floor (total_capital : Qc)
  (allocation : Series) (prices : Frame)
  (shares : list (string * share_row))
  (min_allocation_pct max_allocation_pct : Qc) :
  meets_constraints total_capital min_allocation_pct max_allocation_pct
    allocation ->
  calculate_shares allocation prices = Returned shares ->
  Forall2 (fun kv ks =>
             (snd kv = 0 -> Allocation_USD (snd ks) = 0%Z) /\
             (snd kv <> 0 ->
              total_capital * min_allocation_pct - qz 500
                <= qz (Allocation_USD (snd ks)) /\
              forall k : Z,
                (0 < k)%Z ->
                total_capital * min_allocation_pct = qz (1000 * k) ->
                (1000 * k <= Allocation_USD (snd ks))%Z))
          allocation shares.
Proof.
  intros (Hpos & _ & _) H. apply calculate_shares_inv in H.
  unfold values in Hpos. rewrite Forall_map in Hpos.
  induction H as [| [t v] [t' row] allocation shares (_ & Ha & _) _ IH].
  - constructor.
  - inversion Hpos as [| ? ? Hv Hpos']; subst. constructor; [| exact (IH Hpos')].
    simpl in *. split.
    + intros ->. unfold round_to_nearest in Ha.
      replace (Qc_ltb 0 (qz 500)) with true in Ha by (vm_compute; reflexivity).
      rewrite round_half_even_zero in Ha. injection Ha as <-. reflexivity.
    + intros Hne. destruct Hv as [-> | [Hmin _]]; [contradiction Hne; reflexivity |].
      split.
      * destruct (round_to_nearest_thousand _ _ Ha) as (_ & Hlo & _).
        exact (floor_less_500 _ _ _ Hmin Hlo).
      * intros k Hk Hfloor. rewrite Hfloor in Hmin.
        exact (thousands_kept _ _ _ Hk Hmin Ha).
Qed.

(** The theorem applies, here to the default capital and minimum, whose
    floor is 3000. *)
Lemma calculate_shares_keeps_floor_witness :
  exists shares,
    calculate_shares MoreSamples.alloc_four MoreSamples.prices_four
      = Returned shares /\
    Forall2 (fun kv ks =>
               (snd kv = 0 -> Allocation_USD (snd ks) = 0%Z) /\
               (snd kv <> 0 ->
                UsPortfolioAllocation.TOTAL_CAPITAL
                * UsPortfolioAllocation.MIN_ALLOCATION_PCT - qz 500
                  <= qz (Allocation_USD (snd ks)) /\
                forall k : Z,
                  (0 < k)%Z ->
                  UsPortfolioAllocation.TOTAL_CAPITAL
                  * UsPortfolioAllocation.MIN_ALLOCATION_PCT = qz (1000 * k) ->
                  (1000 * k <= Allocation_USD (snd ks))%Z))
            MoreSamples.alloc_four shares.
Proof.
  eexists. split; [vm_compute; reflexivity |].
  eapply (calculate_shares_keeps_floor UsPortfolioAllocation.TOTAL_CAPITAL
            MoreSamples.alloc_four MoreSamples.prices_four _
            UsPortfolioAllocation.MIN_ALLOCATION_PCT 1).
  - split; [| split].
    + unfold values; simpl.
      repeat (apply Forall_cons;
              [first [ left; reflexivity
                     | right; split; vm_compute; discriminate ] |]).
      apply Forall_nil.
    + repeat (apply Forall_cons; [vm_compute; discriminate |]).
      apply Forall_nil.
    + vm_compute. discriminate.
  - vm_compute. reflexivity.
Defined.

Lemma qz_lt_inv (a b : Z) : qz a < qz b -> (a < b)%Z.
Proof.
  unfold qz, Qclt, Q2Qc; cbn [this]. rewrite !Qred_correct.
  intros H. rewrite Zlt_Qlt. exact H.
Qed.

(** With the step [ROUND_TO] both branches of [round_to_nearest] agree. *)
Lemma round_to_nearest_hundred (v : Qc) :
  round_to_nearest v ROUND_TO = Some (round_half_even (v / qz 100) * 100)%Z.
Proof.
  unfold round_to_nearest, ROUND_TO. destruct (Qc_ltb v (qz 500)); reflexivity.
Qed.

(** X5.  The weekly amount of a position with a positive target is a whole
    number of hundreds, twelve weeks of it are within 600 of the target, and
    it is zero exactly for the targets up to 600. *)
Theorem weekly_spec (target : Z) :
  (0 < target)%Z ->
  exists w,
    weekly target = Some w /\
    (100 | w)%Z /\
    (target - 600 <= 12 * w <= target + 600)%Z /\
    (w = 0%Z <-> (target <= 600)%Z).
Proof.
  intros Hpos. unfold weekly, DCA_WEEKS. rewrite round_to_nearest_hundred.
  eexists. split; [reflexivity |].
  destruct (round_multiple_close (qz target / qz 12) 100 ltac:(lia)) as [H1 H2].
  set (k := round_half_even (qz target / qz 12 / qz 100)) in *.
  assert (Hlo : qz (target - 600) <= qz (12 * (k * 100))).
  { rewrite <- (qz_mult 12 (k * 100)).
    apply (Qcmult_le_compat_r _ _ (qz 12)) in H1; [| vm_compute; discriminate].
    rewrite (Qcmult_comm (qz 12)). eapply Qcle_trans; [| exact H1].
    change (target - 600)%Z with (target + - 600)%Z.
    rewrite <- (qz_plus target (- 600)).
    replace ((qz target / qz 12 - qz 100 / qz 2) * qz 12)
      with (qz target + qz (- 600)).
    - apply Qcle_refl.
    - replace (qz (-600)) with (- (qz 100 / qz 2 * qz 12)) by qc_compute.
      field; repeat split; vm_compute; discriminate. }
  assert (Hhi : qz (12 * (k * 100)) <= qz (target + 600)).
  { rewrite <- (qz_mult 12 (k * 100)).
    apply (Qcmult_le_compat_r _ _ (qz 12)) in H2; [| vm_compute; discriminate].
    rewrite (Qcmult_comm (qz 12)). eapply Qcle_trans; [exact H2 |].
    rewrite <- (qz_plus target 600).
    replace ((qz target / qz 12 + qz 100 / qz 2) * qz 12)
      with (qz target + qz 600).
    - apply Qcle_refl.
    - replace (qz 600) with (qz 100 / qz 2 * qz 12) by qc_compute.
      field; repeat split; vm_compute; discriminate. }
  apply qz_le_inv in Hlo, Hhi.
  split; [apply Z.divide_factor_r |]. split; [lia |].
  split.
  - intros Hw. lia.
  - intros Hsmall. assert (Hk : k = 0%Z); [| lia].
    unfold k, round_half_even.
    set (x := qz target / qz 12 / qz 100).
    assert (Hx0 : 0 < x).
    { unfold x. unfold Qcdiv. rewrite <- Qcmult_assoc.
      replace 0 with (0 * (/ qz 12 * / qz 100)) by ring.
      apply Qcmult_lt_compat_r; [vm_compute; reflexivity | apply qz_pos, Hpos]. }
    assert (Hx1 : x <= Q2Qc (1 # 2)).
    { unfold x. replace (Q2Qc (1 # 2)) with (qz 600 / qz 12 / qz 100) by qc_compute.
      unfold Qcdiv. rewrite <- !Qcmult_assoc.
      apply Qcmult_le_compat_r; [apply qz_le, Hsmall | vm_compute; discriminate]. }
    assert (Hf : Qfloor x = 0%Z).
    { pose proof (Qfloor_le x) as F1. pose proof (Qlt_floor x) as F2.
      assert (G1 : (inject_Z (Qfloor x) < inject_Z 1)%Q).
      { eapply Qle_lt_trans; [exact F1 |].
        eapply Qle_lt_trans; [exact Hx1 |]. vm_compute. reflexivity. }
      assert (G2 : (inject_Z (-1) < inject_Z (Qfloor x))%Q).
      { rewrite inject_Z_plus in F2.
        apply (Qplus_lt_l _ _ (inject_Z 1)).
        eapply Qle_lt_trans; [| exact F2].
        apply Qlt_le_weak. exact Hx0. }
      rewrite <- Zlt_Qlt in G1, G2. lia. }
    rewrite Hf. change (qz 0) with 0. replace (x - 0) with x by ring.
    destruct (Qc_ltb x (Q2Qc (1 # 2))) eqn:E1; [reflexivity |].
    destruct (Qc_ltb (Q2Qc (1 # 2)) x) eqn:E2; [| reflexivity].
    apply Qc_ltb_true in E2. exfalso. exact (Qclt_not_le _ _ E2 Hx1).
Qed.

Lemma weekly_spec_witness :
  exists w,
    weekly 5000 = Some w /\
    (100 | w)%Z /\
    (5000 - 600 <= 12 * w <= 5000 + 600)%Z /\
    (w = 0%Z <-> (5000 <= 600)%Z).
Proof.
  apply (weekly_spec 5000). lia.
Defined.

Lemma below_two (y x : Qc) :
  y - Q2Qc (1 # 2) <= x -> x < Q2Qc (3 # 2) -> y < qz 2.
Proof.
  unfold Qcle, Qclt, Qcminus, Qcplus, Qcopp, qz, Q2Qc; cbn [this].
  rewrite ?Qred_correct. change (inject_Z 2) with 2%Q. intros H1 H2. lra.
Qed.

(** X6.  While the momentum of MSTR is not positive its weekly amount is a
    whole number of hundreds and at least 100; for any capital below 600000
    the floor of 100 decides and the amount is exactly 100 a week,
    whatever 0.1% of the capital a month would be. *)
Theorem mstr_weekly_floor (total_capital : Qc) :
  exists w,
    mstr_weekly total_capital = Some w /\
    (100 <= w)%Z /\ (100 | w)%Z /\
    (total_capital < qz 600000 -> w = 100%Z).
Proof.
  unfold mstr_weekly. rewrite round_to_nearest_hundred. cbn [obind].
  eexists. split; [reflexivity |].
  set (x := total_capital * BITCOIN_MONTHLY_DCA_PCT / qz 4 / qz 100).
  set (k := round_half_even x). unfold ROUND_TO.
  destruct (k * 100 <? 100)%Z eqn:E.
  - split; [lia |]. split; [exists 1%Z; reflexivity | reflexivity].
  - apply Z.ltb_ge in E. split; [exact E |].
    split; [apply Z.divide_factor_r |]. intros Hcap.
    assert (Hx : x < Q2Qc (3 # 2)).
    { unfold x, BITCOIN_MONTHLY_DCA_PCT.
      replace (Q2Qc (3 # 2))
        with (qz 600000 * (Q2Qc (1 # 1000) * / qz 4 * / qz 100)) by qc_compute.
      unfold Qcdiv. rewrite <- !Qcmult_assoc.
      apply Qcmult_lt_compat_r; [vm_compute; reflexivity | exact Hcap]. }
    destruct (round_half_even_close x) as [H1 _]. fold k in H1.
    assert (Hk : qz k < qz 2).
    { exact (below_two _ _ H1 Hx). }
    apply qz_lt_inv in Hk. lia.
Qed.

(** ** The report of allocate.py *)

(** X7.  The weekly amount that allocate.py prints for a positive position
    is a whole number of hundreds and at least 100.  For a position of at
    least 1200 twelve weeks of it stay within the position and miss less
    than 1200 of it; for a smaller position the amount is 100 and twelve
    weeks overshoot the position. *)
Theorem allocate_weekly_spec (amount : Qc) :
  0 < amount ->
  let w := AllocateReport.weekly amount in
  (100 | w)%Z /\ (100 <= w)%Z /\
  (amount < qz 1200 -> w = 100%Z /\ amount < qz (12 * w)) /\
  (qz 1200 <= amount -> qz (12 * w) <= amount /\ amount < qz (12 * w + 1200)).
Proof.
  intros Hpos. cbv zeta. unfold AllocateReport.weekly, AllocateReport.int_of_float.
  set (x := amount / qz 12 / qz 100).
  assert (Ha : amount = x * qz 1200).
  { unfold x. replace (qz 1200) with (qz 12 * qz 100) by qc_compute.
    field; repeat split; vm_compute; discriminate. }
  assert (Hx : 0 < x).
  { unfold x, Qcdiv. rewrite <- Qcmult_assoc.
    replace 0 with (0 * (/ qz 12 * / qz 100)) by ring.
    apply Qcmult_lt_compat_r; [vm_compute; reflexivity | exact Hpos]. }
  destruct (Qc_ltb x 0) eqn:E.
  { apply Qc_ltb_true in E. exfalso. exact (Qclt_not_le _ _ E (Qclt_le_weak _ _ Hx)). }
  pose proof (Qfloor_le x) as F1. pose proof (Qlt_floor x) as F2.
  rewrite inject_Z_plus in F2. change (inject_Z 1) with 1%Q in F2.
  set (k := Qfloor x) in *.
  assert (Hk0 : (0 <= k)%Z).
  { assert (G : (inject_Z (-1) < inject_Z k)%Q).
    { change (inject_Z (-1)) with (-1)%Q. unfold Qclt in Hx. cbn [this] in Hx.
      change (this 0) with 0%Q in Hx. lra. }
    rewrite <- Zlt_Qlt in G. lia. }
  split; [| split; [lia |]].
  { destruct (Z.max_spec 100 (k * 100)) as [[_ ->] | [_ ->]];
      [apply Z.divide_factor_r | exists 1%Z; reflexivity]. }
  rewrite Ha. clear Ha. split.
  - intros Hsmall.
    assert (Hk : k = 0%Z).
    { assert (G : (inject_Z k < inject_Z 1)%Q).
      { change (inject_Z 1) with 1%Q. clearbody x k.
        unfold Qclt, Qcmult, qz, Q2Qc in Hsmall; cbn [this] in Hsmall.
        rewrite ?Qred_correct in Hsmall.
        change (inject_Z 1200) with 1200%Q in Hsmall. lra. }
      rewrite <- Zlt_Qlt in G. lia. }
    rewrite Hk. simpl. split; [reflexivity |]. exact Hsmall.
  - intros Hbig.
    assert (Hk : (1 <= k)%Z).
    { assert (G : (inject_Z 0 < inject_Z k)%Q).
      { change (inject_Z 0) with 0%Q. clearbody x k.
        unfold Qcle, Qcmult, qz, Q2Qc in Hbig; cbn [this] in Hbig.
        rewrite ?Qred_correct in Hbig.
        change (inject_Z 1200) with 1200%Q in Hbig. lra. }
      rewrite <- Zlt_Qlt in G. lia. }
    replace (Z.max 100 (k * 100)) with (k * 100)%Z by lia.
    replace (12 * (k * 100))%Z with (k * 1200)%Z by lia.
    replace (k * 1200 + 1200)%Z with ((k + 1) * 1200)%Z by lia.
    rewrite <- !qz_mult. clearbody x k.
    unfold Qcle, Qclt, Qcmult, qz, Q2Qc; cbn [this].
    rewrite ?Qred_correct. rewrite inject_Z_plus.
    change (inject_Z 1200) with 1200%Q. change (inject_Z 1) with 1%Q.
    split; lra.
Qed.

Lemma allocate_weekly_spec_witness :
  let w := AllocateReport.weekly (qz 8000) in
  (100 | w)%Z /\ (100 <= w)%Z /\
  (qz 8000 < qz 1200 -> w = 100%Z /\ qz 8000 < qz (12 * w)) /\
  (qz 1200 <= qz 8000 -> qz (12 * w) <= qz 8000 /\ qz 8000 < qz (12 * w + 1200)).
Proof.
  apply (allocate_weekly_spec (qz 8000)). vm_compute. reflexivity.
Defined.

Lemma existsb_eqb_In (t : string) (l : list string) :
  existsb (String.eqb t) l = true <-> In t l.
Proof.
  rewrite existsb_exists. split.
  - intros (x & Hin & Heq). apply String.eqb_eq in Heq. subst x. exact Hin.
  - intros Hin. exists t. split; [exact Hin | apply String.eqb_refl].
Qed.

(** X8.  [cat_of] gives a ticker of the universe [TICKERS] a category of
    [CATS] that lists it, and gives '?' to every other string. *)
Theorem cat_of_spec (t : string) :
  (In t Allocate.TICKERS ->
   exists ts, In (AllocateReport.cat_of t, ts) AllocateReport.CATS /\ In t ts) /\
  (~ In t Allocate.TICKERS -> AllocateReport.cat_of t = "?").
Proof.
  assert (Ht : Allocate.TICKERS = flat_map snd AllocateReport.CATS)
    by reflexivity.
  unfold AllocateReport.cat_of.
  destruct (find (fun cts => existsb (String.eqb t) (snd cts)) AllocateReport.CATS)
    as [[c ts] |] eqn:E.
  - apply find_some in E as [Hin Hex]. simpl in Hex.
    apply existsb_eqb_In in Hex. split.
    + intros _. exists ts. auto.
    + intros Hn. exfalso. apply Hn. rewrite Ht. apply in_flat_map.
      exists (c, ts). auto.
  - split; [| reflexivity].
    intros Hin. rewrite Ht in Hin. apply in_flat_map in Hin as ([c ts] & Hc & Hts).
    pose proof (find_none _ _ E _ Hc) as Hf. simpl in Hf, Hts.
    apply existsb_eqb_In in Hts. rewrite Hts in Hf. discriminate Hf.
Qed.

(** ** get_segment (oil_gas_comprehensive.py) *)

Import OilGasComprehensive.

Ltac segment_of_table :=
  split;
  [ unfold get_segment;
    repeat match goal with
           | |- (if mem ?t ?T then _ else _) = _ -> _ =>
               let E := fresh "E" in destruct (mem t T) eqn:E
           end;
    intros H; try discriminate H; apply existsb_eqb_In; assumption
  | intros H; simpl in H;
    repeat (destruct H as [<- | H]; [reflexivity |]); contradiction ].

(** X9.  [get_segment] names the table that lists the ticker, and answers
    Unknown exactly for the strings that are no key of [ALL_STOCKS]. *)
Theorem get_segment_spec (ticker : string) :
  (get_segment ticker = "Royalty" <-> In ticker ROYALTY) /\
  (get_segment ticker = "Midstream" <-> In ticker MIDSTREAM) /\
  (get_segment ticker = "Major" <-> In ticker MAJORS) /\
  (get_segment ticker = "Refinery" <-> In ticker REFINERIES) /\
  (get_segment ticker = "E&P" <-> In ticker EP_COMPANIES) /\
  (get_segment ticker = "Unknown" <-> ~ In ticker ALL_STOCKS).
Proof.
  split; [segment_of_table |]. split; [segment_of_table |].
  split; [segment_of_table |]. split; [segment_of_table |].
  split; [segment_of_table |].
  unfold get_segment, ALL_STOCKS.
  destruct (mem ticker ROYALTY) eqn:E1; [| destruct (mem ticker MIDSTREAM) eqn:E2;
    [| destruct (mem ticker MAJORS) eqn:E3; [| destruct (mem ticker REFINERIES) eqn:E4;
    [| destruct (mem ticker EP_COMPANIES) eqn:E5]]]];
    try (split; [intros H; discriminate H |];
         intros Hn; exfalso; apply Hn; rewrite !in_app_iff;
         repeat match goal with
                | E : mem _ _ = true |- _ => apply existsb_eqb_In in E
                end; tauto).
  split; [| reflexivity]. intros _ Hin. rewrite !in_app_iff in Hin.
  repeat match goal with
         | E : mem _ _ = false |- _ =>
             apply not_true_iff_false in E; unfold mem in E;
             rewrite existsb_eqb_In in E
         end.
  tauto.
Qed.

(** ** Drawdown durations: the loop of canadian_nyse_only.py and the loop
    of us_portfolio_allocation.py *)

(** What links the state [(current_period_start, drawdown_periods)] of the
    one loop to the state [(max_duration, current_duration)] of the other
    after [i] rows. *)
Lemma duration_loops_agree (fl : list bool) :
  forall (i : nat) (start : option nat) (periods : list nat) (mx cur : nat),
    cur = match start with Some s => (i - s)%nat | None => O end ->
    match start with Some s => (s <= i)%nat | None => True end ->
    mx = Nat.max (list_max periods) cur ->
    let '(start', periods') :=
      fold_left period_step (combine (seq i (List.length fl)) fl) (start, periods) in
    let '(mx', cur') := fold_left CanadianNyseOnlyMetrics.underwater_step fl (mx, cur) in
    cur' = match start' with
           | Some s => (i + List.length fl - s)%nat
           | None => O
           end /\
    match start' with Some s => (s <= i + List.length fl)%nat | None => True end /\
    mx' = Nat.max (list_max periods') cur'.
Proof.
  induction fl as [| b fl IH]; intros i start periods mx cur Hcur Hs Hmx.
  - simpl. rewrite Nat.add_0_r. auto.
  - cbn [List.length seq combine fold_left].
    replace (i + S (List.length fl))%nat with (S i + List.length fl)%nat by lia.
    destruct b, start as [s |]; cbn [period_step CanadianNyseOnlyMetrics.underwater_step];
      rewrite Hmx, Hcur; apply IH;
      try (rewrite list_max_app; cbn [list_max fold_right]);
      try exact I; lia.
Qed.

(** The longest period that the loop of us_portfolio_allocation.py records
    is the longest run that the loop of canadian_nyse_only.py counts. *)
Lemma drawdown_periods_longest (fl : list bool) :
  list_max (drawdown_periods fl) = CanadianNyseOnlyMetrics.longest_underwater fl.
Proof.
  unfold drawdown_periods, CanadianNyseOnlyMetrics.longest_underwater.
  pose proof (duration_loops_agree fl 0 None [] 0 0 eq_refl I eq_refl) as H.
  destruct (fold_left period_step (combine (seq 0 (List.length fl)) fl) (None, []))
    as [start' periods'].
  destruct (fold_left CanadianNyseOnlyMetrics.underwater_step fl (0%nat, 0%nat)) as [mx' cur'].
  destruct H as (Hcur & Hs & Hmx). simpl in *.
  destruct start' as [s |].
  - rewrite list_max_app. simpl. lia.
  - lia.
Qed.

(** On positive running maxima a drawdown is negative exactly when the price
    is below the running maximum. *)
Lemma in_drawdown_underwater (pm : list (Qc * Qc)) (dd : list Qc) :
  Forall (fun x => 0 < snd x) pm ->
  sequence (map (fun x => fdiv (fst x - snd x) (snd x)) pm) = Some dd ->
  map (fun d => Qc_ltb d 0) dd = map (fun x => Qc_ltb (fst x) (snd x)) pm.
Proof.
  intros Hpos. revert dd. induction Hpos as [| [p m] pm Hm _ IH]; intros dd H.
  - simpl in H. injection H as <-. reflexivity.
  - simpl map in H. apply sequence_cons_some in H as (d & dd' & Hd & Hdd & ->).
    simpl in *. rewrite (IH _ Hdd). f_equal.
    apply fdiv_some in Hd as [Hnz ->].
    assert (Hd : (p - m) / m * m = p - m) by (field; exact Hnz).
    destruct (Qc_ltb p m) eqn:E.
    + apply Qc_ltb_true in E. apply Qc_ltb_true.
      apply (Qcmult_lt_compat_r _ _ (/ m)) in E; [| apply Qcinv_pos, Hm].
      rewrite Qcmult_inv_r in E by exact Hnz.
      unfold Qcdiv, Qcminus. rewrite Qcmult_plus_distr_l.
      replace (- m * / m) with (- (m * / m)) by ring.
      rewrite Qcmult_inv_r by exact Hnz.
      set (q := p * / m) in *. clearbody q. qc_lra.
    + apply Qc_ltb_false in E. apply Qc_ltb_false.
      apply (Qcmult_le_compat_r _ _ (/ m)) in E;
        [| apply Qclt_le_weak, Qcinv_pos, Hm].
      rewrite Qcmult_inv_r in E by exact Hnz.
      unfold Qcdiv, Qcminus. rewrite Qcmult_plus_distr_l.
      replace (- m * / m) with (- (m * / m)) by ring.
      rewrite Qcmult_inv_r by exact Hnz.
      set (q := p * / m) in *. clearbody q. qc_lra.
Qed.

Lemma list_max_or_zero (l : list nat) :
  match l with [] => O | _ :: _ => list_max l end = list_max l.
Proof. destruct l; reflexivity. Qed.

Lemma drawdown_duration_of_column (price : list Qc) :
  price <> [] -> Forall (fun p => 0 < p) price ->
  exists m,
    drawdown_metrics_of price = Some m /\
    CanadianNyseOnlyMetrics.longest_underwater
      (CanadianNyseOnlyMetrics.underwater price) = max_dd_duration_days m /\
    (drawdown <- drawdown_series price ;; series_min drawdown)
    = Some (max_drawdown m).
Proof.
  intros Hne Hpos. unfold drawdown_metrics_of.
  destruct (drawdown_series_nonpos price Hpos) as (dd & Hdd & Hle & Hlen).
  pose proof (length_nonempty _ _ Hlen Hne) as Hddne.
  destruct (series_min_nonpos dd Hddne Hle) as (mn & Hmn & Hmn0).
  destruct (iloc_int_last dd Hddne) as (cur & Hcur & Hin).
  destruct (rolling_windows_nonpos price Hpos) as (rolling & Hroll & Hrle).
  rewrite Hdd. cbn [obind]. rewrite Hmn. cbn [obind]. rewrite Hcur.
  cbn [obind]. rewrite Hroll. cbn [obind].
  eexists. split; [reflexivity |]. cbn [max_dd_duration_days max_drawdown].
  split; [| reflexivity].
  rewrite list_max_or_zero, drawdown_periods_longest. f_equal.
  unfold CanadianNyseOnlyMetrics.underwater. symmetry.
  apply in_drawdown_underwater; [| exact Hdd].
  eapply Forall_impl; [| apply cummax_bounds, Hpos]. intros pm [H _]. exact H.
Qed.

(** X10.  On price series that are non-empty and positive the two scripts
    measure the same thing: [calculate_drawdown_duration] of
    canadian_nyse_only.py gives every ticker the max_dd_duration_days that
    [calculate_drawdown_metrics] of us_portfolio_allocation.py gives it,
    and [calculate_max_drawdown] gives it its max_drawdown. *)
Theorem drawdown_duration_agrees (prices : Frame) :
  Forall (fun kc => snd kc <> [] /\ Forall (fun p => 0 < p) (snd kc)) prices ->
  exists metrics,
    calculate_drawdown_metrics prices = Some metrics /\
    CanadianNyseOnlyMetrics.calculate_drawdown_duration prices
    = map (fun km => (fst km, max_dd_duration_days (snd km))) metrics /\
    CanadianNyseOnlyMetrics.calculate_max_drawdown prices
    = map (fun km => (fst km, Some (max_drawdown (snd km)))) metrics.
Proof.
  unfold calculate_drawdown_metrics, per_column,
    CanadianNyseOnlyMetrics.calculate_drawdown_duration,
    CanadianNyseOnlyMetrics.calculate_max_drawdown.
  induction 1 as [| [k c] prices [Hne Hpos] _ (metrics & Hm & Hd & Hx)].
  - exists []. repeat split.
  - simpl in Hne, Hpos.
    destruct (drawdown_duration_of_column c Hne Hpos) as (m & Hc & Hdur & Hmax).
    exists ((k, m) :: metrics). cbn [map sequence fst snd].
    rewrite Hc, Hm, Hd, Hx, Hdur, Hmax. repeat split.
Qed.

Lemma drawdown_duration_agrees_witness :
  exists metrics,
    calculate_drawdown_metrics Samples.prices_week = Some metrics /\
    CanadianNyseOnlyMetrics.calculate_drawdown_duration Samples.prices_week
    = map (fun km => (fst km, max_dd_duration_days (snd km))) metrics /\
    CanadianNyseOnlyMetrics.calculate_max_drawdown Samples.prices_week
    = map (fun km => (fst km, Some (max_drawdown (snd km)))) metrics.
Proof.
  apply (drawdown_duration_agrees Samples.prices_week).
  repeat constructor; try discriminate; vm_compute; reflexivity.
Defined.

Lemma longest_underwater_bound (fl : list bool) :
  forall mx cur : nat,
    (fst (fold_left CanadianNyseOnlyMetrics.underwater_step fl (mx, cur))
     <= Nat.max mx (cur + List.length fl))%nat.
Proof.
  induction fl as [| b fl IH]; intros mx cur; simpl.
  - lia.
  - destruct b.
    + specialize (IH (Nat.max mx (S cur)) (S cur)). lia.
    + specialize (IH mx O). lia.
Qed.

(** The first row is never under water, so the longest run is shorter than
    the series. *)
Lemma longest_underwater_short (price : list Qc) :
  price <> [] ->
  (CanadianNyseOnlyMetrics.longest_underwater
     (CanadianNyseOnlyMetrics.underwater price) < List.length price)%nat.
Proof.
  destruct price as [| p rest]; [contradiction |]. intros _.
  unfold CanadianNyseOnlyMetrics.longest_underwater,
    CanadianNyseOnlyMetrics.underwater.
  cbn [cummax combine map fold_left fst snd].
  assert (E : Qc_ltb p p = false) by (apply Qc_ltb_false, Qcle_refl).
  rewrite E. cbn [CanadianNyseOnlyMetrics.underwater_step].
  pose proof (longest_underwater_bound
                (map (fun pm => Qc_ltb (fst pm) (snd pm))
                     (combine rest (cummax_from p rest))) 0 0) as H.
  rewrite length_map, length_combine, cummax_from_length in H.
  simpl. lia.
Qed.

Lemma qmin_list_in (x : Qc) (l : list Qc) : In (qmin_list x l) (x :: l).
Proof.
  unfold qmin_list. revert x. induction l as [| y l IH]; intros x; simpl.
  - left. reflexivity.
  - destruct (IH (qmin x y)) as [H | H].
    + unfold qmin in H at 1. destruct (Qc_ltb y x); auto.
    + auto.
Qed.

Lemma drawdown_entry_above (p m d : Qc) :
  0 < p -> 0 < m -> fdiv (p - m) m = Some d -> - (1) < d.
Proof.
  intros Hp Hm H. apply fdiv_some in H as [Hnz ->].
  unfold Qcdiv, Qcminus. rewrite Qcmult_plus_distr_l.
  replace (- m * / m) with (- (m * / m)) by ring.
  rewrite Qcmult_inv_r by exact Hnz.
  assert (Hq : 0 < p * / m).
  { replace 0 with (0 * / m) by ring.
    apply Qcmult_lt_compat_r; [apply Qcinv_pos, Hm | exact Hp]. }
  set (q := p * / m) in *. clearbody q. qc_lra.
Qed.

Lemma drawdown_series_above (price dd : list Qc) :
  Forall (fun p => 0 < p) price ->
  drawdown_series price = Some dd -> Forall (fun d => - (1) < d) dd.
Proof.
  intros Hpos H. unfold drawdown_series in H.
  apply sequence_map_Forall2 in H.
  assert (Hpm : Forall (fun pm => 0 < fst pm /\ 0 < snd pm)
                       (combine price (cummax price))).
  { pose proof (cummax_bounds price Hpos) as Hb.
    rewrite Forall_forall in *. intros [p m] Hin. simpl.
    split; [| exact (proj1 (Hb _ Hin))].
    apply Hpos. exact (in_combine_l _ _ _ _ Hin). }
  induction H as [| [p m] d pm dd Hd _ IH]; [constructor |].
  inversion Hpm as [| ? ? [Hp Hm] Hpm']; subst.
  constructor; [| exact (IH Hpm')].
  exact (drawdown_entry_above p m d Hp Hm Hd).
Qed.

Lemma drawdown_range_of_column (price : list Qc) :
  price <> [] -> Forall (fun p => 0 < p) price ->
  exists m,
    drawdown_metrics_of price = Some m /\
    - (1) < max_drawdown m /\
    (max_dd_duration_days m < List.length price)%nat.
Proof.
  intros Hne Hpos.
  destruct (drawdown_duration_of_column price Hne Hpos) as (m & Hm & Hdur & Hmax).
  exists m. split; [exact Hm |]. split.
  - destruct (drawdown_series price) as [dd |] eqn:Hdd; [| discriminate].
    cbn [obind] in Hmax.
    pose proof (drawdown_series_above price dd Hpos Hdd) as Hall.
    destruct dd as [| x l]; [discriminate |]. simpl in Hmax.
    injection Hmax as <-. rewrite Forall_forall in Hall.
    apply Hall, qmin_list_in.
  - rewrite <- Hdur. apply longest_underwater_short, Hne.
Qed.

(** X11.  On price series that are non-empty and positive, no ticker loses
    its whole value and none is in drawdown for as many days as it has
    rows: max_drawdown is above -1 and max_dd_duration_days is below the
    number of rows. *)
Theorem calculate_drawdown_metrics_range (prices : Frame) :
  Forall (fun kc => snd kc <> [] /\ Forall (fun p => 0 < p) (snd kc)) prices ->
  exists metrics,
    calculate_drawdown_metrics prices = Some metrics /\
    Forall2 (fun kc km =>
               fst km = fst kc /\
               - (1) < max_drawdown (snd km) /\
               (max_dd_duration_days (snd km) < List.length (snd kc))%nat)
            prices metrics.
Proof.
  unfold calculate_drawdown_metrics, per_column.
  induction 1 as [| [k c] prices [Hne Hpos] _ (metrics & Hm & Hall)].
  - exists []. split; [reflexivity | constructor].
  - simpl in Hne, Hpos.
    destruct (drawdown_range_of_column c Hne Hpos) as (m & Hc & Hdd & Hdur).
    exists ((k, m) :: metrics). cbn [map sequence fst snd].
    rewrite Hc, Hm. split; [reflexivity |].
    constructor; [| exact Hall]. simpl. auto.
Qed.

Lemma calculate_drawdown_metrics_range_witness :
  exists metrics,
    calculate_drawdown_metrics Samples.prices_week = Some metrics /\
    Forall2 (fun kc km =>
               fst km = fst kc /\
               - (1) < max_drawdown (snd km) /\
               (max_dd_duration_days (snd km) < List.length (snd kc))%nat)
            Samples.prices_week metrics.
Proof.
  apply (calculate_drawdown_metrics_range Samples.prices_week).
  repeat constructor; try discriminate; vm_compute; reflexivity.
Defined.

(** ** calculate_returns and calculate_momentum *)

Lemma ratio_moves_with (prev cur : Qc) :
  0 < prev -> 0 < cur -> moves_with prev cur (cur / prev - 1).
Proof.
  intros Hp Hc.
  assert (Hnz : prev <> 0) by (intros E; rewrite E in Hp; discriminate Hp).
  assert (Hq : cur / prev * prev = cur) by (field; exact Hnz).
  assert (Hpos : 0 < cur / prev)
    by (apply WithinCapsFacts.Qcdiv_pos; assumption).
  assert (Hlt : cur / prev < 1 <-> cur < prev).
  { rewrite <- !Qc_ltb_true.
    rewrite <- (WithinCapsFacts.Qc_ltb_scaled (cur / prev) 1 prev Hp), Hq.
    replace (1 * prev) with prev by ring. reflexivity. }
  assert (Hgt : 1 < cur / prev <-> prev < cur).
  { rewrite <- !Qc_ltb_true.
    rewrite <- (WithinCapsFacts.Qc_ltb_scaled 1 (cur / prev) prev Hp), Hq.
    replace (1 * prev) with prev by ring. reflexivity. }
  set (q := cur / prev) in *. clearbody q. split; [| split].
  - rewrite <- Hlt. clear. split; intros H; qc_lra.
  - rewrite <- Hgt. clear. split; intros H; qc_lra.
  - clear -Hpos. qc_lra.
Qed.

Lemma pct_change_from_moves (l : list Qc) :
  forall prev : Qc,
    0 < prev -> Forall (fun p => 0 < p) l ->
    exists rs,
      sequence (pct_change_from prev l) = Some rs /\
      Forall2 (fun pp r => moves_with (fst pp) (snd pp) r)
              (combine (prev :: l) l) rs.
Proof.
  induction l as [| x l IH]; intros prev Hprev Hpos.
  - exists []. split; [reflexivity | constructor].
  - inversion Hpos as [| ? ? Hx Hl]; subst.
    destruct (IH x Hx Hl) as (rs & Hrs & Hall).
    exists (x / prev - 1 :: rs). cbn [pct_change_from sequence].
    unfold fdiv. destruct (Qc_eqb prev 0) eqn:E.
    { apply Qc_eqb_true in E. rewrite E in Hprev. discriminate Hprev. }
    cbn [option_map]. rewrite Hrs. split; [reflexivity |].
    cbn [combine]. constructor; [| exact Hall].
    apply ratio_moves_with; assumption.
Qed.

Lemma per_column_related {A : Type} (f : list Qc -> option A)
  (R : list Qc -> A -> Prop) (df : Frame) :
  Forall (fun kc => exists a, f (snd kc) = Some a /\ R (snd kc) a) df ->
  exists r,
    per_column f df = Some r /\
    Forall2 (fun kc ka => fst ka = fst kc /\ R (snd kc) (snd ka)) df r.
Proof.
  unfold per_column.
  induction 1 as [| [k c] df (a & Ha & Hab) _ (r & Hr & Hall)].
  - exists []. split; [reflexivity | constructor].
  - simpl in Ha. exists ((k, a) :: r). cbn [map sequence fst snd].
    rewrite Ha, Hr. split; [reflexivity |].
    constructor; [simpl; auto | exact Hall].
Qed.

(** X12.  On a frame of strictly positive prices [calculate_returns]
    returns; it keeps the tickers; every column has one return per row
    after the first; and every return has the sign of the move of the
    price on its day (negative exactly when the price fell, positive exactly
    when it rose) and is not below -1. *)
Theorem calculate_returns_signs (prices : Frame) :
  positive_prices prices ->
  exists returns,
    calculate_returns prices = Some returns /\
    Forall2 (fun kc kr =>
               fst kr = fst kc /\
               Forall2 (fun pp r => moves_with (fst pp) (snd pp) r)
                       (combine (snd kc) (tl (snd kc))) (snd kr))
            prices returns.
Proof.
  intros Hpos. unfold calculate_returns, pct_change_dropna.
  apply (per_column_related pct_change
           (fun col rs =>
              Forall2 (fun pp r => moves_with (fst pp) (snd pp) r)
                      (combine col (tl col)) rs)).
  unfold positive_prices in Hpos. eapply Forall_impl; [| exact Hpos].
  intros [k c] Hc. simpl in *. destruct c as [| p l].
  - exists []. split; [reflexivity | constructor].
  - inversion Hc as [| ? ? Hp Hl]; subst.
    destruct (pct_change_from_moves l p Hp Hl) as (rs & Hrs & Hall).
    exists rs. split; [exact Hrs | exact Hall].
Qed.

Lemma calculate_returns_signs_witness :
  exists returns,
    calculate_returns Samples.prices_week = Some returns /\
    Forall2 (fun kc kr =>
               fst kr = fst kc /\
               Forall2 (fun pp r => moves_with (fst pp) (snd pp) r)
                       (combine (snd kc) (tl (snd kc))) (snd kr))
            Samples.prices_week returns.
Proof.
  apply (calculate_returns_signs Samples.prices_week).
  repeat constructor; vm_compute; reflexivity.
Defined.

Lemma momentum_of_moves (k : nat) (col : list Qc) :
  Forall (fun p => 0 < p) col ->
  (1 <= k <= List.length col)%nat ->
  exists first last v,
    nth_error (rev col) (k - 1) = Some first /\
    nth_error (rev col) 0 = Some last /\
    momentum_of k col = Some (Some v) /\
    moves_with first last v.
Proof.
  intros Hpos Hk. unfold momentum_of.
  change (-1)%Z with (- Z.of_nat 1)%Z.
  rewrite !iloc_int_neg_rev by lia. cbn [Nat.sub].
  assert (Hlen : List.length (rev col) = List.length col) by apply length_rev.
  destruct (nth_error (rev col) 0) as [last |] eqn:Elast;
    [| apply nth_error_None in Elast; lia].
  destruct (nth_error (rev col) (k - 1)) as [first |] eqn:Efirst;
    [| apply nth_error_None in Efirst; lia].
  assert (Hin : forall i x, nth_error (rev col) i = Some x -> 0 < x).
  { intros i x Hx. rewrite Forall_forall in Hpos. apply Hpos.
    apply in_rev. eapply nth_error_In. exact Hx. }
  pose proof (Hin _ _ Elast) as Hl. pose proof (Hin _ _ Efirst) as Hf.
  exists first, last, (last / first - 1).
  split; [reflexivity |]. split; [reflexivity |]. split.
  - unfold fdiv. destruct (Qc_eqb first 0) eqn:E; [| reflexivity].
    apply Qc_eqb_true in E. rewrite E in Hf. discriminate Hf.
  - apply ratio_moves_with; assumption.
Qed.

(** X13.  On a well-formed frame of strictly positive prices with at least
    [lookback] rows, the momentum of every ticker is a number, it has the
    sign of the move from the price [lookback] rows before the end (the last
    row counting as 1) to the last price, and it is not below -1: the
    tickers that [apply_momentum_filter] would keep on it are those whose
    price rose. *)
Theorem calculate_momentum_signs (prices : Frame) (lookback : nat) :
  positive_prices prices ->
  well_formed prices ->
  (1 <= lookback <= nrows prices)%nat ->
  exists momentum,
    UsPortfolioAllocation.calculate_momentum prices lookback = Some momentum /\
    Forall2 (fun kc km =>
               fst km = fst kc /\
               exists first last v,
                 nth_error (rev (snd kc)) (lookback - 1) = Some first /\
                 nth_error (rev (snd kc)) 0 = Some last /\
                 snd km = Some v /\
                 moves_with first last v)
            prices momentum.
Proof.
  intros Hpos Hwf Hk. unfold UsPortfolioAllocation.calculate_momentum.
  destruct (nrows prices <? lookback)%nat eqn:E;
    [apply Nat.ltb_lt in E; lia |].
  destruct (nrows prices =? 0)%nat eqn:E0; [apply Nat.eqb_eq in E0; lia |].
  apply (per_column_related (momentum_of lookback)
           (fun col m =>
              exists first last v,
                nth_error (rev col) (lookback - 1) = Some first /\
                nth_error (rev col) 0 = Some last /\
                m = Some v /\
                moves_with first last v)).
  unfold positive_prices, well_formed in *. rewrite Forall_forall in *.
  intros kc Hin.
  destruct (momentum_of_moves lookback (snd kc) (Hpos kc Hin))
    as (first & last & v & H1 & H2 & H3 & H4).
  - rewrite (Hwf kc Hin). exact Hk.
  - exists (Some v). split; [exact H3 |]. exists first, last, v. auto.
Qed.

Lemma calculate_momentum_signs_witness :
  exists momentum,
    UsPortfolioAllocation.calculate_momentum Samples.prices_week 3
    = Some momentum /\
    Forall2 (fun kc km =>
               fst km = fst kc /\
               exists first last v,
                 nth_error (rev (snd kc)) (3 - 1) = Some first /\
                 nth_error (rev (snd kc)) 0 = Some last /\
                 snd km = Some v /\
                 moves_with first last v)
            Samples.prices_week momentum.
Proof.
  apply (calculate_momentum_signs Samples.prices_week 3).
  - repeat constructor; vm_compute; reflexivity.
  - repeat constructor.
  - vm_compute. lia.
Defined.

Lemma per_column_ext {A : Type} (f g : list Qc -> option A) (df : Frame) :
  Forall (fun kc => f (snd kc) = g (snd kc)) df ->
  per_column f df = per_column g df.
Proof.
  intros H. unfold per_column. f_equal. apply map_ext_in.
  rewrite Forall_forall in H. intros kc Hin. rewrite (H kc Hin). reflexivity.
Qed.

(** [iloc[-0]] is [iloc[0]]: a lookback of 0 reads the first row, as a
    lookback of the whole length does. *)
Lemma momentum_of_zero (col : list Qc) :
  (1 <= List.length col)%nat ->
  momentum_of 0 col = momentum_of (List.length col) col.
Proof.
  intros H. unfold momentum_of.
  rewrite (iloc_int_neg_nth (List.length col) col) by lia.
  rewrite Nat.sub_diag. reflexivity.
Qed.

(** X14.  [calculate_momentum] does not raise on a well-formed frame with
    at least one row, whatever the lookback.  With fewer rows than the
    lookback, and with a lookback of 0, it gives the momentum since the
    first row of the frame, which is what the number of rows as lookback
    gives. *)
Theorem calculate_momentum_short_history (prices : Frame) (lookback : nat) :
  well_formed prices ->
  (1 <= nrows prices)%nat ->
  (lookback = 0 \/ nrows prices <= lookback)%nat ->
  exists m,
    UsPortfolioAllocation.calculate_momentum prices lookback = Some m /\
    UsPortfolioAllocation.calculate_momentum prices (nrows prices) = Some m.
Proof.
  intros Hwf Hrows Hlb.
  destruct (calculate_momentum_long prices (nrows prices) Hwf ltac:(lia))
    as (m & Hm & Pm).
  exists m. split; [| exact Hm].
  rewrite <- Hm. unfold UsPortfolioAllocation.calculate_momentum.
  rewrite Nat.ltb_irrefl.
  destruct (nrows prices =? 0)%nat eqn:E0; [apply Nat.eqb_eq in E0; lia |].
  destruct (nrows prices <? lookback)%nat eqn:E; [reflexivity |].
  apply Nat.ltb_ge in E. destruct Hlb as [-> | Hlb].
  - apply per_column_ext. unfold well_formed in Hwf.
    eapply Forall_impl; [| exact Hwf]. intros kc Hkc. simpl in Hkc.
    rewrite <- Hkc. apply momentum_of_zero. lia.
  - replace lookback with (nrows prices) by lia. reflexivity.
Qed.

Lemma calculate_momentum_short_history_witness :
  exists m,
    UsPortfolioAllocation.calculate_momentum Samples.prices_rising 63 = Some m /\
    UsPortfolioAllocation.calculate_momentum Samples.prices_rising
      (nrows Samples.prices_rising) = Some m.
Proof.
  apply (calculate_momentum_short_history Samples.prices_rising 63).
  - repeat constructor.
  - vm_compute. lia.
  - right. vm_compute. lia.
Defined.

(** ** The metrics of canadian_nyse_only.py against those of
    us_portfolio_allocation.py *)

(** A Series in percent. *)
Lemma per_column_option_map {A B : Type} (f : list Qc -> option A) (h : A -> B)
  (df : Frame) :
  per_column (fun c => option_map h (f c)) df
  = option_map (map (fun kv => (fst kv, h (snd kv)))) (per_column f df).
Proof.
  unfold per_column. induction df as [| [k c] df IH]; [reflexivity |].
  cbn [map sequence fst snd]. destruct (f c) as [a |]; [| reflexivity].
  cbn [option_map]. rewrite IH.
  destruct (sequence (map (fun kc => option_map (pair (fst kc)) (f (snd kc))) df));
    reflexivity.
Qed.

Lemma momentum_pct_of_momentum_of (lookback : nat) (col : list Qc) :
  CanadianNyseOnlyMetrics.momentum_pct_of lookback col
  = option_map (option_map (fun q => q * qz 100)) (momentum_of lookback col).
Proof.
  unfold CanadianNyseOnlyMetrics.momentum_pct_of, momentum_of.
  destruct (iloc_int (-1) col) as [last |]; [| reflexivity].
  destruct (iloc_int (- Z.of_nat lookback) col) as [first |]; [| reflexivity].
  simpl. destruct (fdiv last first); reflexivity.
Qed.

Lemma canadian_momentum_long (prices : Frame) (lookback : nat) :
  (lookback <= nrows prices)%nat ->
  CanadianNyseOnlyMetrics.calculate_momentum prices lookback
  = option_map
      (map (fun kv => (fst kv, option_map (fun q => q * qz 100) (snd kv))))
      (UsPortfolioAllocation.calculate_momentum prices lookback).
Proof.
  intros Hk.
  unfold CanadianNyseOnlyMetrics.calculate_momentum,
    UsPortfolioAllocation.calculate_momentum.
  destruct (nrows prices <? lookback)%nat eqn:E;
    [apply Nat.ltb_lt in E; lia |].
  destruct (nrows prices =? 0)%nat; [reflexivity |].
  rewrite <- per_column_option_map. unfold per_column. f_equal.
  apply map_ext. intros kc. rewrite momentum_pct_of_momentum_of. reflexivity.
Qed.

(** X15.  [calculate_momentum] of canadian_nyse_only.py and of
    oil_gas_comprehensive.py against the one of us_portfolio_allocation.py:
    with at least [lookback] rows it is the same momentum in percent (and
    the same IndexError on a frame without rows); with fewer rows it gives
    NaN for every ticker, where the other shortens the lookback. *)
Theorem canadian_momentum_spec (prices : Frame) (lookback : nat) :
  ((lookback <= nrows prices)%nat ->
   CanadianNyseOnlyMetrics.calculate_momentum prices lookback
   = option_map
       (map (fun kv => (fst kv, option_map (fun q => q * qz 100) (snd kv))))
       (UsPortfolioAllocation.calculate_momentum prices lookback)) /\
  ((nrows prices < lookback)%nat ->
   CanadianNyseOnlyMetrics.calculate_momentum prices lookback
   = Some (map (fun kc => (fst kc, None)) prices) /\
   UsPortfolioAllocation.calculate_momentum prices lookback
   = UsPortfolioAllocation.calculate_momentum prices (nrows prices)).
Proof.
  split; [apply canadian_momentum_long |].
  intros Hk. apply Nat.ltb_lt in Hk.
  unfold CanadianNyseOnlyMetrics.calculate_momentum,
    UsPortfolioAllocation.calculate_momentum.
  rewrite Hk, Nat.ltb_irrefl. split; reflexivity.
Qed.

Lemma negative_returns_empty (col : list Qc) :
  ~ Exists (fun r => r < 0) col -> negative_returns col = [].
Proof.
  intros H. unfold negative_returns.
  destruct (filter (fun r => Qc_ltb r 0) col) as [| r l] eqn:E; [reflexivity |].
  exfalso. apply H.
  assert (Hin : In r (filter (fun r => Qc_ltb r 0) col))
    by (rewrite E; left; reflexivity).
  apply filter_In in Hin as [Hin Hr]. apply Exists_exists.
  exists r. split; [exact Hin | apply Qc_ltb_true, Hr].
Qed.

(** X16.  [calculate_downside_volatility] of canadian_nyse_only.py and of
    oil_gas_comprehensive.py (with its default threshold of 0) against the
    one of us_portfolio_allocation.py, column by column of the frame of
    returns: for a ticker with a strictly negative return the two are the
    same value (NaN when there is a single such return); for a ticker
    without one the former is NaN, where the latter is its guard of 0.0001. *)
Theorem canadian_downside_volatility_spec (sqrt : Qc -> Qc) (returns : Frame) :
  Forall2 (fun kc cu =>
             fst (fst cu) = fst kc /\ fst (snd cu) = fst kc /\
             (Exists (fun r => r < 0) (snd kc) ->
              snd (fst cu) = snd (snd cu)) /\
             (~ Exists (fun r => r < 0) (snd kc) ->
              snd (fst cu) = None /\
              snd (snd cu) = Some (Q2Qc (1 # 10000))))
          returns
          (combine
             (CanadianNyseOnlyMetrics.calculate_downside_volatility
                sqrt returns 0)
             (UsPortfolioAllocation.calculate_downside_volatility sqrt returns)).
Proof.
  unfold CanadianNyseOnlyMetrics.calculate_downside_volatility,
    UsPortfolioAllocation.calculate_downside_volatility.
  induction returns as [| [k col] returns IH]; [constructor |].
  cbn [map combine fst snd]. constructor; [| exact IH].
  cbn [fst snd]. split; [reflexivity |]. split; [reflexivity |]. split.
  - intros Hneg. rewrite (downside_volatility_of_negative sqrt col Hneg).
    reflexivity.
  - intros Hno. unfold downside_volatility_of.
    pose proof (negative_returns_empty col Hno) as E.
    rewrite E. unfold negative_returns in E. rewrite E.
    split; reflexivity.
Qed.

(** ** apply_constraints: what every run returns *)

(** For a positive capital and weights that are not negative,
    [apply_constraints] returns either numbers or NaN only. *)
Lemma apply_constraints_outcome (total_capital : Qc) (weights : Series)
  (minp maxp : Qc) :
  0 < total_capital -> 0 <= maxp -> nonneg weights ->
  (exists allocation,
      apply_constraints total_capital (numbers weights) minp maxp
      = Returned (numbers allocation) /\
      keeps_tickers weights allocation /\
      nonneg allocation /\
      (allocation <> [] ->
       qabs (qsum (values allocation) - total_capital) <= 1)) \/
  apply_constraints total_capital (numbers weights) minp maxp
  = Returned (nan_series (index weights)).
Proof.
  intros Hc Hmax Hw. unfold apply_constraints.
  rewrite (NumbersFacts.apply_constraints_loop_numbers total_capital weights
             minp maxp Hc Hmax Hw).
  assert (Hcap : 0 <= total_capital * SECTOR_CAP_PCT).
  { apply Qcmult_nonneg; apply Qclt_le_weak;
      [exact Hc | exact NumbersFacts.SECTOR_CAP_PCT_pos]. }
  assert (Hmaxa : 0 <= total_capital * maxp).
  { apply Qcmult_nonneg; [apply Qclt_le_weak, Hc | exact Hmax]. }
  pose proof (Qclt_le_weak _ _ Hc) as Hc0.
  destruct (OnNumbers.constraint_loop total_capital (total_capital * minp)
              (total_capital * maxp) (total_capital * SECTOR_CAP_PCT) 100 0
              (scale total_capital weights)) as [e |] eqn:Hloop;
    [left | right; reflexivity].
  exists (OnNumbers.exit_allocation e). split; [reflexivity |].
  split; [| split].
  - refine (ApplyConstraintsFacts.constraint_loop_exit total_capital
              (total_capital * minp) (total_capital * maxp)
              (total_capital * SECTOR_CAP_PCT) (keeps_tickers weights) _
              100%nat 0%nat (scale total_capital weights) e
              (ApplyConstraintsFacts.keeps_tickers_scale total_capital weights)
              Hloop).
    intros a a' c Ha Hp.
    eapply ApplyConstraintsFacts.keeps_tickers_trans; [exact Ha |].
    exact (ApplyConstraintsFacts.keeps_tickers_constraint_pass _ _ _ _
             Hmaxa _ _ _ Hp).
  - refine (ApplyConstraintsFacts.constraint_loop_exit total_capital
              (total_capital * minp) (total_capital * maxp)
              (total_capital * SECTOR_CAP_PCT) nonneg _
              100%nat 0%nat (scale total_capital weights) e
              (ApplyConstraintsFacts.nonneg_scale total_capital weights Hc0 Hw)
              Hloop).
    intros a a' c Ha Hp.
    exact (ApplyConstraintsFacts.nonneg_constraint_pass _ _ _ _
             Hmaxa Hcap Hc0 _ _ _ Ha Hp).
  - exact (ApplyConstraintsFacts.constraint_loop_total total_capital
             (total_capital * minp) (total_capital * maxp)
             (total_capital * SECTOR_CAP_PCT) 99%nat 0%nat
             (scale total_capital weights) e Hloop).
Qed.

(** X17.  For a positive capital, a maximum that is not negative and
    weights that are not negative, [apply_constraints] returns one position
    per ticker of the weights, in their order, whether its loop converges or
    not.  Either every position is NaN (a pass has renormalised a total of
    zero); or every position is a number that is not negative, and a ticker
    of weight zero gets nothing. *)
Theorem apply_constraints_keeps_tickers (total_capital : Qc)
  (weights : Series) (min_allocation_pct max_allocation_pct : Qc) :
  0 < total_capital ->
  0 <= max_allocation_pct ->
  nonneg weights ->
  exists out,
    apply_constraints total_capital (numbers weights)
      min_allocation_pct max_allocation_pct = Returned out /\
    xindex out = index weights /\
    (out = nan_series (index weights) \/
     exists allocation,
       out = numbers allocation /\
       keeps_tickers weights allocation /\
       nonneg allocation).
Proof.
  intros Hc Hmax Hw.
  destruct (apply_constraints_outcome total_capital weights
              min_allocation_pct max_allocation_pct Hc Hmax Hw)
    as [(allocation & Hr & Hk & Hn & _) | Hr].
  - exists (numbers allocation). split; [exact Hr |]. split.
    + rewrite NumbersFacts.xindex_numbers.
      exact (ApplyConstraintsFacts.keeps_tickers_index _ _ Hk).
    + right. exists allocation. auto.
  - exists (nan_series (index weights)). split; [exact Hr |].
    split; [apply NumbersFacts.xindex_nan_series | left; reflexivity].
Qed.

Lemma apply_constraints_keeps_tickers_witness :
  exists out,
    apply_constraints (qz 45000) (numbers MoreSamples.w_with_zero)
      MIN_ALLOCATION_PCT 1 = Returned out /\
    xindex out = index MoreSamples.w_with_zero /\
    (out = nan_series (index MoreSamples.w_with_zero) \/
     exists allocation,
       out = numbers allocation /\
       keeps_tickers MoreSamples.w_with_zero allocation /\
       nonneg allocation).
Proof.
  apply (apply_constraints_keeps_tickers (qz 45000)
           MoreSamples.w_with_zero MIN_ALLOCATION_PCT 1).
  - vm_compute. reflexivity.
  - vm_compute. discriminate.
  - repeat (apply Forall_cons; [vm_compute; discriminate |]). apply Forall_nil.
Defined.

(** ** apply_constraints: what the sector step does *)

Module SectorFacts.
Import OnNumbers.

Lemma index_set_loc (t : string) (g : Qc -> Qc) (a : Series) :
  index (set_loc t g a) = index a.
Proof.
  unfold index. induction a as [| [k v] a IH]; simpl; [reflexivity |].
  destruct (String.eqb t k); simpl; [reflexivity | rewrite IH; reflexivity].
Qed.

Lemma loc_set_loc_same (t : string) (g : Qc -> Qc) (a : Series) :
  in_index t a = true -> loc t (set_loc t g a) = g (loc t a).
Proof.
  unfold in_index, index.
  induction a as [| [k v] a IH]; simpl; [discriminate |].
  destruct (String.eqb t k) eqn:E; simpl; rewrite E; [reflexivity | exact IH].
Qed.

Lemma loc_set_loc_other (t t' : string) (g : Qc -> Qc) (a : Series) :
  t <> t' -> loc t (set_loc t' g a) = loc t a.
Proof.
  intros Hne. induction a as [| [k v] a IH]; simpl; [reflexivity |].
  destruct (String.eqb t' k) eqn:E'; simpl.
  - apply String.eqb_eq in E'. subst k.
    destruct (String.eqb t t') eqn:E; [| reflexivity].
    apply String.eqb_eq in E. contradiction.
  - destruct (String.eqb t k); [reflexivity | exact IH].
Qed.

Lemma index_scale_sector (sector : list string) (f : Qc) (a : Series) :
  index (scale_sector sector f a) = index a.
Proof.
  unfold scale_sector. revert a.
  induction sector as [| t sector IH]; intros a; simpl; [reflexivity |].
  rewrite IH. destruct (in_index t a); [apply index_set_loc | reflexivity].
Qed.

Lemma loc_scale_sector_outside (sector : list string) (f : Qc) (a : Series)
  (t : string) :
  ~ In t sector -> loc t (scale_sector sector f a) = loc t a.
Proof.
  unfold scale_sector. revert a.
  induction sector as [| t' sector IH]; intros a Hn; simpl; [reflexivity |].
  rewrite IH by (intro H; apply Hn; right; exact H).
  destruct (in_index t' a); [| reflexivity].
  apply loc_set_loc_other. intros ->. apply Hn. left. reflexivity.
Qed.

Lemma loc_scale_sector_inside (sector : list string) (f : Qc) (a : Series)
  (t : string) :
  NoDup sector -> In t sector -> in_index t a = true ->
  loc t (scale_sector sector f a) = loc t a * f.
Proof.
  intros Hnd. revert a.
  induction Hnd as [| t' sector Hnotin Hnd IH]; intros a Hin Hidx;
    [contradiction |].
  change (scale_sector (t' :: sector) f a)
    with (scale_sector sector f
            (if in_index t' a then set_loc t' (fun v => v * f) a else a)).
  destruct Hin as [-> | Hin].
  - rewrite loc_scale_sector_outside by exact Hnotin.
    rewrite Hidx. apply (loc_set_loc_same t (fun v => v * f)). exact Hidx.
  - assert (Hne : t <> t') by (intros ->; contradiction).
    destruct (in_index t' a) eqn:E'.
    + rewrite IH; [| exact Hin |].
      * rewrite loc_set_loc_other by exact Hne. reflexivity.
      * unfold in_index. rewrite index_set_loc. exact Hidx.
    + apply IH; assumption.
Qed.

Lemma sector_total_scale_sector (sector : list string) (f : Qc) (a : Series) :
  NoDup sector ->
  sector_total sector (scale_sector sector f a) = sector_total sector a * f.
Proof.
  intros Hnd. unfold sector_total.
  assert (Hf : filter (fun t => in_index t (scale_sector sector f a)) sector
               = filter (fun t => in_index t a) sector).
  { apply filter_ext. intros t. unfold in_index.
    rewrite index_scale_sector. reflexivity. }
  rewrite Hf, <- qsum_scaled, map_map. f_equal.
  apply map_ext_in. intros t Hin. apply filter_In in Hin as [Hin Hidx].
  apply loc_scale_sector_inside; assumption.
Qed.

Lemma factor_below_one (cap total : Qc) :
  0 <= cap -> cap < total -> 0 <= cap / total /\ cap / total < 1.
Proof.
  intros Hcap Hover.
  assert (Ht : 0 < total) by exact (Qcle_lt_trans _ _ _ Hcap Hover).
  split; [apply Qcdiv_nonneg; assumption |].
  replace 1 with (total / total)
    by (field; intros E; rewrite E in Ht; discriminate Ht).
  unfold Qcdiv. apply Qcmult_lt_compat_r; [apply Qcinv_pos, Ht | exact Hover].
Qed.

End SectorFacts.

(** X18.  The sector step of [apply_constraints] on an allocation of
    numbers and one sector whose total exceeds a cap amount that is not
    negative: it reports a change, keeps the tickers, multiplies every
    position of the sector by the cap amount over the total, a factor from 0
    up to but not including 1, leaves every other position as it was, and
    brings the total of the sector to the cap amount (to within a cent). *)
Theorem cap_sector_scales (sector_cap_amount : Qc) (sector : list string)
  (a : Series) :
  NoDup sector ->
  0 <= sector_cap_amount ->
  sector_cap_amount < OnNumbers.sector_total sector a ->
  let factor := sector_cap_amount / OnNumbers.sector_total sector a in
  exists a',
    cap_sector sector_cap_amount sector (numbers a)
    = Returned (numbers a', true) /\
    index a' = index a /\
    0 <= factor /\ factor < 1 /\
    (forall t, In t sector -> in_index t a = true ->
               loc t a' = loc t a * factor) /\
    (forall t, ~ In t sector -> loc t a' = loc t a) /\
    qabs (OnNumbers.sector_total sector a' - sector_cap_amount)
      <= Q2Qc (1 # 100).
Proof.
  intros Hnd Hcap Hover. cbv zeta.
  exists (OnNumbers.scale_sector sector
            (sector_cap_amount / OnNumbers.sector_total sector a) a).
  destruct (SectorFacts.factor_below_one _ _ Hcap Hover) as [F0 F1].
  split; [| split; [| split; [| split; [| split; [| split]]]]].
  - rewrite (NumbersFacts.cap_sector_numbers sector_cap_amount Hcap).
    unfold OnNumbers.cap_sector. apply Qc_ltb_true in Hover. rewrite Hover.
    reflexivity.
  - apply SectorFacts.index_scale_sector.
  - exact F0.
  - exact F1.
  - intros t Hin Hidx. apply SectorFacts.loc_scale_sector_inside; assumption.
  - intros t Hn. apply SectorFacts.loc_scale_sector_outside, Hn.
  - rewrite SectorFacts.sector_total_scale_sector by exact Hnd.
    replace (OnNumbers.sector_total sector a
             * (sector_cap_amount / OnNumbers.sector_total sector a)
             - sector_cap_amount) with 0.
    + vm_compute. discriminate.
    + field. intros H0. rewrite H0 in Hover.
      exact (Qclt_not_le _ _ Hover Hcap).
Qed.

Lemma cap_sector_scales_witness :
  let factor :=
    qz 19800 / OnNumbers.sector_total SECTOR_GOLD MoreSamples.alloc_gold in
  exists a',
    cap_sector (qz 19800) SECTOR_GOLD (numbers MoreSamples.alloc_gold)
    = Returned (numbers a', true) /\
    index a' = index MoreSamples.alloc_gold /\
    0 <= factor /\ factor < 1 /\
    (forall t, In t SECTOR_GOLD -> in_index t MoreSamples.alloc_gold = true ->
               loc t a' = loc t MoreSamples.alloc_gold * factor) /\
    (forall t, ~ In t SECTOR_GOLD -> loc t a' = loc t MoreSamples.alloc_gold) /\
    qabs (OnNumbers.sector_total SECTOR_GOLD a' - qz 19800) <= Q2Qc (1 # 100).
Proof.
  apply (cap_sector_scales (qz 19800) SECTOR_GOLD MoreSamples.alloc_gold).
  - repeat constructor; simpl; intros H;
      repeat (destruct H as [H | H]; [discriminate H |]); exact H.
  - vm_compute. discriminate.
  - vm_compute. reflexivity.
Defined.

(** ** The total-return indexes against the close *)

Lemma shifted_yield_nonneg (prev : option Qc) (d y : Qc) :
  match prev with Some c => 0 < c | None => True end ->
  0 <= d -> Allocate.shifted_yield prev d = Some y -> 0 <= y.
Proof.
  unfold Allocate.shifted_yield. destruct prev as [c |].
  - intros Hc Hd. destruct (Qc_eqb c 0) eqn:E.
    + apply Qc_eqb_true in E. subst c. discriminate Hc.
    + intros [= <-]. apply Qcdiv_nonneg; assumption.
  - intros _ _ [= <-]. apply Qcle_refl.
Qed.

Lemma total_return_sum_above_close (rows : History) :
  forall (prev : option Qc) (run : Qc) (l : list Qc),
    Forall (fun r => 0 < Close r /\ 0 <= Dividends r) rows ->
    match prev with Some c => 0 < c | None => True end ->
    0 <= run ->
    Allocate.total_return_sum_from prev run rows = Some l ->
    Forall2 (fun r s => Close r <= s) rows l.
Proof.
  induction rows as [| r rows IH]; intros prev run l Hrows Hprev Hrun H.
  - simpl in H. injection H as <-. constructor.
  - inversion Hrows as [| ? ? [Hc Hd] Hrows']; subst.
    cbn [Allocate.total_return_sum_from] in H.
    destruct (Allocate.shifted_yield prev (Dividends r)) as [y |] eqn:Ey;
      [| discriminate].
    cbn [obind] in H.
    destruct (Allocate.total_return_sum_from (Some (Close r)) (run + y) rows)
      as [rest |] eqn:Er; [| discriminate].
    cbn [obind] in H. injection H as <-.
    pose proof (shifted_yield_nonneg prev _ y Hprev Hd Ey) as Hy.
    assert (Hrun' : 0 <= run + y) by (apply Qcplus_nonneg; assumption).
    constructor; [| exact (IH (Some (Close r)) _ _ Hrows' Hc Hrun' Er)].
    replace (Close r) with (Close r * 1) at 1 by ring.
    rewrite !(Qcmult_comm (Close r)).
    apply Qcmult_le_compat_r; [| apply Qclt_le_weak, Hc].
    set (s := run + y) in *. clearbody s. qc_lra.
Qed.

(** X19.  For positive closes and dividends that are not negative both
    total-return indexes exist, and on every day the close is at most the
    index that allocate.py builds from the sum of the dividend yields, which
    is at most the index that us_portfolio_allocation.py compounds. *)
Theorem total_return_indexes_ordered (hist : History) :
  Forall (fun r => 0 < Close r /\ 0 <= Dividends r) hist ->
  exists l,
    Allocate.total_return_sum hist = Some l /\
    Forall2 (fun r s => Close r <= s) hist l /\
    Forall2 Qcle l (total_return_index hist).
Proof.
  intros H. destruct (total_return_sum_below_compounded hist H) as (l & Hl & Hle).
  exists l. split; [exact Hl |]. split; [| exact Hle].
  exact (total_return_sum_above_close hist None 0 l H I (Qcle_refl 0) Hl).
Qed.

Lemma total_return_indexes_ordered_witness :
  exists l,
    Allocate.total_return_sum Samples.hist_two_dividends = Some l /\
    Forall2 (fun r s => Close r <= s) Samples.hist_two_dividends l /\
    Forall2 Qcle l (total_return_index Samples.hist_two_dividends).
Proof.
  apply (total_return_indexes_ordered Samples.hist_two_dividends).
  repeat constructor; vm_compute; first [reflexivity | discriminate].
Defined.

(** ** The columns that the fetch routines return *)

Lemma concat_dropna_columns (dfs : list (string * DatedSeries)) :
  map fst (concat_dropna dfs) = map fst dfs.
Proof. unfold concat_dropna. rewrite map_map. reflexivity. Qed.

(** X20.  When no ticker makes the provider raise, the frame that
    fetch_total_return_index returns has one column for every ticker with a
    non-empty history, in the order of the request, and the routines of
    us_portfolio_allocation.py and of canadian_nyse_only.py return the same
    frame.  When every history is empty the first raises the ValueError of
    [pd.concat] and the second returns the empty frame. *)
Theorem fetch_total_return_index_columns
  (history : string -> string -> history_outcome)
  (tickers : list string) (period : string) :
  Forall (fun t => raises history period t = false) tickers ->
  let kept := filter (fun t => negb (answers_empty history period t)) tickers in
  match kept with
  | [] =>
      UsPortfolioAllocation.fetch_total_return_index history tickers period
      = Raised "No objects to concatenate" /\
      CanadianNyseOnly.fetch_total_return_index history tickers period
      = Returned []
  | _ :: _ =>
      exists frame,
        UsPortfolioAllocation.fetch_total_return_index history tickers period
        = Returned frame /\
        CanadianNyseOnly.fetch_total_return_index history tickers period
        = Returned frame /\
        map fst frame = kept
  end.
Proof.
  intros Hno. cbv zeta.
  destruct (fetch_columns_returns history period tickers Hno [])
    as (cols & H1 & H2 & H3).
  simpl in H1, H2.
  unfold UsPortfolioAllocation.fetch_total_return_index,
    CanadianNyseOnly.fetch_total_return_index.
  rewrite H1, H2, <- H3. destruct cols as [| c cols].
  - split; reflexivity.
  - cbn [map]. exists (concat_dropna (c :: cols)).
    split; [reflexivity |]. split; [reflexivity |].
    apply (concat_dropna_columns (c :: cols)).
Qed.

Lemma fetch_total_return_index_columns_witness :
  let kept :=
    filter (fun t => negb (answers_empty Samples.history_enb_down "3y" t))
           ["SU"; "CNQ"; "TRP"] in
  match kept with
  | [] =>
      UsPortfolioAllocation.fetch_total_return_index
        Samples.history_enb_down ["SU"; "CNQ"; "TRP"] "3y"
      = Raised "No objects to concatenate" /\
      CanadianNyseOnly.fetch_total_return_index
        Samples.history_enb_down ["SU"; "CNQ"; "TRP"] "3y"
      = Returned []
  | _ :: _ =>
      exists frame,
        UsPortfolioAllocation.fetch_total_return_index
          Samples.history_enb_down ["SU"; "CNQ"; "TRP"] "3y"
        = Returned frame /\
        CanadianNyseOnly.fetch_total_return_index
          Samples.history_enb_down ["SU"; "CNQ"; "TRP"] "3y"
        = Returned frame /\
        map fst frame = kept
  end.
Proof.
  apply (fetch_total_return_index_columns
           Samples.history_enb_down ["SU"; "CNQ"; "TRP"] "3y").
  repeat constructor.
Defined.

(** ** get_latest_nav: the latest entry *)

(** X21.  What [get_latest_nav] makes of a latest entry that is not empty:
    without a nav key it reports the nav 0, not None; a nav string goes
    through [float], whose ValueError reaches the caller; a nav of null
    raises a TypeError.  The date is the one of that entry. *)
Theorem get_latest_nav_entry
  (http_get : Z -> response) (float_of_string : string -> option Qc)
  (code : Z) (body : mf_body) (latest : list (string * json))
  (rest : list (list (string * json))) :
  http_get code = ResponseJson body ->
  data body = Some (latest :: rest) ->
  latest <> [] ->
  match assoc "nav" latest with
  | None =>
      exists r,
        get_latest_nav http_get float_of_string code = Returned r /\
        nav r = Some 0 /\ date r = dict_get "date" JNull latest
  | Some (JStr s) =>
      match float_of_string s with
      | Some q =>
          exists r,
            get_latest_nav http_get float_of_string code = Returned r /\
            nav r = Some q /\ date r = dict_get "date" JNull latest
      | None =>
          get_latest_nav http_get float_of_string code = Raised "ValueError"
      end
  | Some JNull =>
      get_latest_nav http_get float_of_string code = Raised "TypeError"
  | Some _ => True
  end.
Proof.
  intros Hget Hdata Hne. unfold get_latest_nav, get_mf_nav.
  rewrite Hget, Hdata. destruct latest as [| kv latest']; [contradiction |].
  replace (dict_get "nav" (JNum 0) (kv :: latest'))
    with (match assoc "nav" (kv :: latest') with
          | Some v => v
          | None => JNum 0
          end) by reflexivity.
  destruct (assoc "nav" (kv :: latest')) as [[| b | q | s | l | o] |];
    cbn [float]; try exact I; try reflexivity.
  - destruct (float_of_string s) as [q |]; [| reflexivity].
    eexists. split; [reflexivity |]. split; reflexivity.
  - eexists. split; [reflexivity |]. split; reflexivity.
Qed.

Lemma get_latest_nav_entry_witness :
  exists r,
    get_latest_nav MoreSamples.mfapi_entry_without_nav (fun _ => None) 119551
    = Returned r /\
    nav r = Some 0 /\ date r = JStr "03-11-2026".
Proof.
  exact (get_latest_nav_entry MoreSamples.mfapi_entry_without_nav
           (fun _ => None) 119551 _ [("date", JStr "03-11-2026")] []
           eq_refl eq_refl ltac:(discriminate)).
Defined.

(** ** calculate_downside_volatility: where the guard does not reach *)

(** X22.  The downside volatility of a ticker is NaN exactly when the
    ticker has a single strictly negative daily return: the guard replaces
    the empty selection only, and the standard deviation of one value is
    NaN. *)
Theorem calculate_downside_volatility_nan (sqrt : Qc -> Qc) (returns : Frame)
  (t : string) (col : list Qc) :
  assoc t returns = Some col ->
  nloc t (calculate_downside_volatility sqrt returns) = None <->
  List.length (negative_returns col) = 1%nat.
Proof.
  intros Ht. rewrite nloc_assoc. unfold calculate_downside_volatility.
  rewrite (assoc_map_labelled (fun _ c => downside_volatility_of sqrt c)).
  rewrite Ht. simpl. unfold downside_volatility_of, annualized_negative_std, std.
  destruct (negative_returns col) as [| r [| r' l]]; simpl.
  - split; [discriminate | lia].
  - split; reflexivity.
  - split; [discriminate | lia].
Qed.

Lemma calculate_downside_volatility_nan_witness :
  nloc "XOM" (calculate_downside_volatility sqrt_approx MoreSamples.returns_one_loss)
  = None <->
  List.length
    (negative_returns [Q2Qc (1 # 10); - Q2Qc (1 # 20); Q2Qc (1 # 50)]) = 1%nat.
Proof.
  apply (calculate_downside_volatility_nan sqrt_approx
           MoreSamples.returns_one_loss "XOM").
  reflexivity.
Defined.

(** ** allocate.py: an allocation that is within its bounds *)

Lemma map_if_false (P : Qc -> bool) (c : Qc) (s : Series) :
  Forall (fun v => P v = false) (values s) ->
  map (fun kv => if P (snd kv) then (fst kv, c) else kv) s = s.
Proof.
  unfold values. rewrite Forall_map.
  induction 1 as [| kv s Hkv _ IH]; simpl; [reflexivity |].
  rewrite Hkv, IH. reflexivity.
Qed.

Lemma scale_one (s : Series) : scale 1 s = s.
Proof.
  unfold scale. induction s as [| [k v] s IH]; simpl; [reflexivity |].
  rewrite IH. f_equal. f_equal. ring.
Qed.

Lemma allocation_pass_fixed (capital min_w max_w : Qc) (alloc : Series) :
  capital <> 0 ->
  Forall (fun v => capital * min_w <= v /\ v <= capital * max_w) (values alloc) ->
  qsum (values alloc) = capital ->
  allocation_pass capital min_w max_w alloc = Some alloc.
Proof.
  intros Hnz Hb Hsum. unfold allocation_pass.
  rewrite (map_if_false (fun v => Qc_ltb v (capital * min_w))).
  2:{ eapply Forall_impl; [| exact Hb]. intros v [H _]. apply Qc_ltb_false, H. }
  rewrite (map_if_false (fun v => Qc_ltb (capital * max_w) v)).
  2:{ eapply Forall_impl; [| exact Hb]. intros v [_ H]. apply Qc_ltb_false, H. }
  rewrite Hsum. unfold scale_by_quotient, fdiv.
  destruct alloc as [| kv rest] eqn:Ea; [reflexivity |]. rewrite <- Ea.
  destruct (Qc_eqb capital 0) eqn:E; [apply Qc_eqb_true in E; contradiction |].
  simpl. f_equal. replace (capital / capital) with 1 by (field; exact Hnz).
  apply scale_one.
Qed.

(** X23.  An allocation whose positions lie between [min_w] and [max_w] of
    the capital and add up to the capital is left as it is by the floor, cap
    and renormalise passes of [allocate], however many are run. *)
Theorem allocation_loop_fixed (n : nat) (capital min_w max_w : Qc)
  (alloc : Series) :
  capital <> 0 ->
  Forall (fun v => capital * min_w <= v /\ v <= capital * max_w) (values alloc) ->
  qsum (values alloc) = capital ->
  allocation_loop n capital min_w max_w alloc = Some alloc.
Proof.
  intros Hnz Hb Hsum. induction n as [| n IH]; [reflexivity |].
  cbn [allocation_loop].
  rewrite (allocation_pass_fixed capital min_w max_w alloc Hnz Hb Hsum).
  cbn [obind]. exact IH.
Qed.

Lemma allocation_loop_fixed_witness :
  allocation_loop 10 (qz 60000) (Q2Qc (5 # 100)) (Q2Qc (30 # 100))
    MoreSamples.alloc_four_equal
  = Some MoreSamples.alloc_four_equal.
Proof.
  apply (allocation_loop_fixed 10 (qz 60000) (Q2Qc (5 # 100)) (Q2Qc (30 # 100))
           MoreSamples.alloc_four_equal).
  - vm_compute. discriminate.
  - unfold values; simpl.
    repeat (apply Forall_cons; [split; vm_compute; discriminate |]).
    apply Forall_nil.
  - qc_compute.
Defined.

(** ** calculate_drawdown_metrics on prices that never fall *)

Lemma cummax_from_sorted (l : list Qc) :
  forall x, StronglySorted Qcle (x :: l) -> cummax_from x l = l.
Proof.
  induction l as [| y l IH]; intros x H; simpl; [reflexivity |].
  inversion H as [| ? ? Hs Hall]; subst.
  inversion Hall as [| ? ? Hxy _]; subst.
  assert (E : qmax x y = y).
  { unfold qmax. destruct (Qc_ltb x y) eqn:E; [reflexivity |].
    apply Qc_ltb_false in E. apply Qcle_antisym; assumption. }
  rewrite E, (IH y Hs). reflexivity.
Qed.

Lemma cummax_sorted (l : list Qc) : StronglySorted Qcle l -> cummax l = l.
Proof.
  destruct l as [| x l]; [reflexivity |]. intros H. simpl.
  rewrite (cummax_from_sorted l x H). reflexivity.
Qed.

Lemma drawdown_series_sorted (price : list Qc) :
  Forall (fun p => 0 < p) price -> StronglySorted Qcle price ->
  drawdown_series price = Some (map (fun _ => 0) price).
Proof.
  intros Hpos Hs. unfold drawdown_series. rewrite (cummax_sorted price Hs).
  clear Hs. induction Hpos as [| p price Hp _ IH]; [reflexivity |].
  cbn [combine map sequence fst snd]. rewrite IH.
  unfold fdiv. destruct (Qc_eqb p 0) eqn:E.
  - apply Qc_eqb_true in E. subst p. discriminate Hp.
  - apply Qc_eqb_false in E. simpl. f_equal. f_equal. field. exact E.
Qed.

Lemma qmin_list_zeros (l : list Qc) :
  Forall (fun d => d = 0) l -> qmin_list 0 l = 0.
Proof.
  unfold qmin_list. induction 1 as [| d l -> _ IH]; [reflexivity |].
  simpl. exact IH.
Qed.

Lemma series_min_zeros {A : Type} (l : list A) :
  l <> [] -> series_min (map (fun _ => 0) l) = Some 0.
Proof.
  destruct l as [| x l]; [contradiction |]. intros _. simpl. f_equal.
  apply qmin_list_zeros. rewrite Forall_map. apply Forall_forall. reflexivity.
Qed.

Lemma drawdown_periods_none (fl : list bool) :
  Forall (fun b => b = false) fl -> drawdown_periods fl = [].
Proof.
  intros H. unfold drawdown_periods.
  assert (G : forall i,
             fold_left period_step (combine (seq i (List.length fl)) fl) (None, [])
             = (None, [])).
  { induction H as [| b fl -> _ IH]; intros i; [reflexivity |]. simpl. apply IH. }
  rewrite G. reflexivity.
Qed.

Lemma StronglySorted_skipn {A : Type} (R : A -> A -> Prop) (n : nat)
  (l : list A) :
  StronglySorted R l -> StronglySorted R (skipn n l).
Proof.
  revert l. induction n as [| n IH]; intros l H; [exact H |].
  destruct l as [| x l]; [exact H |]. simpl. apply IH.
  inversion H; assumption.
Qed.

Lemma StronglySorted_firstn {A : Type} (R : A -> A -> Prop) (n : nat)
  (l : list A) :
  StronglySorted R l -> StronglySorted R (firstn n l).
Proof.
  intros H. revert n. induction H as [| x l Hs IH Hall]; intros n.
  - rewrite firstn_nil. constructor.
  - destruct n as [| n]; simpl; constructor; [apply IH |].
    rewrite Forall_forall in *. intros y Hy. apply Hall. exact (in_firstn _ _ _ Hy).
Qed.

Lemma rolling_windows_sorted (price : list Qc) :
  Forall (fun p => 0 < p) price -> StronglySorted Qcle price ->
  exists rolling,
    sequence
      (map (fun i =>
              window_dd <- drawdown_series (window_prices 63 i price) ;;
              series_min window_dd)
           (seq 63 (List.length price - 63))) = Some rolling /\
    Forall (fun d => d = 0) rolling.
Proof.
  intros Hpos Hs.
  destruct (sequence_map_forall
              (fun i =>
                 window_dd <- drawdown_series (window_prices 63 i price) ;;
                 series_min window_dd)
              (fun d => d = 0)
              (seq 63 (List.length price - 63))) as (r & Hr & Hz & _).
  - apply Forall_forall. intros i Hi. apply in_seq in Hi.
    assert (Hw : Forall (fun p => 0 < p) (window_prices 63 i price)).
    { unfold window_prices. apply Forall_forall. intros p Hp.
      apply in_firstn, in_skipn in Hp.
      rewrite Forall_forall in Hpos. exact (Hpos p Hp). }
    assert (Hne : window_prices 63 i price <> []).
    { unfold window_prices. intro E.
      apply (f_equal (@List.length Qc)) in E.
      rewrite length_firstn, length_skipn in E. cbn [List.length] in E. lia. }
    assert (Hws : StronglySorted Qcle (window_prices 63 i price)).
    { unfold window_prices. apply StronglySorted_firstn, StronglySorted_skipn, Hs. }
    exists 0. rewrite (drawdown_series_sorted _ Hw Hws). cbn [obind].
    split; [apply series_min_zeros, Hne | reflexivity].
  - exists r. auto.
Qed.

Lemma drawdown_metrics_of_sorted (price : list Qc) :
  price <> [] -> Forall (fun p => 0 < p) price -> Sorted Qcle price ->
  exists m, drawdown_metrics_of price = Some m /\ no_drawdown m.
Proof.
  intros Hne Hpos Hsorted.
  assert (Hs : StronglySorted Qcle price).
  { apply Sorted_StronglySorted; [| exact Hsorted].
    intros x y z. apply Qcle_trans. }
  unfold drawdown_metrics_of.
  rewrite (drawdown_series_sorted price Hpos Hs). cbn [obind].
  rewrite (series_min_zeros price Hne). cbn [obind].
  assert (Hddne : map (fun _ : Qc => 0) price <> []).
  { destruct price; [contradiction | discriminate]. }
  destruct (iloc_int_last _ Hddne) as (cur & Hcur & Hin).
  rewrite Hcur. cbn [obind].
  apply in_map_iff in Hin as (p & <- & _).
  rewrite map_map.
  rewrite (drawdown_periods_none (map (fun _ => Qc_ltb 0 0) price)).
  2:{ rewrite Forall_map. apply Forall_forall. reflexivity. }
  destruct (rolling_windows_sorted price Hpos Hs) as (rolling & Hroll & Hz).
  rewrite Hroll. cbn [obind]. eexists. split; [reflexivity |].
  unfold no_drawdown. cbn. repeat split.
  destruct Hz as [| d l -> Hl]; [reflexivity | apply qmin_list_zeros, Hl].
Qed.

(** X24.  A ticker whose price never falls has no drawdown: on price
    series that are non-empty, positive and non-decreasing,
    [calculate_drawdown_metrics] gives 0 for max_drawdown,
    max_dd_duration_days, avg_dd_duration_days, current_drawdown and
    worst_rolling_3m_dd. *)
Theorem calculate_drawdown_metrics_never_falls (prices : Frame) :
  Forall (fun kc => snd kc <> [] /\ Forall (fun p => 0 < p) (snd kc) /\
                    Sorted Qcle (snd kc)) prices ->
  exists metrics,
    calculate_drawdown_metrics prices = Some metrics /\
    Forall2 (fun kc km => fst km = fst kc /\ no_drawdown (snd km)) prices metrics.
Proof.
  unfold calculate_drawdown_metrics, per_column.
  induction 1 as [| [k c] prices (Hne & Hpos & Hs) _ (metrics & Hm & Hall)].
  - exists []. split; [reflexivity | constructor].
  - simpl in Hne, Hpos, Hs.
    destruct (drawdown_metrics_of_sorted c Hne Hpos Hs) as (m & Hc & Hno).
    exists ((k, m) :: metrics). cbn [map sequence fst snd].
    rewrite Hc, Hm. split; [reflexivity |].
    constructor; [| exact Hall]. simpl. auto.
Qed.

Lemma calculate_drawdown_metrics_never_falls_witness :
  exists metrics,
    calculate_drawdown_metrics MoreSamples.prices_climbing = Some metrics /\
    Forall2 (fun kc km => fst km = fst kc /\ no_drawdown (snd km))
            MoreSamples.prices_climbing metrics.
Proof.
  apply (calculate_drawdown_metrics_never_falls MoreSamples.prices_climbing).
  repeat constructor; try discriminate; vm_compute; first [reflexivity | discriminate].
Defined.

(** ** apply_constraints: the total at the exit of the loop *)

(** X25.  For a positive capital, a maximum that is not negative and
    weights that are not negative and not empty, whether the loop of
    [apply_constraints] converges or runs into its bound of 100 passes:
    either every position that is returned is NaN, or the positions are
    numbers that add up to the capital within one dollar, every pass ending
    with the renormalisation. *)
Theorem apply_constraints_total (total_capital : Qc)
  (weights : Series) (min_allocation_pct max_allocation_pct : Qc) :
  0 < total_capital ->
  0 <= max_allocation_pct ->
  nonneg weights ->
  weights <> [] ->
  exists out,
    apply_constraints total_capital (numbers weights)
      min_allocation_pct max_allocation_pct = Returned out /\
    (out = nan_series (index weights) \/
     exists allocation,
       out = numbers allocation /\
       qabs (qsum (values allocation) - total_capital) <= 1).
Proof.
  intros Hc Hmax Hw Hne.
  destruct (apply_constraints_outcome total_capital weights
              min_allocation_pct max_allocation_pct Hc Hmax Hw)
    as [(allocation & Hr & Hk & _ & Ht) | Hr].
  - exists (numbers allocation). split; [exact Hr |]. right.
    exists allocation. split; [reflexivity |]. apply Ht.
    intros E. rewrite E in Hk. inversion Hk; subst. contradiction.
  - exists (nan_series (index weights)). split; [exact Hr |].
    left. reflexivity.
Qed.

(** The theorem applies to a run that does not converge: the whole weight
    on one ticker of a capped sector. *)
Lemma apply_constraints_total_witness :
  exists out,
    apply_constraints TOTAL_CAPITAL (numbers Samples.w_single_sector)
      MIN_ALLOCATION_PCT 1 = Returned out /\
    (out = nan_series (index Samples.w_single_sector) \/
     exists allocation,
       out = numbers allocation /\
       qabs (qsum (values allocation) - TOTAL_CAPITAL) <= 1).
Proof.
  apply (apply_constraints_total TOTAL_CAPITAL Samples.w_single_sector
           MIN_ALLOCATION_PCT 1).
  - vm_compute. reflexivity.
  - vm_compute. discriminate.
  - repeat (apply Forall_cons; [vm_compute; discriminate |]). apply Forall_nil.
  - discriminate.
Defined.

(** ** calculate_portfolio_metrics: the concentration figures *)

Import UsPortfolioMetrics.

Lemma qsum_app (l1 l2 : list Qc) : qsum (l1 ++ l2) = qsum l1 + qsum l2.
Proof.
  induction l1 as [| x l1 IH]; simpl; [ring |]. rewrite IH. ring.
Qed.

Lemma qsum_perm (l l' : list Qc) : Permutation l l' -> qsum l = qsum l'.
Proof.
  induction 1 as [| x l l' _ IH | x y l | l l' l'' _ IH1 _ IH2]; simpl.
  - reflexivity.
  - rewrite IH. reflexivity.
  - ring.
  - rewrite IH1. exact IH2.
Qed.

Lemma qmax_list_in (x : Qc) (l : list Qc) : In (qmax_list x l) (x :: l).
Proof.
  unfold qmax_list. revert x. induction l as [| y l IH]; intros x; simpl.
  - left. reflexivity.
  - destruct (IH (qmax x y)) as [H | H].
    + unfold qmax in H at 1. destruct (Qc_ltb x y); auto.
    + auto.
Qed.

Lemma in_le_qsum (e : Qc) (l : list Qc) :
  Forall (fun v => 0 <= v) l -> In e l -> e <= qsum l.
Proof.
  induction 1 as [| v l Hv Hl IH]; intros Hin; [contradiction |].
  simpl. pose proof (qsum_nonneg l Hl) as Hs. destruct Hin as [-> | Hin].
  - set (s := qsum l) in *. clearbody s. qc_lra.
  - specialize (IH Hin). set (s := qsum l) in *. clearbody s. qc_lra.
Qed.

(** X26.  The concentration figures of [calculate_portfolio_metrics] when
    there is a position and no weight is negative: num_positions counts the
    rows with a positive amount, the largest weight is at most the weight
    of the top three, that is at most the weight of all positions, and
    with three positions or fewer the top three are all of them. *)
Theorem calculate_portfolio_metrics_concentration (sqrt : Qc -> Qc)
  (shares : list (string * share_row)) (returns : Frame)
  (score mom_3m mom_6m downside_vol : NSeries) (m : portfolio_metrics) :
  calculate_portfolio_metrics sqrt shares returns score mom_3m mom_6m downside_vol
    = Returned (AllMetrics m) ->
  Forall (fun ks => 0 <= Weight_Pct (snd ks)) (active_rows shares) ->
  let total := qsum (values (active_weights shares)) in
  num_positions m = List.length (active_rows shares) /\
  (1 <= num_positions m)%nat /\
  max_position_weight m <= top_3_concentration m /\
  top_3_concentration m <= total /\
  ((num_positions m <= 3)%nat -> top_3_concentration m = total).
Proof.
  intros H Hnn. cbv zeta. unfold calculate_portfolio_metrics in H.
  set (ws := active_weights shares) in *.
  assert (Hlen : List.length ws = List.length (active_rows shares)).
  { unfold ws, active_weights. apply length_map. }
  assert (Hpos : Forall (fun v => 0 <= v) (values ws)).
  { unfold ws, active_weights, values. rewrite map_map, Forall_map.
    eapply Forall_impl; [| exact Hnn]. intros ks Hks. simpl.
    apply Qcdiv_nonneg; [exact Hks | vm_compute; reflexivity]. }
  set (total := qsum (values ws)).
  assert (Htotal : total = qsum (values ws)) by reflexivity. clearbody total.
  destruct (values ws) as [| w l] eqn:Ev; [discriminate |].
  rewrite <- Ev in Hpos, Htotal.
  destruct (weighted_sum ws mom_3m); [| discriminate].
  destruct (weighted_sum ws mom_6m); [| discriminate].
  destruct (weighted_sum ws downside_vol); [| discriminate].
  destruct (weighted_sum ws score); [| discriminate].
  destruct (weighted_returns ws returns); [| discriminate].
  injection H as <-. cbn.
  assert (Hn : (1 <= List.length ws)%nat).
  { apply (f_equal (@List.length Qc)) in Ev. unfold values in Ev.
    rewrite length_map in Ev. simpl in Ev. lia. }
  destruct (nlargest_top (Z.min 3 (Z.of_nat (List.length ws))) ws)
    as (rest & Hperm & Hsel & Hord).
  set (sel := nlargest (Z.min 3 (Z.of_nat (List.length ws))) ws) in *.
  assert (Hpv : Permutation (values sel ++ values rest) (values ws)).
  { unfold values. rewrite <- map_app. apply Permutation_map, Hperm. }
  assert (Hall : Forall (fun v => 0 <= v) (values sel ++ values rest)).
  { exact (Permutation_Forall (Permutation_sym Hpv) Hpos). }
  apply Forall_app in Hall as [Hsp Hrp].
  assert (Hsum : qsum (values ws) = qsum (values sel) + qsum (values rest)).
  { rewrite <- qsum_app. symmetry. apply qsum_perm, Hpv. }
  split; [exact Hlen |]. split; [exact Hn |]. split; [| split].
  - pose proof (qmax_list_in w l) as Hin. rewrite <- Ev in Hin.
    apply (Permutation_in _ (Permutation_sym Hpv)) in Hin.
    apply in_app_or in Hin as [Hin | Hin].
    + apply in_le_qsum; assumption.
    + destruct sel as [| x sel'] eqn:Es; [simpl in Hsel; lia |].
      unfold values in Hin. apply in_map_iff in Hin as (y & Hy & Hyin).
      pose proof (Hord x y (or_introl eq_refl) Hyin) as Hxy.
      rewrite Hy in Hxy. eapply Qcle_trans; [exact Hxy |].
      apply in_le_qsum; [exact Hsp | left; reflexivity].
  - rewrite Htotal, Hsum. pose proof (qsum_nonneg _ Hrp) as Hr.
    set (a := qsum (values sel)) in *. set (b := qsum (values rest)) in *.
    clearbody a b. qc_lra.
  - intros H3. rewrite Htotal, Hsum.
    assert (Hrest : rest = []).
    { apply Permutation_length in Hperm. rewrite length_app in Hperm.
      destruct rest; [reflexivity |]. simpl in Hperm. lia. }
    rewrite Hrest. simpl. ring.
Qed.

Lemma calculate_portfolio_metrics_concentration_witness :
  exists m,
    calculate_portfolio_metrics sqrt_approx MoreSamples.shares_two
      MoreSamples.returns_two MoreSamples.metric_two MoreSamples.metric_two
      MoreSamples.metric_two MoreSamples.metric_two = Returned (AllMetrics m) /\
    let total := qsum (values (active_weights MoreSamples.shares_two)) in
    num_positions m = List.length (active_rows MoreSamples.shares_two) /\
    (1 <= num_positions m)%nat /\
    max_position_weight m <= top_3_concentration m /\
    top_3_concentration m <= total /\
    ((num_positions m <= 3)%nat -> top_3_concentration m = total).
Proof.
  eexists. split; [vm_compute; reflexivity |].
  eapply (calculate_portfolio_metrics_concentration sqrt_approx
            MoreSamples.shares_two MoreSamples.returns_two
            MoreSamples.metric_two MoreSamples.metric_two
            MoreSamples.metric_two MoreSamples.metric_two).
  - vm_compute. reflexivity.
  - repeat constructor; vm_compute; discriminate.
Defined.

(** ** From the scores to the amounts: the steps of [main] composed *)

Lemma weights_of_numbers (p : Series) (total : Qc) :
  total <> 0 -> p <> [] ->
  match numbers p with
  | [] => []
  | _ :: _ => map (fun kv => (fst kv, xdiv (snd kv) (Num total))) (numbers p)
  end
  = numbers (map (fun kv => (fst kv, snd kv / total)) p).
Proof.
  intros Hnz Hne. destruct p as [| x p]; [contradiction |].
  transitivity (map (fun kv => (fst kv, xdiv (snd kv) (Num total)))
                    (numbers (x :: p))); [reflexivity |].
  unfold numbers. rewrite !map_map. apply map_ext. intros [k v]. simpl.
  unfold xdiv. apply Qc_eqb_false in Hnz. rewrite Hnz. reflexivity.
Qed.

(** On scores that are numbers the weights are numbers, none of them
    negative, one per positive score. *)
Lemma calculate_sortino_weights_numbers (score : Series) :
  exists w,
    calculate_sortino_weights (numbers score) = numbers w /\
    nonneg w /\
    index w = index (filter (fun kv => Qc_ltb 0 (snd kv)) score).
Proof.
  assert (Hf : filter (fun kv => xlt (Num 0) (snd kv)) (numbers score)
               = numbers (filter (fun kv => Qc_ltb 0 (snd kv)) score)).
  { induction score as [| [k v] score IH]; [reflexivity |].
    change (numbers ((k, v) :: score)) with ((k, Num v) :: numbers score).
    cbn [filter snd]. change (xlt (Num 0) (Num v)) with (Qc_ltb 0 v).
    destruct (Qc_ltb 0 v); rewrite IH; reflexivity. }
  unfold calculate_sortino_weights. rewrite Hf.
  set (positive := filter (fun kv => Qc_ltb 0 (snd kv)) score).
  assert (Hpos : Forall (fun v => 0 < v) (values positive)).
  { unfold values, positive. rewrite Forall_map. apply Forall_forall.
    intros kv Hin. apply filter_In in Hin as [_ Hv]. apply Qc_ltb_true, Hv. }
  clearbody positive.
  destruct positive as [| kv rest]; [exists []; repeat split; constructor |].
  remember (kv :: rest) as p eqn:Ep.
  assert (Hne : p <> []) by (rewrite Ep; discriminate). clear Ep kv rest.
  assert (Htot : 0 < qsum (values p)).
  { apply qsum_pos; [| exact Hpos].
    unfold values. destruct p; [contradiction | discriminate]. }
  exists (map (fun kv => (fst kv, snd kv / qsum (values p))) p).
  split; [| split].
    + rewrite NumbersFacts.pd_sum_numbers. apply weights_of_numbers; [| exact Hne].
      intros E. rewrite E in Htot. discriminate Htot.
    + unfold nonneg, values in *. rewrite map_map. rewrite Forall_map in *.
      eapply Forall_impl; [| exact Hpos]. intros x Hx. simpl.
      apply Qcdiv_nonneg; [apply Qclt_le_weak, Hx | exact Htot].
    + unfold index. rewrite map_map. reflexivity.
Qed.

Lemma above_minus_one (x k : Qc) :
  0 <= x -> x <= k + Q2Qc (1 # 2) -> qz (-1) < k.
Proof.
  unfold Qcle, Qclt, Qcplus, qz, Q2Qc; cbn [this].
  rewrite ?Qred_correct. change (inject_Z (-1)) with (-1)%Q.
  intros H1 H2. lra.
Qed.

Lemma round_half_even_nonneg (x : Qc) : 0 <= x -> (0 <= round_half_even x)%Z.
Proof.
  intros Hx. destruct (round_half_even_close x) as [_ H].
  pose proof (above_minus_one _ _ Hx H) as G.
  apply qz_lt_inv in G. lia.
Qed.

Lemma round_to_nearest_nonneg (v : Qc) (a : Z) :
  0 <= v -> round_to_nearest v 1000 = Some a -> (0 <= a)%Z.
Proof.
  intros Hv. unfold round_to_nearest.
  destruct (Qc_ltb v (qz 500)); simpl; intros [= <-].
  - assert (H : (0 <= round_half_even (v / qz 100))%Z); [| lia].
    apply round_half_even_nonneg, Qcdiv_nonneg; [exact Hv | vm_compute; reflexivity].
  - assert (H : (0 <= round_half_even (v / qz 1000))%Z); [| lia].
    apply round_half_even_nonneg, Qcdiv_nonneg; [exact Hv | vm_compute; reflexivity].
Qed.

Lemma rounded_total_close (allocation : Series)
  (shares : list (string * share_row)) :
  Forall2 (fun kv ks =>
             snd kv - qz 500 <= qz (Allocation_USD (snd ks)) /\
             qz (Allocation_USD (snd ks)) <= snd kv + qz 500)
          allocation shares ->
  let total := qsum (map (fun ks => qz (Allocation_USD (snd ks))) shares) in
  let n := qz (Z.of_nat (List.length shares)) in
  qsum (values allocation) - qz 500 * n <= total /\
  total <= qsum (values allocation) + qz 500 * n.
Proof.
  cbv zeta. induction 1 as [| [t v] ks allocation shares [H1 H2] _ [IH1 IH2]].
  - simpl. split; vm_compute; discriminate.
  - cbn [values map qsum fold_right List.length snd]. rewrite qz_succ.
    apply rounded_step; assumption.
Qed.

Lemma total_within (s t c n : Qc) :
  s - qz 500 * n <= t -> t <= s + qz 500 * n ->
  - (1) <= s - c -> s - c <= 1 ->
  c - (qz 500 * n + 1) <= t /\ t <= c + (qz 500 * n + 1).
Proof.
  unfold Qcle, Qcminus, Qcplus, Qcopp, Qcmult, qz, Q2Qc; cbn [this].
  rewrite ?Qred_correct. change (inject_Z 500) with 500%Q. intros. split; lra.
Qed.

(** X27.  The steps that [main] runs from the scores to the amounts,
    composed, for scores that are numbers, a positive capital and a maximum
    that is not negative.  [apply_constraints] on the weights of
    [calculate_sortino_weights] returns either NaN only or numbers; and
    whenever [calculate_shares] returns on these numbers, its frame has a
    row for exactly the tickers with a positive score, in their order, no
    amount is negative, and the amounts add up to the capital within 500
    per row and one dollar. *)
Theorem scores_to_amounts (total_capital : Qc) (score : Series)
  (min_allocation_pct max_allocation_pct : Qc) (prices : Frame) :
  0 < total_capital ->
  0 <= max_allocation_pct ->
  let positive := filter (fun kv => Qc_ltb 0 (snd kv)) score in
  exists out,
    apply_constraints total_capital
      (calculate_sortino_weights (numbers score))
      min_allocation_pct max_allocation_pct = Returned out /\
    (out = nan_series (index positive) \/
     exists allocation,
       out = numbers allocation /\
       forall shares,
         calculate_shares allocation prices = Returned shares ->
         map fst shares = index positive /\
         Forall (fun ks => (0 <= Allocation_USD (snd ks))%Z) shares /\
         (shares <> [] ->
          let total :=
            qsum (map (fun ks => qz (Allocation_USD (snd ks))) shares) in
          let n := qz (Z.of_nat (List.length shares)) in
          total_capital - (qz 500 * n + 1) <= total /\
          total <= total_capital + (qz 500 * n + 1))).
Proof.
  intros Hc Hmax. cbv zeta.
  destruct (calculate_sortino_weights_numbers score) as (w & -> & Hw & Hidx).
  rewrite <- Hidx.
  destruct (apply_constraints_outcome total_capital w
              min_allocation_pct max_allocation_pct Hc Hmax Hw)
    as [(allocation & Hr & Hkeep & Hnn & Htot) | Hr].
  2:{ exists (nan_series (index w)). split; [exact Hr | left; reflexivity]. }
  exists (numbers allocation). split; [exact Hr |]. right.
  exists allocation. split; [reflexivity |]. intros shares Hsh.
  pose proof (calculate_shares_inv _ _ _ Hsh) as Hrows.
  split; [| split].
  - rewrite <- (ApplyConstraintsFacts.keeps_tickers_index _ _ Hkeep).
    unfold index.
    clear -Hrows. induction Hrows as [| kv ks a s (Hk & _) _ IH]; simpl;
      [reflexivity |].
    rewrite Hk, IH. reflexivity.
  - unfold nonneg, values in Hnn. rewrite Forall_map in Hnn.
    clear -Hrows Hnn. induction Hrows as [| kv ks a s (_ & Ha & _) _ IH];
      [constructor |].
    inversion Hnn as [| ? ? Hv Hnn']; subst.
    constructor; [exact (round_to_nearest_nonneg _ _ Hv Ha) | exact (IH Hnn')].
  - intros Hne. cbv zeta.
    assert (Hclose : Forall2 (fun kv ks =>
                                snd kv - qz 500 <= qz (Allocation_USD (snd ks)) /\
                                qz (Allocation_USD (snd ks)) <= snd kv + qz 500)
                             allocation shares).
    { eapply Forall2_impl; [| exact Hrows].
      intros kv ks (_ & Ha & _).
      destruct (round_to_nearest_thousand _ _ Ha) as (_ & H1 & H2). auto. }
    destruct (rounded_total_close _ _ Hclose) as [T1 T2].
    assert (Hane : allocation <> []).
    { intros E. rewrite E in Hrows. inversion Hrows; subst. contradiction. }
    destruct (qabs_le _ _ (Htot Hane)) as [A1 A2].
    exact (total_within _ _ _ _ T1 T2 A1 A2).
Qed.

(** The theorem applies, here with a capital of 45000. *)
Lemma scores_to_amounts_witness :
  let positive :=
    filter (fun kv => Qc_ltb 0 (snd kv)) MoreSamples.scores_four in
  exists out,
    apply_constraints (qz 45000)
      (calculate_sortino_weights (numbers MoreSamples.scores_four))
      MIN_ALLOCATION_PCT 1 = Returned out /\
    (out = nan_series (index positive) \/
     exists allocation,
       out = numbers allocation /\
       forall shares,
         calculate_shares allocation MoreSamples.prices_four
         = Returned shares ->
         map fst shares = index positive /\
         Forall (fun ks => (0 <= Allocation_USD (snd ks))%Z) shares /\
         (shares <> [] ->
          let total :=
            qsum (map (fun ks => qz (Allocation_USD (snd ks))) shares) in
          let n := qz (Z.of_nat (List.length shares)) in
          qz 45000 - (qz 500 * n + 1) <= total /\
          total <= qz 45000 + (qz 500 * n + 1))).
Proof.
  apply (scores_to_amounts (qz 45000) MoreSamples.scores_four
           MIN_ALLOCATION_PCT 1 MoreSamples.prices_four).
  - vm_compute. reflexivity.
  - vm_compute. discriminate.
Defined.
